(** * Lead disposition control plane: a shallow embedding

    The Python package [lead_disposition] keeps contacts, companies and three
    append-only logs in one relational store, and drives every contact through
    a disposition state machine.  This development embeds the store (the
    SQLite backend, [core/database.py]), the state machine ([state_machine.py]), the
    first-mover ownership protocol ([deconfliction.py]), the campaign fill
    engine ([campaign_fill.py]), the provider waterfall
    ([waterfall/engine.py], [waterfall/writeback.py]) and the TAM tracker
    ([tam_tracker.py]) as Rocq functions, and proves properties of them.

    Conventions of the embedding:
    - a table is the list of its rows, in insertion order; an [UPDATE ... WHERE]
      rewrites every row that satisfies the condition;
    - a [datetime] is an integer number of seconds, [timedelta(days=d)] is
      [d * 86400]; every operation receives the instant [now] that its calls
      to [datetime.now] return;
    - a Python exception is a value of [exn]; a coroutine of the source is a
      function from the store to the store it leaves behind and either the
      value returned or the exception raised;
    - a Python [float] is an exact rational. *)

From Stdlib Require Import ZArith QArith Qround String Ascii List Lia Sorted.
From stdpp Require Import base decidable option list gmap strings pretty.

Local Open Scope string_scope.
Local Open Scope list_scope.
Local Open Scope Z_scope.

(** ** Python values *)

Definition datetime := Z.

Definition timedelta_days (d : Z) : Z := d * 86400.

(** [max(a, b)] on integers. *)
Definition py_max (a b : Z) : Z := if a <? b then b else a.

(** [int(x)] on a float: truncation toward zero. *)
Definition py_int (x : Q) : Z := Z.quot (Qnum x) (Zpos (Qden x)).

(** [x < y] on floats. *)
Definition Qlt_bool (x y : Q) : bool := negb (Qle_bool y x).

(** A slice bound [i] of a sequence of length [len]: negative bounds count
    from the end, and every bound is clamped to [0 .. len]. *)
Definition py_bound (len : nat) (i : Z) : nat :=
  if i <? 0 then Z.to_nat (Z.of_nat len + i) else Nat.min (Z.to_nat i) len.

(** [l[lo:hi]]. *)
Definition py_slice {A} (l : list A) (lo hi : Z) : list A :=
  let a := py_bound (length l) lo in
  let b := py_bound (length l) hi in
  take (b - a)%nat (drop a l).

(** [repr] of a list of strings, as an f-string interpolates it. *)
Fixpoint py_repr_items (l : list string) : string :=
  match l with
  | [] => ""
  | [x] => "'" +:+ x +:+ "'"
  | x :: rest => "'" +:+ x +:+ "', " +:+ py_repr_items rest
  end.

Definition py_repr_list (l : list string) : string := "[" +:+ py_repr_items l +:+ "]".

(** ** core/models.py *)

Module DispositionStatus.
Inductive t :=
| FRESH | IN_SEQUENCE | COMPLETED_NO_RESPONSE | REPLIED_POSITIVE
| REPLIED_NEUTRAL | REPLIED_NEGATIVE | REPLIED_HARD_NO | BOUNCED
| UNSUBSCRIBED | RETOUCH_ELIGIBLE | STALE_DATA | JOB_CHANGE_DETECTED
| WON_CUSTOMER | LOST_CLOSED.

Definition value (s : t) : string :=
  match s with
  | FRESH => "fresh"
  | IN_SEQUENCE => "in_sequence"
  | COMPLETED_NO_RESPONSE => "completed_no_response"
  | REPLIED_POSITIVE => "replied_positive"
  | REPLIED_NEUTRAL => "replied_neutral"
  | REPLIED_NEGATIVE => "replied_negative"
  | REPLIED_HARD_NO => "replied_hard_no"
  | BOUNCED => "bounced"
  | UNSUBSCRIBED => "unsubscribed"
  | RETOUCH_ELIGIBLE => "retouch_eligible"
  | STALE_DATA => "stale_data"
  | JOB_CHANGE_DETECTED => "job_change_detected"
  | WON_CUSTOMER => "won_customer"
  | LOST_CLOSED => "lost_closed"
  end.

Definition all : list t :=
  [FRESH; IN_SEQUENCE; COMPLETED_NO_RESPONSE; REPLIED_POSITIVE;
   REPLIED_NEUTRAL; REPLIED_NEGATIVE; REPLIED_HARD_NO; BOUNCED;
   UNSUBSCRIBED; RETOUCH_ELIGIBLE; STALE_DATA; JOB_CHANGE_DETECTED;
   WON_CUSTOMER; LOST_CLOSED].

#[global] Instance eq_dec : EqDecision t.
Proof. solve_decision. Defined.
End DispositionStatus.

Module CompanyStatus.
Inductive t := FRESH | ACTIVE | COOLING | SUPPRESSED | CUSTOMER.

#[global] Instance eq_dec : EqDecision t.
Proof. solve_decision. Defined.
End CompanyStatus.

Module Channel.
Inductive t := EMAIL | LINKEDIN | PHONE.

Definition value (c : t) : string :=
  match c with EMAIL => "email" | LINKEDIN => "linkedin" | PHONE => "phone" end.

#[global] Instance eq_dec : EqDecision t.
Proof. solve_decision. Defined.
End Channel.

(** A row of [contacts].  The columns no modelled operation reads or writes
    (names, title, employer, source, [created_at], the LinkedIn and phone
    cooldowns) are left out. *)
Module Contact.
Record t := mk {
  email : string;
  client_id : string;
  company_domain : string;
  disposition_status : DispositionStatus.t;
  disposition_updated_at : option datetime;
  email_last_contacted : option datetime;
  linkedin_last_contacted : option datetime;
  phone_last_contacted : option datetime;
  email_cooldown_until : option datetime;
  email_suppressed : bool;
  linkedin_suppressed : bool;
  phone_suppressed : bool;
  data_enriched_at : option datetime;
  sequence_count : Z;
  updated_at : option datetime;
}.

(** A keyword argument of [update_contact_fields]: the column and its new
    value. *)
Inductive field :=
| disposition_status_ (v : DispositionStatus.t)
| disposition_updated_at_ (v : datetime)
| email_cooldown_until_ (v : datetime)
| email_suppressed_ (v : bool)
| linkedin_suppressed_ (v : bool)
| phone_suppressed_ (v : bool)
| last_contacted_ (ch : Channel.t) (v : datetime)
| sequence_count_ (v : Z)
| updated_at_ (v : datetime).

Definition assign (c : t) (f : field) : t :=
  let 'mk e cl d st sua elc llc plc ecu es ls ps dea sc ua := c in
  match f with
  | disposition_status_ v => mk e cl d v sua elc llc plc ecu es ls ps dea sc ua
  | disposition_updated_at_ v => mk e cl d st (Some v) elc llc plc ecu es ls ps dea sc ua
  | email_cooldown_until_ v => mk e cl d st sua elc llc plc (Some v) es ls ps dea sc ua
  | email_suppressed_ v => mk e cl d st sua elc llc plc ecu v ls ps dea sc ua
  | linkedin_suppressed_ v => mk e cl d st sua elc llc plc ecu es v ps dea sc ua
  | phone_suppressed_ v => mk e cl d st sua elc llc plc ecu es ls v dea sc ua
  | last_contacted_ Channel.EMAIL v => mk e cl d st sua (Some v) llc plc ecu es ls ps dea sc ua
  | last_contacted_ Channel.LINKEDIN v => mk e cl d st sua elc (Some v) plc ecu es ls ps dea sc ua
  | last_contacted_ Channel.PHONE v => mk e cl d st sua elc llc (Some v) ecu es ls ps dea sc ua
  | sequence_count_ v => mk e cl d st sua elc llc plc ecu es ls ps dea v ua
  | updated_at_ v => mk e cl d st sua elc llc plc ecu es ls ps dea sc (Some v)
  end.

(** The primary key [(email, client_id)]. *)
Definition key (c : t) : string * string := (email c, client_id c).
End Contact.

(** A row of [companies] ([name], [company_cooldown_until] and [created_at]
    are left out). *)
Module Company.
Record t := mk {
  domain : string;
  company_status : CompanyStatus.t;
  company_suppressed : bool;
  suppressed_reason : option string;
  suppressed_at : option datetime;
  contacts_total : Z;
  contacts_in_sequence : Z;
  contacts_touched : Z;
  last_contact_date : option datetime;
  is_customer : bool;
  customer_since : option datetime;
  client_owner_id : option string;
  client_owned_at : option datetime;
  ownership_expires_at : option datetime;
  updated_at : option datetime;
}.

Inductive field :=
| company_status_ (v : CompanyStatus.t)
| company_suppressed_ (v : bool)
| suppressed_reason_ (v : string)
| suppressed_at_ (v : datetime)
| contacts_total_ (v : Z)
| contacts_in_sequence_ (v : Z)
| contacts_touched_ (v : Z)
| last_contact_date_ (v : datetime)
| is_customer_ (v : bool)
| customer_since_ (v : datetime)
| client_owner_id_ (v : option string)
| client_owned_at_ (v : option datetime)
| ownership_expires_at_ (v : option datetime)
| updated_at_ (v : datetime).

Definition assign (c : t) (f : field) : t :=
  let 'mk d st su sr sa ct cs ch lcd ic csi own oat oex ua := c in
  match f with
  | company_status_ v => mk d v su sr sa ct cs ch lcd ic csi own oat oex ua
  | company_suppressed_ v => mk d st v sr sa ct cs ch lcd ic csi own oat oex ua
  | suppressed_reason_ v => mk d st su (Some v) sa ct cs ch lcd ic csi own oat oex ua
  | suppressed_at_ v => mk d st su sr (Some v) ct cs ch lcd ic csi own oat oex ua
  | contacts_total_ v => mk d st su sr sa v cs ch lcd ic csi own oat oex ua
  | contacts_in_sequence_ v => mk d st su sr sa ct v ch lcd ic csi own oat oex ua
  | contacts_touched_ v => mk d st su sr sa ct cs v lcd ic csi own oat oex ua
  | last_contact_date_ v => mk d st su sr sa ct cs ch (Some v) ic csi own oat oex ua
  | is_customer_ v => mk d st su sr sa ct cs ch lcd v csi own oat oex ua
  | customer_since_ v => mk d st su sr sa ct cs ch lcd ic (Some v) own oat oex ua
  | client_owner_id_ v => mk d st su sr sa ct cs ch lcd ic csi v oat oex ua
  | client_owned_at_ v => mk d st su sr sa ct cs ch lcd ic csi own v oex ua
  | ownership_expires_at_ v => mk d st su sr sa ct cs ch lcd ic csi own oat v ua
  | updated_at_ v => mk d st su sr sa ct cs ch lcd ic csi own oat oex (Some v)
  end.

(** The row [INSERT INTO companies (domain)] creates: every other column at
    its schema default. *)
Definition default (d : string) (now : datetime) : t :=
  mk d CompanyStatus.FRESH false None None 0 0 0 None false None None None None
     (Some now).
End Company.

(** A row of [disposition_history] (the random [id] and [metadata] are left
    out). *)
Module DispositionHistory.
Record t := mk {
  contact_email : string;
  contact_client_id : string;
  previous_status : option DispositionStatus.t;
  new_status : DispositionStatus.t;
  transition_reason : option string;
  triggered_by : string;
  campaign_id : option string;
  created_at : datetime;
}.
End DispositionHistory.

(** A row of [client_ownership]. *)
Module OwnershipChange.
Record t := mk {
  company_domain : string;
  previous_owner_id : option string;
  new_owner_id : option string;
  change_reason : string;
  changed_at : datetime;
}.
End OwnershipChange.

(** A row of [campaign_assignments]. *)
Module CampaignAssignment.
Record t := mk {
  contact_email : string;
  contact_client_id : string;
  campaign_id : string;
  client_id : string;
  channel : string;
  assigned_at : datetime;
}.
End CampaignAssignment.

(** ** core/config.py *)

Module Settings.
Record t := mk {
  cooldown_no_response_days : Z;
  cooldown_neutral_reply_days : Z;
  cooldown_negative_reply_days : Z;
  cooldown_lost_closed_days : Z;
  ownership_duration_months : Z;
  max_contacts_per_company : Z;
  fresh_retouch_ratio : Q;
  stale_data_months : Z;
  tam_warning_weeks : Z;
  tam_critical_weeks : Z;
  waterfall_enabled : bool;
  waterfall_provider_order : string;
}.

Definition default : t :=
  mk 90 45 180 90 12 3 (7 # 10) 6 8 4 true "internal,ai_ark,clay,jina,spider".
End Settings.

(** ** Exceptions and the store monad *)

Inductive exn :=
| ValueError (msg : string)
| TransitionError (msg : string)
| IntegrityError (msg : string)
| Exception (msg : string).

(** [str(e)]. *)
Definition exn_str (e : exn) : string :=
  match e with
  | ValueError m | TransitionError m | IntegrityError m | Exception m => m
  end.

Inductive outcome (A : Type) :=
| Ok (a : A)
| Raised (e : exn).
Arguments Ok {A} a.
Arguments Raised {A} e.

Module Store.
Record t := mk {
  contacts : list Contact.t;
  companies : list Company.t;
  disposition_history : list DispositionHistory.t;
  client_ownership : list OwnershipChange.t;
  campaign_assignments : list CampaignAssignment.t;
}.

Definition empty : t := mk [] [] [] [] [].

Definition with_contacts (l : list Contact.t) (s : t) : t :=
  mk l (companies s) (disposition_history s) (client_ownership s)
     (campaign_assignments s).
Definition with_companies (l : list Company.t) (s : t) : t :=
  mk (contacts s) l (disposition_history s) (client_ownership s)
     (campaign_assignments s).
Definition with_disposition_history (l : list DispositionHistory.t) (s : t) : t :=
  mk (contacts s) (companies s) l (client_ownership s) (campaign_assignments s).
Definition with_client_ownership (l : list OwnershipChange.t) (s : t) : t :=
  mk (contacts s) (companies s) (disposition_history s) l (campaign_assignments s).
Definition with_campaign_assignments (l : list CampaignAssignment.t) (s : t) : t :=
  mk (contacts s) (companies s) (disposition_history s) (client_ownership s) l.
End Store.

(** A coroutine over the store: the store it leaves, and what it returned or
    raised. *)
Definition M (A : Type) : Type := Store.t -> Store.t * outcome A.

Definition ret {A} (a : A) : M A := fun s => (s, Ok a).

Definition raise {A} (e : exn) : M A := fun s => (s, Raised e).

Definition bind {A B} (m : M A) (k : A -> M B) : M B :=
  fun s =>
    match m s with
    | (s', Ok a) => k a s'
    | (s', Raised e) => (s', Raised e)
    end.

(** A read of the store. *)
Definition query {A} (f : Store.t -> A) : M A := fun s => (s, Ok (f s)).

(** A write to the store. *)
Definition exec (f : Store.t -> Store.t) : M unit := fun s => (f s, Ok tt).

#[global] Instance M_ret : MRet M := @ret.
#[global] Instance M_bind : MBind M := fun A B k m => bind m k.

(** [try: m except <class>: h]: [h e] is [None] when the [except] clause does
    not match [e], which then propagates. *)
Definition try_except {A} (m : M A) (h : exn -> option (M A)) : M A :=
  fun s =>
    match m s with
    | (s', Ok a) => (s', Ok a)
    | (s', Raised e) =>
        match h e with
        | Some k => k s'
        | None => (s', Raised e)
        end
    end.

(** ** core/database.py *)

Module Database.

Definition has_key (email client_id : string) (c : Contact.t) : bool :=
  bool_decide (Contact.email c = email ∧ Contact.client_id c = client_id).

Definition has_domain (domain : string) (co : Company.t) : bool :=
  bool_decide (Company.domain co = domain).

(** [SELECT * FROM contacts WHERE email = ? AND client_id = ?], first row. *)
Definition get_contact (email client_id : string) : M (option Contact.t) :=
  query (fun s => List.find (has_key email client_id) (Store.contacts s)).

(** [SELECT * FROM contacts WHERE company_domain = ?]. *)
Definition get_contacts_by_domain (domain : string) : M (list Contact.t) :=
  query (fun s =>
    filter (fun c => Contact.company_domain c = domain) (Store.contacts s)).

(** One row under [UPDATE contacts SET <fields>, updated_at = ?]. *)
Definition contact_set (fields : list Contact.field) (now : datetime)
    (c : Contact.t) : Contact.t :=
  Contact.assign (foldl Contact.assign c fields) (Contact.updated_at_ now).

Definition update_contact_fields (email client_id : string)
    (fields : list Contact.field) (now : datetime) : M (option Contact.t) :=
  match fields with
  | [] => get_contact email client_id
  | _ =>
      exec (fun s =>
        Store.with_contacts
          (map (fun c => if has_key email client_id c
                         then contact_set fields now c else c)
               (Store.contacts s)) s);;
      get_contact email client_id
  end.

(** [INSERT OR IGNORE INTO companies (domain) VALUES (?)]. *)
Definition _ensure_company (domain : string) (now : datetime) : M unit :=
  exec (fun s =>
    if existsb (has_domain domain) (Store.companies s) then s
    else Store.with_companies (Store.companies s ++ [Company.default domain now]) s).

Definition get_company (domain : string) : M (option Company.t) :=
  query (fun s => List.find (has_domain domain) (Store.companies s)).

(** The row an [INSERT INTO contacts] writes for [contact]: the columns the
    statement names come from the object, the others take the schema
    defaults. *)
Definition inserted_row (contact : Contact.t) (now : datetime) : Contact.t :=
  Contact.mk (Contact.email contact) (Contact.client_id contact)
    (Contact.company_domain contact) (Contact.disposition_status contact)
    (Some now) None None None None false false false
    (Contact.data_enriched_at contact) 0 (Some now).

(** [UPDATE companies SET contacts_total = contacts_total + 1 WHERE domain = ?]. *)
Definition bump_contacts_total (domain : string) : M unit :=
  exec (fun s =>
    Store.with_companies
      (map (fun co => if has_domain domain co
                      then Company.assign co
                             (Company.contacts_total_ (Company.contacts_total co + 1))
                      else co)
           (Store.companies s)) s).

Definition create_contact (contact : Contact.t) (now : datetime) : M Contact.t :=
  _ensure_company (Contact.company_domain contact) now;;
  existing ← get_contact (Contact.email contact) (Contact.client_id contact);
  match existing with
  | Some _ =>
      raise (IntegrityError
               "UNIQUE constraint failed: contacts.email, contacts.client_id")
  | None =>
      exec (fun s =>
        Store.with_contacts (Store.contacts s ++ [inserted_row contact now]) s);;
      bump_contacts_total (Contact.company_domain contact);;
      result ← get_contact (Contact.email contact) (Contact.client_id contact);
      match result with
      | Some r => ret r
      | None => raise (Exception "AssertionError")
      end
  end.

(** The loop of [bulk_create_contacts]: [INSERT OR IGNORE], counting the
    rows that were inserted. *)
Fixpoint bulk_create_loop (contacts : list Contact.t) (now : datetime)
    (inserted : Z) : M Z :=
  match contacts with
  | [] => ret inserted
  | contact :: rest =>
      _ensure_company (Contact.company_domain contact) now;;
      existing ← get_contact (Contact.email contact) (Contact.client_id contact);
      match existing with
      | Some _ => bulk_create_loop rest now inserted
      | None =>
          exec (fun s =>
            Store.with_contacts (Store.contacts s ++ [inserted_row contact now]) s);;
          bump_contacts_total (Contact.company_domain contact);;
          bulk_create_loop rest now (inserted + 1)
      end
  end.

Definition bulk_create_contacts (contacts : list Contact.t) (now : datetime) : M Z :=
  match contacts with
  | [] => ret 0
  | _ => bulk_create_loop contacts now 0
  end.

(** One row under [UPDATE companies SET <fields>, updated_at = ?].  The
    keyword dictionary is applied in the order its keys were assigned; a key
    assigned twice keeps its last value. *)
Definition company_set (fields : list Company.field) (now : datetime)
    (co : Company.t) : Company.t :=
  Company.assign (foldl Company.assign co fields) (Company.updated_at_ now).

Definition update_company_fields (domain : string)
    (fields : list Company.field) (now : datetime) : M (option Company.t) :=
  match fields with
  | [] => get_company domain
  | _ =>
      exec (fun s =>
        Store.with_companies
          (map (fun co => if has_domain domain co
                          then company_set fields now co else co)
               (Store.companies s)) s);;
      get_company domain
  end.

Definition insert_history (contact_email contact_client_id : string)
    (previous_status : option DispositionStatus.t)
    (new_status : DispositionStatus.t) (reason : option string)
    (triggered_by : string) (campaign_id : option string)
    (now : datetime) : M unit :=
  exec (fun s =>
    Store.with_disposition_history
      (Store.disposition_history s ++
         [DispositionHistory.mk contact_email contact_client_id previous_status
            new_status reason triggered_by campaign_id now]) s).

Definition insert_ownership_change (company_domain : string)
    (previous_owner_id new_owner_id : option string) (reason : string)
    (now : datetime) : M unit :=
  exec (fun s =>
    Store.with_client_ownership
      (Store.client_ownership s ++
         [OwnershipChange.mk company_domain previous_owner_id new_owner_id
            reason now]) s).

Definition insert_assignment (contact_email contact_client_id campaign_id
    client_id channel : string) (now : datetime) : M unit :=
  exec (fun s =>
    Store.with_campaign_assignments
      (Store.campaign_assignments s ++
         [CampaignAssignment.mk contact_email contact_client_id campaign_id
            client_id channel now]) s).

(** The statuses that carry a cooldown. *)
Definition cooldown_statuses : list DispositionStatus.t :=
  [DispositionStatus.COMPLETED_NO_RESPONSE; DispositionStatus.REPLIED_NEUTRAL;
   DispositionStatus.REPLIED_NEGATIVE; DispositionStatus.LOST_CLOSED].

(** The [WHERE] clause of [get_expired_cooldowns]. *)
Definition expired_cooldown (now : datetime) (c : Contact.t) : Prop :=
  Contact.disposition_status c ∈ cooldown_statuses ∧
  ∃ t, Contact.email_cooldown_until c = Some t ∧ t <= now.

#[global] Instance expired_cooldown_dec now c : Decision (expired_cooldown now c).
Proof.
  unfold expired_cooldown.
  destruct (Contact.email_cooldown_until c) as [t|].
  - destruct (decide (Contact.disposition_status c ∈ cooldown_statuses ∧ t <= now))
      as [H|H].
    + left. destruct H. eauto.
    + right. intros [? (t' & [= <-] & ?)]. tauto.
  - right. intros [? (t' & [=] & ?)].
Defined.

Definition get_expired_cooldowns (now : datetime) : M (list Contact.t) :=
  query (fun s => filter (expired_cooldown now) (Store.contacts s)).

(** The [WHERE] clause of [get_stale_contacts]. *)
Definition stale_contact (months : Z) (now : datetime) (c : Contact.t) : Prop :=
  (∃ t, Contact.data_enriched_at c = Some t ∧ t < now - timedelta_days (months * 30)) ∧
  Contact.disposition_status c ∉
    [DispositionStatus.REPLIED_HARD_NO; DispositionStatus.BOUNCED;
     DispositionStatus.UNSUBSCRIBED; DispositionStatus.WON_CUSTOMER;
     DispositionStatus.STALE_DATA].

#[global] Instance stale_contact_dec months now c : Decision (stale_contact months now c).
Proof.
  unfold stale_contact.
  destruct (Contact.data_enriched_at c) as [t|].
  - destruct (decide (t < now - timedelta_days (months * 30))) as [H|H].
    + destruct (decide (Contact.disposition_status c ∉
        [DispositionStatus.REPLIED_HARD_NO; DispositionStatus.BOUNCED;
         DispositionStatus.UNSUBSCRIBED; DispositionStatus.WON_CUSTOMER;
         DispositionStatus.STALE_DATA])) as [H'|H'].
      * left. eauto.
      * right. tauto.
    + right. intros [(t' & [= <-] & ?) ?]. tauto.
  - right. intros [(t' & [=] & ?) ?].
Defined.

Definition get_stale_contacts (months : Z) (now : datetime) : M (list Contact.t) :=
  query (fun s => filter (stale_contact months now) (Store.contacts s)).

(** The [WHERE] clause of [get_expired_ownerships]. *)
Definition expired_ownership (now : datetime) (co : Company.t) : bool :=
  match Company.client_owner_id co, Company.ownership_expires_at co with
  | Some _, Some t => (t <=? now) && (Company.contacts_in_sequence co =? 0)
  | _, _ => false
  end.

Definition get_expired_ownerships (now : datetime) : M (list Company.t) :=
  query (fun s => List.filter (expired_ownership now) (Store.companies s)).

(** The seven counts of [get_tam_pools]. *)
Record pools := mk_pools {
  total_universe : Z;
  never_touched : Z;
  in_cooldown : Z;
  available_now : Z;
  permanent_suppress : Z;
  in_sequence : Z;
  won_customer : Z;
}.

(** [if client_id]: a client filter applies when the argument is a
    non-empty string. *)
Definition client_filter (client_id : option string) : option string :=
  match client_id with
  | Some "" => None
  | other => other
  end.

Definition in_scope (client_id : option string) (c : Contact.t) : bool :=
  match client_filter client_id with
  | Some cid => bool_decide (Contact.client_id c = cid)
  | None => true
  end.

Definition count_where (p : Contact.t -> bool) (l : list Contact.t) : Z :=
  Z.of_nat (length (List.filter p l)).

Definition status_in (l : list DispositionStatus.t) (c : Contact.t) : bool :=
  bool_decide (Contact.disposition_status c ∈ l).

Definition get_tam_pools (client_id : option string) (now : datetime) : M pools :=
  query (fun s =>
    let rows := List.filter (in_scope client_id) (Store.contacts s) in
    mk_pools
      (Z.of_nat (length rows))
      (count_where (fun c =>
         status_in [DispositionStatus.FRESH] c && (Contact.sequence_count c =? 0)) rows)
      (count_where (fun c =>
         status_in cooldown_statuses c &&
         match Contact.email_cooldown_until c with
         | Some t => now <? t
         | None => false
         end) rows)
      (count_where (fun c =>
         status_in [DispositionStatus.FRESH; DispositionStatus.RETOUCH_ELIGIBLE] c &&
         negb (Contact.email_suppressed c) &&
         match Contact.email_cooldown_until c with
         | Some t => t <=? now
         | None => true
         end) rows)
      (count_where (status_in
         [DispositionStatus.REPLIED_HARD_NO; DispositionStatus.BOUNCED;
          DispositionStatus.UNSUBSCRIBED]) rows)
      (count_where (status_in [DispositionStatus.IN_SEQUENCE]) rows)
      (count_where (status_in [DispositionStatus.WON_CUSTOMER]) rows)).

(** [get_burn_rate]: history rows into [in_sequence] of the last seven
    days, as a float. *)
Definition get_burn_rate (client_id : option string) (now : datetime) : M Q :=
  query (fun s =>
    let cutoff := now - timedelta_days 7 in
    inject_Z (Z.of_nat (length (List.filter (fun h =>
      bool_decide (DispositionHistory.new_status h = DispositionStatus.IN_SEQUENCE) &&
      (cutoff <? DispositionHistory.created_at h) &&
      match client_filter client_id with
      | Some cid => bool_decide (DispositionHistory.contact_client_id h = cid)
      | None => true
      end) (Store.disposition_history s))))).

End Database.

(** ** state_machine.py *)

Module StateMachine.
Import DispositionStatus.

(** The legal transition map.  The source holds each target set as a Python
    [set]; the lists below enumerate them in the order of the source. *)
Definition TRANSITIONS (current : DispositionStatus.t) : list DispositionStatus.t :=
  match current with
  | FRESH => [IN_SEQUENCE; STALE_DATA; JOB_CHANGE_DETECTED]
  | IN_SEQUENCE =>
      [COMPLETED_NO_RESPONSE; REPLIED_POSITIVE; REPLIED_NEUTRAL; REPLIED_NEGATIVE;
       REPLIED_HARD_NO; BOUNCED; UNSUBSCRIBED]
  | COMPLETED_NO_RESPONSE => [RETOUCH_ELIGIBLE; STALE_DATA; JOB_CHANGE_DETECTED]
  | REPLIED_POSITIVE => [WON_CUSTOMER; LOST_CLOSED]
  | REPLIED_NEUTRAL => [RETOUCH_ELIGIBLE; STALE_DATA]
  | REPLIED_NEGATIVE => [RETOUCH_ELIGIBLE; STALE_DATA]
  | REPLIED_HARD_NO => []
  | BOUNCED => []
  | UNSUBSCRIBED => []
  | RETOUCH_ELIGIBLE => [IN_SEQUENCE; STALE_DATA; JOB_CHANGE_DETECTED]
  | STALE_DATA => [FRESH; RETOUCH_ELIGIBLE]
  | JOB_CHANGE_DETECTED => [FRESH]
  | WON_CUSTOMER => []
  | LOST_CLOSED => [RETOUCH_ELIGIBLE]
  end.

Definition TERMINAL_STATES : list DispositionStatus.t :=
  [REPLIED_HARD_NO; BOUNCED; UNSUBSCRIBED; WON_CUSTOMER].

(** The message of the [TransitionError]: it interpolates the current
    status, the requested one and the list of allowed targets. *)
Definition illegal_transition_message (current target : DispositionStatus.t)
    (allowed : list DispositionStatus.t) : string :=
  "Illegal transition: " +:+ value current +:+ " -> " +:+ value target +:+ ". " +:+
  "Allowed from " +:+ value current +:+ ": " +:+ py_repr_list (map value allowed).

Definition _validate_transition (current target : DispositionStatus.t) : M unit :=
  if decide (current = target) then ret tt
  else
    let allowed := TRANSITIONS current in
    if decide (target ∈ allowed) then ret tt
    else raise (TransitionError (illegal_transition_message current target allowed)).

(** The cooldown of a target status, as a [timedelta]. *)
Definition _get_cooldown (settings : Settings.t) (new_status : DispositionStatus.t)
    : option Z :=
  match new_status with
  | COMPLETED_NO_RESPONSE =>
      Some (timedelta_days (Settings.cooldown_no_response_days settings))
  | REPLIED_NEUTRAL =>
      Some (timedelta_days (Settings.cooldown_neutral_reply_days settings))
  | REPLIED_NEGATIVE =>
      Some (timedelta_days (Settings.cooldown_negative_reply_days settings))
  | LOST_CLOSED =>
      Some (timedelta_days (Settings.cooldown_lost_closed_days settings))
  | _ => None
  end.

Definition _get_suppression (new_status : DispositionStatus.t) : list Contact.field :=
  match new_status with
  | REPLIED_HARD_NO =>
      [Contact.email_suppressed_ true; Contact.linkedin_suppressed_ true;
       Contact.phone_suppressed_ true]
  | BOUNCED | UNSUBSCRIBED => [Contact.email_suppressed_ true]
  | _ => []
  end.

(** The first branch pair of [_update_company_state]: a contact entering a
    sequence, else a contact leaving one. *)
Definition sequence_updates (domain : string) (old_status new_status : DispositionStatus.t)
    (now : datetime) : M (list Company.field) :=
  if decide (new_status = IN_SEQUENCE) then
    company ← Database.get_company domain;
    match company with
    | Some co =>
        ret [Company.contacts_in_sequence_ (Company.contacts_in_sequence co + 1);
             Company.contacts_touched_ (Company.contacts_touched co + 1);
             Company.company_status_ CompanyStatus.ACTIVE;
             Company.last_contact_date_ now]
    | None => ret []
    end
  else if decide (old_status = IN_SEQUENCE) then
    company ← Database.get_company domain;
    match company with
    | Some co =>
        let new_count := py_max 0 (Company.contacts_in_sequence co - 1) in
        ret (Company.contacts_in_sequence_ new_count ::
             if (new_count =? 0) && (0 <? Company.contacts_touched co)
             then [Company.company_status_ CompanyStatus.COOLING] else [])
    | None => ret []
    end
  else ret [].

Definition _update_company_state (domain : string)
    (old_status new_status : DispositionStatus.t) (now : datetime) : M unit :=
  updates ← sequence_updates domain old_status new_status now;
  let updates :=
    updates ++
    (if decide (new_status = WON_CUSTOMER)
     then [Company.company_status_ CompanyStatus.CUSTOMER;
           Company.is_customer_ true; Company.customer_since_ now]
     else []) in
  let updates :=
    updates ++
    (if decide (new_status = REPLIED_HARD_NO)
     then [Company.company_status_ CompanyStatus.SUPPRESSED;
           Company.company_suppressed_ true;
           Company.suppressed_reason_ "hard_no_received";
           Company.suppressed_at_ now]
     else []) in
  match updates with
  | [] => ret tt
  | _ => Database.update_company_fields domain updates now;; ret tt
  end.

(** The loop of [_suppress_company] over the rows read before it. *)
Fixpoint suppress_loop (contacts : list Contact.t) (now : datetime) : M unit :=
  match contacts with
  | [] => ret tt
  | c :: rest =>
      (if Contact.email_suppressed c then ret tt
       else
         Database.update_contact_fields (Contact.email c) (Contact.client_id c)
           [Contact.email_suppressed_ true] now;;
         ret tt);;
      suppress_loop rest now
  end.

Definition _suppress_company (domain : string) (now : datetime) : M unit :=
  contacts ← Database.get_contacts_by_domain domain;
  suppress_loop contacts now.

(** The keyword dictionary [updates] that [transition] builds for the
  contact row. *)
Definition transition_updates (settings : Settings.t)
  (new_status : DispositionStatus.t) (now : datetime) : list Contact.field :=
let updates :=
  [Contact.disposition_status_ new_status;
   Contact.disposition_updated_at_ now] in
let updates :=
  updates ++
  match _get_cooldown settings new_status with
  | Some cooldown =>
      if cooldown =? 0 then []
      else [Contact.email_cooldown_until_ (now + cooldown)]
  | None => []
  end in
updates ++ _get_suppression new_status.

Definition transition (settings : Settings.t) (email client_id : string)
  (new_status : DispositionStatus.t) (reason : option string)
  (triggered_by : string) (campaign_id : option string)
  (now : datetime) : M unit :=
contact ← Database.get_contact email client_id;
match contact with
| None =>
    raise (ValueError ("Contact not found: " +:+ email +:+ " / " +:+ client_id))
| Some contact =>
    let current := Contact.disposition_status contact in
    _validate_transition current new_status;;
    Database.update_contact_fields email client_id
      (transition_updates settings new_status now) now;;
    Database.insert_history email client_id (Some current) new_status reason
      triggered_by campaign_id now;;
    _update_company_state (Contact.company_domain contact) current new_status now;;
    if decide (new_status = REPLIED_HARD_NO)
    then _suppress_company (Contact.company_domain contact) now
    else ret tt
end.

(** [except TransitionError: pass]. *)
Definition swallow_transition_error {A} (k : M A) (e : exn) : option (M A) :=
  match e with
  | TransitionError _ => Some k
  | _ => None
  end.

(** The loop shared by the two sweeps: transition every row to [target],
    counting the transitions that did not raise [TransitionError]. *)
Fixpoint sweep_loop (settings : Settings.t) (target : DispositionStatus.t)
    (reason : string) (now : datetime) (contacts : list Contact.t) (count : Z) : M Z :=
  match contacts with
  | [] => ret count
  | c :: rest =>
      count ← try_except
        (transition settings (Contact.email c) (Contact.client_id c) target
           (Some reason) "system" None now;;
         ret (count + 1))
        (swallow_transition_error (ret count));
      sweep_loop settings target reason now rest count
  end.

Definition process_expired_cooldowns (settings : Settings.t) (now : datetime) : M Z :=
  contacts ← Database.get_expired_cooldowns now;
  sweep_loop settings RETOUCH_ELIGIBLE "cooldown_expired" now contacts 0.

(** [months or self.settings.stale_data_months]. *)
Definition process_stale_data (settings : Settings.t) (months : option Z)
    (now : datetime) : M Z :=
  let m := match months with
           | Some 0 | None => Settings.stale_data_months settings
           | Some m => m
           end in
  contacts ← Database.get_stale_contacts m now;
  sweep_loop settings STALE_DATA
    ("data_enriched_at older than " +:+ pretty m +:+ " months") now contacts 0.

End StateMachine.

(** ** deconfliction.py *)

Module Deconfliction.

Definition check_ownership (domain client_id : string) (now : datetime) : M bool :=
  company ← Database.get_company domain;
  match company with
  | None => ret true
  | Some company =>
      match Company.client_owner_id company with
      | None => ret true
      | Some owner =>
          if decide (owner = client_id) then ret true
          else
            match Company.ownership_expires_at company with
            | Some expires =>
                if (expires <=? now) && (Company.contacts_in_sequence company =? 0)
                then ret true else ret false
            | None => ret false
            end
      end
  end.

(** The three ownership columns, as [claim_ownership] and
    [transfer_ownership] write them. *)
Definition ownership_fields (settings : Settings.t) (client_id : string)
    (now : datetime) : list Company.field :=
  let expiry := now + timedelta_days (Settings.ownership_duration_months settings * 30) in
  [Company.client_owner_id_ (Some client_id);
   Company.client_owned_at_ (Some now);
   Company.ownership_expires_at_ (Some expiry)].

Definition cleared_ownership : list Company.field :=
  [Company.client_owner_id_ None;
   Company.client_owned_at_ None;
   Company.ownership_expires_at_ None].

Definition claim_ownership (settings : Settings.t) (domain client_id : string)
    (now : datetime) : M bool :=
  company ← Database.get_company domain;
  match company with
  | None => ret false
  | Some company =>
      if match Company.client_owner_id company with
         | Some owner => bool_decide (owner ≠ client_id)
         | None => false
         end
      then ret false
      else
        Database.update_company_fields domain
          (ownership_fields settings client_id now) now;;
        Database.insert_ownership_change domain (Company.client_owner_id company)
          (Some client_id) "first_claim" now;;
        ret true
  end.

Definition release_ownership (domain : string) (now : datetime) : M bool :=
  company ← Database.get_company domain;
  match company with
  | None => ret false
  | Some company =>
      match Company.client_owner_id company with
      | None => ret false
      | Some previous_owner =>
          Database.update_company_fields domain cleared_ownership now;;
          Database.insert_ownership_change domain (Some previous_owner) None
            "manual_release" now;;
          ret true
      end
  end.

Definition transfer_ownership (settings : Settings.t) (domain new_client_id : string)
    (now : datetime) : M bool :=
  company ← Database.get_company domain;
  match company with
  | None => ret false
  | Some company =>
      Database.update_company_fields domain
        (ownership_fields settings new_client_id now) now;;
      Database.insert_ownership_change domain (Company.client_owner_id company)
        (Some new_client_id) "admin_transfer" now;;
      ret true
  end.

Fixpoint release_loop (expired : list Company.t) (now : datetime) (count : Z) : M Z :=
  match expired with
  | [] => ret count
  | company :: rest =>
      Database.update_company_fields (Company.domain company) cleared_ownership now;;
      Database.insert_ownership_change (Company.domain company)
        (Company.client_owner_id company) None "expired" now;;
      release_loop rest now (count + 1)
  end.

Definition process_expired_ownerships (now : datetime) : M Z :=
  expired ← Database.get_expired_ownerships now;
  release_loop expired now 0.

End Deconfliction.

(** ** campaign_fill.py *)

Module CampaignFillRequest.
Record t := mk {
  campaign_id : string;
  client_id : string;
  channel : Channel.t;
  volume : Z;
  title_keywords : list string;
  fresh_ratio : option Q;
  max_per_company : option Z;
}.
End CampaignFillRequest.

Module CampaignFillResult.
Record t := mk {
  campaign_id : string;
  client_id : string;
  total_requested : Z;
  total_assigned : Z;
  fresh_count : Z;
  retouch_count : Z;
  companies_touched : Z;
  contacts : list Contact.t;
  warnings : list string;
}.
End CampaignFillResult.

Module CampaignFillEngine.

(** [len(l)] as a Python integer. *)
Definition len {A} (l : list A) : Z := Z.of_nat (length l).

(** [counts.get(domain, 0)]. *)
Definition counts_get (counts : gmap string Z) (domain : string) : Z :=
  default 0 (counts !! domain).

(** The loop of [_apply_company_cap], on its two local variables. *)
Fixpoint cap_loop (contacts : list Contact.t) (max_per_company : Z)
    (counts : gmap string Z) (result : list Contact.t) : list Contact.t :=
  match contacts with
  | [] => result
  | c :: rest =>
      let current := counts_get counts (Contact.company_domain c) in
      if current <? max_per_company
      then cap_loop rest max_per_company
             (<[Contact.company_domain c := current + 1]> counts) (result ++ [c])
      else cap_loop rest max_per_company counts result
  end.

Definition _apply_company_cap (contacts : list Contact.t) (max_per_company : Z)
    (existing_counts : gmap string Z) : list Contact.t :=
  cap_loop contacts max_per_company existing_counts [].

Fixpoint count_loop (contacts : list Contact.t) (counts : gmap string Z)
    : gmap string Z :=
  match contacts with
  | [] => counts
  | c :: rest =>
      count_loop rest
        (<[Contact.company_domain c :=
             counts_get counts (Contact.company_domain c) + 1]> counts)
  end.

Definition _count_by_company (contacts : list Contact.t) : gmap string Z :=
  count_loop contacts ∅.

(** [request.fresh_ratio if request.fresh_ratio is not None else ...]. *)
Definition ratio_of (settings : Settings.t) (request : CampaignFillRequest.t) : Q :=
  match CampaignFillRequest.fresh_ratio request with
  | Some r => r
  | None => Settings.fresh_retouch_ratio settings
  end.

(** [request.max_per_company or self.settings.max_contacts_per_company]:
    [None] and [0] both select the configured default. *)
Definition max_per_co_of (settings : Settings.t) (request : CampaignFillRequest.t) : Z :=
  match CampaignFillRequest.max_per_company request with
  | Some 0 | None => Settings.max_contacts_per_company settings
  | Some m => m
  end.

Definition fresh_target_of (volume : Z) (ratio : Q) : Z :=
  py_int (inject_Z volume * ratio).

(** The selection of [fill] between the two queries and the assignments:
    cap both lists, then trim to the volume. *)
Definition select_contacts (volume fresh_target max_per_co : Z)
    (fresh_contacts retouch_contacts : list Contact.t) : list Contact.t :=
  let selected_fresh := _apply_company_cap fresh_contacts max_per_co ∅ in
  let company_counts := _count_by_company selected_fresh in
  let selected_retouch := _apply_company_cap retouch_contacts max_per_co company_counts in
  let all_selected := py_slice selected_fresh 0 fresh_target in
  let remaining := volume - len all_selected in
  let all_selected := all_selected ++ py_slice selected_retouch 0 remaining in
  if len all_selected <? volume then
    let backfill_count := volume - len all_selected in
    all_selected ++ py_slice selected_fresh fresh_target (fresh_target + backfill_count)
  else all_selected.

(** The tallies the assignment loop keeps. *)
Record tally := mk_tally {
  companies_touched : gset string;
  fresh_count : Z;
  retouch_count : Z;
}.

Definition tally_add (t : tally) (contact : Contact.t) : tally :=
  let touched := companies_touched t ∪ {[Contact.company_domain contact]} in
  if decide (Contact.disposition_status contact = DispositionStatus.FRESH)
  then mk_tally touched (fresh_count t + 1) (retouch_count t)
  else mk_tally touched (fresh_count t) (retouch_count t + 1).

Definition _assign_contact (settings : Settings.t) (contact : Contact.t)
    (request : CampaignFillRequest.t) (channel : Channel.t) (now : datetime) : M unit :=
  StateMachine.transition settings (Contact.email contact) (Contact.client_id contact)
    DispositionStatus.IN_SEQUENCE
    (Some ("assigned_to_campaign:" +:+ CampaignFillRequest.campaign_id request))
    "campaign_fill" (Some (CampaignFillRequest.campaign_id request)) now;;
  Database.update_contact_fields (Contact.email contact) (Contact.client_id contact)
    [Contact.last_contacted_ channel now;
     Contact.sequence_count_ (Contact.sequence_count contact + 1)] now;;
  Database.insert_assignment (Contact.email contact) (Contact.client_id contact)
    (CampaignFillRequest.campaign_id request) (CampaignFillRequest.client_id request)
    (Channel.value channel) now;;
  company ← Database.get_company (Contact.company_domain contact);
  match company with
  | Some co =>
      match Company.client_owner_id co with
      | None =>
          Database.update_company_fields (Contact.company_domain contact)
            (Deconfliction.ownership_fields settings
               (CampaignFillRequest.client_id request) now) now;;
          Database.insert_ownership_change (Contact.company_domain contact) None
            (Some (CampaignFillRequest.client_id request)) "first_claim" now
      | Some _ => ret tt
      end
  | None => ret tt
  end.

Fixpoint assign_loop (settings : Settings.t) (request : CampaignFillRequest.t)
    (channel : Channel.t) (now : datetime) (all_selected : list Contact.t)
    (t : tally) : M tally :=
  match all_selected with
  | [] => ret t
  | contact :: rest =>
      _assign_contact settings contact request channel now;;
      assign_loop settings request channel now rest (tally_add t contact)
  end.

Section Fill.
(** [Database.query_eligible_contacts], taken as given: client, channel,
    title keywords, limit, status filter and the instant of the query.
    What follows holds for every result the query may produce. *)
Variable query_eligible_contacts :
  string -> Channel.t -> option (list string) -> Z -> list string -> datetime ->
  M (list Contact.t).

Definition fill (settings : Settings.t) (request : CampaignFillRequest.t)
    (now : datetime) : M CampaignFillResult.t :=
  let ratio := ratio_of settings request in
  let max_per_co := max_per_co_of settings request in
  let channel := CampaignFillRequest.channel request in
  let volume := CampaignFillRequest.volume request in
  let titles := match CampaignFillRequest.title_keywords request with
                | [] => None
                | kws => Some kws
                end in
  let fresh_target := fresh_target_of volume ratio in
  fresh_contacts ← query_eligible_contacts (CampaignFillRequest.client_id request)
    channel titles (fresh_target * 2) ["fresh"] now;
  let retouch_target := volume - fresh_target in
  retouch_contacts ← query_eligible_contacts (CampaignFillRequest.client_id request)
    channel titles (retouch_target * 2) ["retouch_eligible"] now;
  let warnings :=
    if len fresh_contacts <? fresh_target
    then ["Insufficient fresh leads: requested " +:+ pretty fresh_target +:+
          ", found " +:+ pretty (len fresh_contacts)]
    else [] in
  let all_selected :=
    select_contacts volume fresh_target max_per_co fresh_contacts retouch_contacts in
  let warnings :=
    warnings ++
    (if len all_selected <? volume
     then ["Volume shortfall: requested " +:+ pretty volume +:+
           ", assigned " +:+ pretty (len all_selected)]
     else []) in
  t ← assign_loop settings request channel now all_selected (mk_tally ∅ 0 0);
  ret (CampaignFillResult.mk
         (CampaignFillRequest.campaign_id request)
         (CampaignFillRequest.client_id request)
         volume
         (len all_selected)
         (fresh_count t)
         (retouch_count t)
         (Z.of_nat (size (companies_touched t)))
         all_selected
         warnings).
End Fill.

End CampaignFillEngine.

(** ** tam_tracker.py *)

Module TAMHealth.
Record t := mk {
  total_universe : Z;
  never_touched : Z;
  in_cooldown : Z;
  available_now : Z;
  permanent_suppress : Z;
  in_sequence : Z;
  won_customer : Z;
  burn_rate_weekly : Q;
  exhaustion_eta_weeks : option Q;
  health_status : string;
}.
End TAMHealth.

Module TAMTracker.

Definition eta_of (available : Z) (burn_rate : Q) : option Q :=
  if Qlt_bool 0 burn_rate then Some (inject_Z available / burn_rate)%Q else None.

Definition health_status_of (settings : Settings.t) (eta : option Q) : string :=
  match eta with
  | Some eta =>
      if Qlt_bool eta (inject_Z (Settings.tam_critical_weeks settings)) then "critical"
      else if Qlt_bool eta (inject_Z (Settings.tam_warning_weeks settings)) then "warning"
      else "healthy"
  | None => "healthy"
  end.

Definition get_health (settings : Settings.t) (client_id : option string)
    (now : datetime) : M TAMHealth.t :=
  pools ← Database.get_tam_pools client_id now;
  burn_rate ← Database.get_burn_rate client_id now;
  let available := Database.available_now pools in
  let eta := eta_of available burn_rate in
  let health_status := health_status_of settings eta in
  ret (TAMHealth.mk
         (Database.total_universe pools)
         (Database.never_touched pools)
         (Database.in_cooldown pools)
         available
         (Database.permanent_suppress pools)
         (Database.in_sequence pools)
         (Database.won_customer pools)
         burn_rate
         eta
         health_status).

End TAMTracker.

(** ** Python strings *)

(** [sep in s]. *)
Fixpoint py_contains (sep : ascii) (s : string) : bool :=
  match s with
  | EmptyString => false
  | String c rest => if Ascii.eqb c sep then true else py_contains sep rest
  end.

(** [s.split(sep)] for a one-character separator. *)
Fixpoint py_split (sep : ascii) (s : string) : list string :=
  match s with
  | EmptyString => [EmptyString]
  | String c rest =>
      if Ascii.eqb c sep then EmptyString :: py_split sep rest
      else match py_split sep rest with
           | [] => [String c EmptyString]
           | x :: xs => String c x :: xs
           end
  end.

(** The whitespace [str.strip] removes, within ASCII. *)
Definition is_space (c : ascii) : bool :=
  let n := nat_of_ascii c in
  ((9 <=? n) && (n <=? 13) || (28 <=? n) && (n <=? 32))%nat.

Fixpoint py_lstrip (s : string) : string :=
  match s with
  | EmptyString => EmptyString
  | String c rest => if is_space c then py_lstrip rest else s
  end.

Definition string_reverse (s : string) : string :=
  string_of_list_ascii (rev (list_ascii_of_string s)).

Definition py_strip (s : string) : string :=
  string_reverse (py_lstrip (string_reverse (py_lstrip s))).

(** [s.lower()], within ASCII. *)
Definition lower_ascii (c : ascii) : ascii :=
  let n := nat_of_ascii c in
  if ((65 <=? n) && (n <=? 90))%nat then ascii_of_nat (n + 32) else c.

Fixpoint py_lower (s : string) : string :=
  match s with
  | EmptyString => EmptyString
  | String c rest => String (lower_ascii c) (py_lower rest)
  end.

(** [sorted(l, key=key)]: a stable insertion sort. *)
Fixpoint insert_by {A} (key : A -> Z) (x : A) (l : list A) : list A :=
  match l with
  | [] => [x]
  | y :: rest => if key x <? key y then x :: l else y :: insert_by key x rest
  end.

Definition sorted_by {A} (key : A -> Z) (l : list A) : list A :=
  foldl (fun acc x => insert_by key x acc) [] l.

(** The text a float takes inside a warning.  The decimal rendering of Python
    floats is outside this model: the rational is printed as a fraction. *)
Definition show_float (q : Q) : string :=
  pretty (Qnum q) +:+ "/" +:+ pretty (Zpos (Qden q)).

(** ** providers/base.py *)

Module SearchCriteria.
Record t := mk {
  client_id : string;
  industry : option string;
  job_titles : list string;
  company_sizes : list string;
  locations : list string;
  keywords : list string;
  company_domains : list string;
  limit : Z;
}.

Definition with_limit (n : Z) (c : t) : t :=
  mk (client_id c) (industry c) (job_titles c) (company_sizes c) (locations c)
     (keywords c) (company_domains c) n.
End SearchCriteria.

(** A lead as a provider returns it (the columns the write-back does not map
    to a modelled contact column are left out). *)
Module ExternalLead.
Record t := mk {
  email : string;
  company_domain : option string;
  source_provider : string;
}.
End ExternalLead.

Module ProviderResult.
Record t := mk {
  leads : list ExternalLead.t;
  total_found : Z;
  credits_consumed : Q;
  errors : list string;
}.
End ProviderResult.

(** An adapter: its name, its priority, and what [search_leads] does on a
    criteria object, which is to return a result or to raise. *)
Module LeadProvider.
Record t := mk {
  provider_name : string;
  priority : Z;
  search_leads : SearchCriteria.t -> outcome ProviderResult.t;
}.
End LeadProvider.

(** ** waterfall/writeback.py *)

Module WriteBackResult.
Record t := mk {
  total_processed : Z;
  new_inserted : Z;
  duplicates_skipped : Z;
  invalid_skipped : Z;
  errors : list string;
}.
End WriteBackResult.

Module WriteBack.

Definition external_lead_to_contact (lead : ExternalLead.t) (client_id : string)
    (now : datetime) : option Contact.t :=
  let email := ExternalLead.email lead in
  if bool_decide (email = "") || negb (py_contains "@" email) then None
  else
    let company_domain :=
      match ExternalLead.company_domain lead with
      | Some "" | None => default "" (py_split "@" email !! 1%nat)
      | Some d => d
      end in
    Some (Contact.mk (py_strip (py_lower email)) client_id
            (py_strip (py_lower company_domain)) DispositionStatus.FRESH
            None None None None None false false false (Some now) 0 None).

(** The first loop of [write_back_leads]: the mapped contacts and the number
    of leads skipped as invalid. *)
Fixpoint map_leads (leads : list ExternalLead.t) (client_id : string) (now : datetime)
    (contacts : list Contact.t) (invalid_skipped : Z) : list Contact.t * Z :=
  match leads with
  | [] => (contacts, invalid_skipped)
  | lead :: rest =>
      match external_lead_to_contact lead client_id now with
      | None => map_leads rest client_id now contacts (invalid_skipped + 1)
      | Some contact => map_leads rest client_id now (contacts ++ [contact]) invalid_skipped
      end
  end.

Definition write_back_leads (leads : list ExternalLead.t) (client_id : string)
    (now : datetime) : M WriteBackResult.t :=
  let total := Z.of_nat (length leads) in
  let '(contacts, invalid_skipped) := map_leads leads client_id now [] 0 in
  match contacts with
  | [] => ret (WriteBackResult.mk total 0 0 invalid_skipped [])
  | _ =>
      try_except
        (inserted ← Database.bulk_create_contacts contacts now;
         ret (WriteBackResult.mk total inserted
                (Z.of_nat (length contacts) - inserted) invalid_skipped []))
        (fun e => Some (ret (WriteBackResult.mk total 0 0 invalid_skipped
                               ["Bulk insert failed: " +:+ exn_str e])))
  end.

End WriteBack.

(** ** waterfall/engine.py *)

Module WaterfallFillRequest.
Record t := mk {
  campaign_id : string;
  client_id : string;
  channel : Channel.t;
  volume : Z;
  title_keywords : list string;
  industry_keywords : list string;
  fresh_ratio : option Q;
  max_per_company : option Z;
  enable_external : bool;
  max_external_credits : Q;
  providers_override : option (list string);
  industry : option string;
  company_sizes : list string;
  locations : list string;
  search_keywords : list string;
  company_domains : list string;
}.
End WaterfallFillRequest.

Module WaterfallFillResult.
Record t := mk {
  campaign_id : string;
  client_id : string;
  total_requested : Z;
  total_assigned : Z;
  fresh_count : Z;
  retouch_count : Z;
  companies_touched : Z;
  contacts : list Contact.t;
  warnings : list string;
  internal_filled : Z;
  external_filled : Z;
  per_provider_counts : gmap string Z;
  credits_consumed : gmap string Q;
  write_back_count : Z;
  write_back_details : option WriteBackResult.t;
}.

Definition add_warnings (w : list string) (r : t) : t :=
  mk (campaign_id r) (client_id r) (total_requested r) (total_assigned r)
     (fresh_count r) (retouch_count r) (companies_touched r) (contacts r)
     (warnings r ++ w) (internal_filled r) (external_filled r)
     (per_provider_counts r) (credits_consumed r) (write_back_count r)
     (write_back_details r).

(** [per_provider_counts[name] = found; credits_consumed[name] = credits]. *)
Definition record_provider (name : string) (found : Z) (credits : Q) (r : t) : t :=
  mk (campaign_id r) (client_id r) (total_requested r) (total_assigned r)
     (fresh_count r) (retouch_count r) (companies_touched r) (contacts r)
     (warnings r) (internal_filled r) (external_filled r)
     (<[name := found]> (per_provider_counts r))
     (<[name := credits]> (credits_consumed r)) (write_back_count r)
     (write_back_details r).

Definition record_write_back (wb : WriteBackResult.t) (r : t) : t :=
  mk (campaign_id r) (client_id r) (total_requested r) (total_assigned r)
     (fresh_count r) (retouch_count r) (companies_touched r) (contacts r)
     (warnings r) (internal_filled r) (external_filled r)
     (per_provider_counts r) (credits_consumed r) (WriteBackResult.new_inserted wb)
     (Some wb).

Definition merge_refill (refill : CampaignFillResult.t) (r : t) : t :=
  mk (campaign_id r) (client_id r) (total_requested r)
     (total_assigned r + CampaignFillResult.total_assigned refill)
     (fresh_count r + CampaignFillResult.fresh_count refill)
     (retouch_count r)
     (companies_touched r + CampaignFillResult.companies_touched refill)
     (contacts r ++ CampaignFillResult.contacts refill)
     (warnings r ++ CampaignFillResult.warnings refill)
     (internal_filled r) (CampaignFillResult.total_assigned refill)
     (per_provider_counts r) (credits_consumed r) (write_back_count r)
     (write_back_details r).
End WaterfallFillResult.

Module WaterfallEngine.

(** The local variables of the provider loop of [fill_campaign]. *)
Record cascade_state := mk_cascade {
  partial : WaterfallFillResult.t;
  deficit : Z;
  total_credits : Q;
  search_criteria : SearchCriteria.t;
  all_external_leads : list ExternalLead.t;
}.

(** [await provider.search_leads(criteria)]: the adapter does not touch the
    store; it returns or raises. *)
Definition call_provider (provider : LeadProvider.t) (criteria : SearchCriteria.t)
    : M ProviderResult.t :=
  fun s => (s, LeadProvider.search_leads provider criteria).

(** [except Exception as e]: every exception is caught and handed over. *)
Definition catch_all {A} (e : exn) : option (M (exn + A)) := Some (ret (inl e)).

(** The [for provider in active_providers] loop. *)
Fixpoint cascade (max_external_credits : Q) (providers : list LeadProvider.t)
    (st : cascade_state) : M cascade_state :=
  match providers with
  | [] => ret st
  | provider :: rest =>
      if deficit st <=? 0 then ret st
      else if Qle_bool max_external_credits (total_credits st) then
        ret (mk_cascade
               (WaterfallFillResult.add_warnings
                  ["Credit limit reached (" +:+ show_float (total_credits st) +:+ "/" +:+
                   show_float max_external_credits +:+ ")"] (partial st))
               (deficit st) (total_credits st) (search_criteria st)
               (all_external_leads st))
      else
        let criteria := SearchCriteria.with_limit (deficit st) (search_criteria st) in
        attempt ← try_except
          (provider_result ← call_provider provider criteria; ret (inr provider_result))
          catch_all;
        match attempt with
        | inl e =>
            cascade max_external_credits rest
              (mk_cascade
                 (WaterfallFillResult.add_warnings
                    [LeadProvider.provider_name provider +:+ " error: " +:+ exn_str e]
                    (partial st))
                 (deficit st) (total_credits st) criteria (all_external_leads st))
        | inr provider_result =>
            let found_count := Z.of_nat (length (ProviderResult.leads provider_result)) in
            cascade max_external_credits rest
              (mk_cascade
                 (WaterfallFillResult.record_provider
                    (LeadProvider.provider_name provider) found_count
                    (ProviderResult.credits_consumed provider_result)
                    (WaterfallFillResult.add_warnings
                       (ProviderResult.errors provider_result) (partial st)))
                 (deficit st - found_count)
                 (total_credits st + ProviderResult.credits_consumed provider_result)%Q
                 criteria
                 (all_external_leads st ++ ProviderResult.leads provider_result))
        end
  end.

(** [{name.strip(): i for i, name in enumerate(order)}]. *)
Fixpoint order_map_loop (order : list string) (i : Z) (m : gmap string Z)
    : gmap string Z :=
  match order with
  | [] => m
  | name :: rest => order_map_loop rest (i + 1) (<[py_strip name := i]> m)
  end.

(** [self.providers] is the constructor's list sorted by priority. *)
Definition _get_active_providers (settings : Settings.t)
    (self_providers : list LeadProvider.t) (override : option (list string))
    : list LeadProvider.t :=
  match override with
  | Some (n :: ns) =>
      List.filter (fun p => bool_decide (LeadProvider.provider_name p ∈ n :: ns))
        self_providers
  | _ =>
      let order := py_split "," (Settings.waterfall_provider_order settings) in
      let order_map := order_map_loop order 0 ∅ in
      let active :=
        List.filter (fun p => bool_decide (is_Some (order_map !! LeadProvider.provider_name p)))
          self_providers in
      sorted_by (fun p => default 999 (order_map !! LeadProvider.provider_name p)) active
  end.

Section Engine.
(** The eligibility query of the fill engine, as in [CampaignFillEngine]. *)
Variable query_eligible_contacts :
  string -> Channel.t -> option (list string) -> Z -> list string -> datetime ->
  M (list Contact.t).

Definition fill_engine_fill := CampaignFillEngine.fill query_eligible_contacts.

(** Steps 4 and 5: write the external leads back and fill again from them. *)
Definition write_back_and_refill (settings : Settings.t)
    (request : WaterfallFillRequest.t) (now : datetime)
    (leads : list ExternalLead.t) (result : WaterfallFillResult.t)
    : M WaterfallFillResult.t :=
  match leads with
  | [] => ret result
  | _ =>
      wb_result ← WriteBack.write_back_leads leads
        (WaterfallFillRequest.client_id request) now;
      let result :=
        WaterfallFillResult.add_warnings (WriteBackResult.errors wb_result)
          (WaterfallFillResult.record_write_back wb_result result) in
      if 0 <? WriteBackResult.new_inserted wb_result then
        let remaining :=
          WaterfallFillRequest.volume request -
          WaterfallFillResult.total_assigned result in
        if 0 <? remaining then
          refill_result ← fill_engine_fill settings
            (CampaignFillRequest.mk
               (WaterfallFillRequest.campaign_id request)
               (WaterfallFillRequest.client_id request)
               (WaterfallFillRequest.channel request)
               remaining
               (WaterfallFillRequest.title_keywords request)
               (Some 1%Q)
               (WaterfallFillRequest.max_per_company request)) now;
          ret (WaterfallFillResult.merge_refill refill_result result)
        else ret result
      else ret result
  end.

Definition final_shortfall (request : WaterfallFillRequest.t)
    (result : WaterfallFillResult.t) : WaterfallFillResult.t :=
  if WaterfallFillResult.total_assigned result <? WaterfallFillRequest.volume request
  then WaterfallFillResult.add_warnings
         ["Final shortfall: requested " +:+ pretty (WaterfallFillRequest.volume request) +:+
          ", assigned " +:+ pretty (WaterfallFillResult.total_assigned result) +:+
          " (internal=" +:+ pretty (WaterfallFillResult.internal_filled result) +:+
          ", external=" +:+ pretty (WaterfallFillResult.external_filled result) +:+ ")"]
         result
  else result.

(** [providers] is the list the engine was constructed with. *)
Definition fill_campaign (settings : Settings.t) (providers : list LeadProvider.t)
    (request : WaterfallFillRequest.t) (now : datetime) : M WaterfallFillResult.t :=
  let self_providers := sorted_by LeadProvider.priority providers in
  let volume := WaterfallFillRequest.volume request in
  internal_result ← fill_engine_fill settings
    (CampaignFillRequest.mk
       (WaterfallFillRequest.campaign_id request)
       (WaterfallFillRequest.client_id request)
       (WaterfallFillRequest.channel request)
       volume
       (WaterfallFillRequest.title_keywords request)
       (WaterfallFillRequest.fresh_ratio request)
       (WaterfallFillRequest.max_per_company request)) now;
  let assigned := CampaignFillResult.total_assigned internal_result in
  let result :=
    WaterfallFillResult.mk
      (WaterfallFillRequest.campaign_id request)
      (WaterfallFillRequest.client_id request)
      volume
      assigned
      (CampaignFillResult.fresh_count internal_result)
      (CampaignFillResult.retouch_count internal_result)
      (CampaignFillResult.companies_touched internal_result)
      (CampaignFillResult.contacts internal_result)
      (CampaignFillResult.warnings internal_result)
      assigned
      0
      {["internal" := assigned]}
      ∅
      0
      None in
  let deficit := volume - assigned in
  if (deficit <=? 0) || negb (WaterfallFillRequest.enable_external request)
  then ret result
  else if negb (Settings.waterfall_enabled settings)
  then ret (WaterfallFillResult.add_warnings
              ["Waterfall disabled - external sources skipped"] result)
  else
    let active_providers :=
      _get_active_providers settings self_providers
        (WaterfallFillRequest.providers_override request) in
    let search_criteria :=
      SearchCriteria.mk
        (WaterfallFillRequest.client_id request)
        (WaterfallFillRequest.industry request)
        (WaterfallFillRequest.title_keywords request)
        (WaterfallFillRequest.company_sizes request)
        (WaterfallFillRequest.locations request)
        (match WaterfallFillRequest.search_keywords request with
         | [] => WaterfallFillRequest.industry_keywords request
         | kws => kws
         end)
        (WaterfallFillRequest.company_domains request)
        deficit in
    st ← cascade (WaterfallFillRequest.max_external_credits request) active_providers
           (mk_cascade result deficit 0%Q search_criteria []);
    result ← write_back_and_refill settings request now (all_external_leads st) (partial st);
    ret (final_shortfall request result).
End Engine.

End WaterfallEngine.

(** ** core/config.py and core/database.py: the path of the database

    The fields of [Settings] that the property [database_url] reads. *)

Module ConnectionSettings.
Record t := mk {
  postgres_host : string;
  postgres_port : Z;
  postgres_db : string;
  postgres_user : string;
  postgres_password : string;
  use_sqlite : bool;
  sqlite_path : string;
}.

(** The defaults of the class. *)
Definition default : t :=
  mk "localhost" 5432 "postgres" "postgres" "" false "disposition.db".

Definition database_url (s : t) : string :=
  if use_sqlite s then "sqlite:///" +:+ sqlite_path s
  else "postgresql://" +:+ postgres_user s +:+ ":" +:+ postgres_password s +:+
       "@" +:+ postgres_host s +:+ ":" +:+ pretty (postgres_port s) +:+
       "/" +:+ postgres_db s.
End ConnectionSettings.

(** [s.startswith(prefix)]. *)
Definition py_startswith (s prefix : string) : bool := String.prefix prefix s.

(** [s[n:]] for a non-negative [n]. *)
Definition py_slice_from (s : string) (n : nat) : string :=
  String.substring n (String.length s - n) s.

(** [Database._resolve_path]. *)
Definition _resolve_path (settings : ConnectionSettings.t) : string :=
  let url := ConnectionSettings.database_url settings in
  if py_startswith url "sqlite:///"
  then py_slice_from url (String.length "sqlite:///")
  else if py_startswith url "sqlite://"
  then py_slice_from url (String.length "sqlite://")
  else url.

(** ** Notions used in the statements *)

(** The public operations that write to the store. *)
Inductive operation :=
| CreateContact (contact : Contact.t)
| Transition (email client_id : string) (new_status : DispositionStatus.t)
    (reason : option string) (triggered_by : string) (campaign_id : option string)
| ProcessExpiredCooldowns
| ProcessStaleData (months : option Z)
| Fill (request : CampaignFillRequest.t).

Section Reachability.
Variable query_eligible_contacts :
  string -> Channel.t -> option (list string) -> Z -> list string -> datetime ->
  M (list Contact.t).
Variable settings : Settings.t.

(** The store an operation leaves behind when it is run at [now]. *)
Definition perform (op : operation) (now : datetime) (s : Store.t) : Store.t :=
  match op with
  | CreateContact contact => fst (Database.create_contact contact now s)
  | Transition email client_id new_status reason triggered_by campaign_id =>
      fst (StateMachine.transition settings email client_id new_status reason
             triggered_by campaign_id now s)
  | ProcessExpiredCooldowns => fst (StateMachine.process_expired_cooldowns settings now s)
  | ProcessStaleData months => fst (StateMachine.process_stale_data settings months now s)
  | Fill request =>
      fst (CampaignFillEngine.fill query_eligible_contacts settings request now s)
  end.

Inductive reachable : Store.t -> Prop :=
| reachable_empty : reachable Store.empty
| reachable_step s op now : reachable s -> reachable (perform op now s).
End Reachability.

(** The number of contacts of a domain that are in a sequence. *)
Definition contacts_in_sequence_at (domain : string) (s : Store.t) : Z :=
  Z.of_nat (length (filter (fun c =>
    Contact.company_domain c = domain ∧
    Contact.disposition_status c = DispositionStatus.IN_SEQUENCE) (Store.contacts s))).

(** Counter consistency: every company row counts its in-sequence contacts. *)
Definition counter_consistent (s : Store.t) : Prop :=
  ∀ co, co ∈ Store.companies s ->
    Company.contacts_in_sequence co = contacts_in_sequence_at (Company.domain co) s.

(** The primary key of [contacts]: no two rows share [(email, client_id)]. *)
Definition contacts_key_unique (s : Store.t) : Prop :=
  NoDup (map Contact.key (Store.contacts s)).

(** The foreign key of [contacts]: every contact row has a company row. *)
Definition companies_cover_contacts (s : Store.t) : Prop :=
  ∀ c, c ∈ Store.contacts s ->
    ∃ co, co ∈ Store.companies s ∧ Company.domain co = Contact.company_domain c.

Definition store_invariant (s : Store.t) : Prop :=
  contacts_key_unique s ∧ companies_cover_contacts s ∧ counter_consistent s.

(** The stores reached from the empty one by creating contacts that are not
    in a sequence and by transitions that are not same-state requests. *)
Inductive maintained (settings : Settings.t) : Store.t -> Prop :=
| maintained_empty : maintained settings Store.empty
| maintained_create contact now s :
    maintained settings s ->
    Contact.disposition_status contact ≠ DispositionStatus.IN_SEQUENCE ->
    maintained settings (fst (Database.create_contact contact now s))
| maintained_transition email client_id new_status reason triggered_by campaign_id now s :
    maintained settings s ->
    (∀ contact, Database.get_contact email client_id s = (s, Ok (Some contact)) ->
                new_status ≠ Contact.disposition_status contact) ->
    maintained settings
      (fst (StateMachine.transition settings email client_id new_status reason
              triggered_by campaign_id now s)).

(** The number of selected contacts that belong to a domain. *)
Definition domain_count (domain : string) (l : list Contact.t) : Z :=
  Z.of_nat (length (filter (fun c => Contact.company_domain c = domain) l)).

(** A computation preserves a property of the store when the store it
    leaves, whether it returns or raises, has the property whenever the store
    it was given has it. *)
Definition preserves {A} (P : Store.t -> Prop) (m : M A) : Prop :=
  ∀ s, P s -> P (fst (m s)).

(** A query that only reads. *)
Definition read_only
    (q : string -> Channel.t -> option (list string) -> Z -> list string -> datetime ->
         M (list Contact.t)) : Prop :=
  ∀ client_id channel title_keywords limit status_filter now s,
    fst (q client_id channel title_keywords limit status_filter now s) = s.

(** The integrity of the two main tables: the primary keys of [contacts] and
    [companies], the foreign key from a contact to its company, and the two
    derived counters of a company. *)
Definition tables_consistent (s : Store.t) : Prop :=
  contacts_key_unique s ∧
  NoDup (map Company.domain (Store.companies s)) ∧
  companies_cover_contacts s ∧
  ∀ co, co ∈ Store.companies s ->
    Company.contacts_total co = domain_count (Company.domain co) (Store.contacts s) ∧
    0 <= Company.contacts_in_sequence co.

(** The stores the operations of the package build, starting from the empty
    one and run at any instants, in any order and with any arguments;
    [update_contact_fields] is run on the columns of [Contact.field], which
    are the columns the package passes to it, and the fill engines are run
    with a query that only reads. *)
Inductive operated (settings : Settings.t) : Store.t -> Prop :=
| operated_empty : operated settings Store.empty
| operated_create_contact contact now s :
    operated settings s ->
    operated settings (fst (Database.create_contact contact now s))
| operated_bulk_create_contacts contacts now s :
    operated settings s ->
    operated settings (fst (Database.bulk_create_contacts contacts now s))
| operated_update_contact_fields email client_id fields now s :
    operated settings s ->
    operated settings (fst (Database.update_contact_fields email client_id fields now s))
| operated_transition email client_id new_status reason triggered_by campaign_id now s :
    operated settings s ->
    operated settings
      (fst (StateMachine.transition settings email client_id new_status reason
              triggered_by campaign_id now s))
| operated_expired_cooldowns now s :
    operated settings s ->
    operated settings (fst (StateMachine.process_expired_cooldowns settings now s))
| operated_stale_data months now s :
    operated settings s ->
    operated settings (fst (StateMachine.process_stale_data settings months now s))
| operated_claim domain client_id now s :
    operated settings s ->
    operated settings (fst (Deconfliction.claim_ownership settings domain client_id now s))
| operated_release domain now s :
    operated settings s ->
    operated settings (fst (Deconfliction.release_ownership domain now s))
| operated_transfer domain new_client_id now s :
    operated settings s ->
    operated settings
      (fst (Deconfliction.transfer_ownership settings domain new_client_id now s))
| operated_expired_ownerships now s :
    operated settings s ->
    operated settings (fst (Deconfliction.process_expired_ownerships now s))
| operated_write_back leads client_id now s :
    operated settings s ->
    operated settings (fst (WriteBack.write_back_leads leads client_id now s))
| operated_fill q request now s :
    read_only q ->
    operated settings s ->
    operated settings (fst (CampaignFillEngine.fill q settings request now s))
| operated_fill_campaign q providers request now s :
    read_only q ->
    operated settings s ->
    operated settings
      (fst (WaterfallEngine.fill_campaign q settings providers request now s)).

(** ** Concrete stores and requests *)

(** A store with one fresh contact, as [create_contact] builds it. *)
Definition one_fresh_contact : Store.t :=
  fst (Database.create_contact
         (Contact.mk "a@acme.com" "client_1" "acme.com" DispositionStatus.FRESH
            None None None None None false false false None 0 None)
         100 Store.empty).

(** Two clients hold contacts at [acme.com]; [a@acme.com] of [client_1] is in
    a sequence. *)
Definition acme_store : Store.t :=
  let fresh email client :=
    Contact.mk email client "acme.com" DispositionStatus.FRESH
      None None None None None false false false None 0 None in
  let s := fst (Database.create_contact (fresh "a@acme.com" "client_1") 100 Store.empty) in
  let s := fst (Database.create_contact (fresh "b@acme.com" "client_1") 100 s) in
  let s := fst (Database.create_contact (fresh "c@acme.com" "client_2") 100 s) in
  fst (StateMachine.transition Settings.default "a@acme.com" "client_1"
         DispositionStatus.IN_SEQUENCE None "campaign_fill" (Some "cmp_1") 200 s).

(** A query that tests the client and the status and honours a non-negative
    limit: one of the functions the fill engine can be run with. *)
Definition status_query (client_id : string) (channel : Channel.t)
    (title_keywords : option (list string)) (limit : Z) (status_filter : list string)
    (now : datetime) : M (list Contact.t) :=
  query (fun s =>
    take (Z.to_nat limit)
      (filter (fun c => Contact.client_id c = client_id ∧
                        DispositionStatus.value (Contact.disposition_status c)
                          ∈ status_filter)
         (Store.contacts s))).

(** Contacts of [client_1], inserted with the given status. *)
Definition contact_at (email domain : string) (status : DispositionStatus.t) : Contact.t :=
  Contact.mk email "client_1" domain status None None None None None
    false false false None 0 None.

Fixpoint store_of (contacts : list Contact.t) (s : Store.t) : Store.t :=
  match contacts with
  | [] => s
  | c :: rest => store_of rest (fst (Database.create_contact c 100 s))
  end.

(** Four fresh contacts of one company. *)
Definition bigco_store : Store.t :=
  store_of
    [contact_at "a@bigco.com" "bigco.com" DispositionStatus.FRESH;
     contact_at "b@bigco.com" "bigco.com" DispositionStatus.FRESH;
     contact_at "c@bigco.com" "bigco.com" DispositionStatus.FRESH;
     contact_at "d@bigco.com" "bigco.com" DispositionStatus.FRESH] Store.empty.


(** Two fresh and two retouch-eligible contacts, at four companies. *)
Definition blend_store : Store.t :=
  store_of
    [contact_at "f1@one.com" "one.com" DispositionStatus.FRESH;
     contact_at "f2@two.com" "two.com" DispositionStatus.FRESH;
     contact_at "r3@three.com" "three.com" DispositionStatus.RETOUCH_ELIGIBLE;
     contact_at "r4@four.com" "four.com" DispositionStatus.RETOUCH_ELIGIBLE]
    Store.empty.

Definition fill_request (volume : Z) (fresh_ratio : option Q)
    (max_per_company : option Z) : CampaignFillRequest.t :=
  CampaignFillRequest.mk "cmp_1" "client_1" Channel.EMAIL volume [] fresh_ratio
    max_per_company.

(** Two contacts; [a@acme.com] went through a sequence and completed it
    without a response at instant 300, so its cooldown ends at
    [300 + 90 * 86400]. *)
Definition cooldown_store : Store.t :=
  let s := store_of
    [contact_at "a@acme.com" "acme.com" DispositionStatus.FRESH;
     contact_at "b@beta.com" "beta.com" DispositionStatus.FRESH] Store.empty in
  let s := fst (StateMachine.transition Settings.default "a@acme.com" "client_1"
                  DispositionStatus.IN_SEQUENCE None "campaign_fill" (Some "cmp_1") 200 s) in
  fst (StateMachine.transition Settings.default "a@acme.com" "client_1"
         DispositionStatus.COMPLETED_NO_RESPONSE None "system" None 300 s).

(** Two adapters: the first to be asked raises, the second returns one
    lead. *)
Definition failing_provider : LeadProvider.t :=
  LeadProvider.mk "ai_ark" 1 (fun _ => Raised (Exception "timeout")).

Definition clay_provider : LeadProvider.t :=
  LeadProvider.mk "clay" 2
    (fun _ => Ok (ProviderResult.mk [ExternalLead.mk "N@New.com " None "clay"] 1 5%Q [])).

Definition waterfall_request : WaterfallFillRequest.t :=
  WaterfallFillRequest.mk "cmp_1" "client_1" Channel.EMAIL 3 [] [] None None true
    100%Q None None [] [] [] [].



(** A store whose one contact went through a sequence and replied
    positively. *)
Definition replied_positive_store : Store.t :=
  let s := fst (StateMachine.transition Settings.default "a@acme.com" "client_1"
                  DispositionStatus.IN_SEQUENCE None "campaign_fill" (Some "cmp_1") 200
                  one_fresh_contact) in
  fst (StateMachine.transition Settings.default "a@acme.com" "client_1"
         DispositionStatus.REPLIED_POSITIVE None "webhook" None 300 s).

(** A company owned by [client_1] since instant 50, for twelve months; and
    one whose ownership lapsed at instant 900, with no contact in sequence. *)
Definition zeta_owned_store : Store.t :=
  Store.mk []
    [Company.mk "zeta.io" CompanyStatus.ACTIVE false None None 1 1 1 (Some 50) false
       None (Some "client_1") (Some 50) (Some 31104050) (Some 50)] [] [] [].

Definition zeta_lapsed_store : Store.t :=
  Store.mk []
    [Company.mk "zeta.io" CompanyStatus.COOLING false None None 1 0 1 (Some 50) false
       None (Some "client_1") (Some 50) (Some 900) (Some 60)] [] [] [].

(** ** Proof automation *)

Ltac munfold :=
  unfold mbind, M_bind, mret, M_ret, bind, ret, raise, query, exec, try_except in *.

(** * Properties *)

(** ** The store monad *)

(** A computation returns: it leaves a store and a value, no exception. *)
Lemma bind_ok {A B} (m : M A) (k : A -> M B) s s1 a :
  m s = (s1, Ok a) -> (m ≫= k) s = k a s1.
Proof. intros H. munfold. now rewrite H. Qed.

(** ** Rows and keys *)

Lemma has_key_spec email client_id c :
  Database.has_key email client_id c = true <->
  Contact.key c = (email, client_id).
Proof.
  unfold Database.has_key, Contact.key. rewrite bool_decide_eq_true.
  split; [intros [-> ->]; reflexivity | intros [= -> ->]; auto].
Qed.

Lemma assign_key c f : Contact.key (Contact.assign c f) = Contact.key c.
Proof. destruct c, f; try reflexivity. destruct ch; reflexivity. Qed.

Lemma assign_domain c f :
  Contact.company_domain (Contact.assign c f) = Contact.company_domain c.
Proof. destruct c, f; try reflexivity. destruct ch; reflexivity. Qed.

Lemma foldl_assign_key fields c :
  Contact.key (foldl Contact.assign c fields) = Contact.key c.
Proof.
  revert c. induction fields as [|f fields IH]; intros c; simpl; [reflexivity|].
  rewrite IH. apply assign_key.
Qed.

Lemma foldl_assign_domain fields c :
  Contact.company_domain (foldl Contact.assign c fields) = Contact.company_domain c.
Proof.
  revert c. induction fields as [|f fields IH]; intros c; simpl; [reflexivity|].
  rewrite IH. apply assign_domain.
Qed.

Lemma contact_set_key fields now c :
  Contact.key (Database.contact_set fields now c) = Contact.key c.
Proof. unfold Database.contact_set. rewrite assign_key. apply foldl_assign_key. Qed.

Lemma contact_set_domain fields now c :
  Contact.company_domain (Database.contact_set fields now c) = Contact.company_domain c.
Proof. unfold Database.contact_set. rewrite assign_domain. apply foldl_assign_domain. Qed.

Lemma has_key_contact_set email client_id fields now c :
  Database.has_key email client_id (Database.contact_set fields now c) =
  Database.has_key email client_id c.
Proof.
  apply eq_true_iff_eq. rewrite !has_key_spec, contact_set_key. reflexivity.
Qed.

Lemma company_assign_domain co f : Company.domain (Company.assign co f) = Company.domain co.
Proof. destruct co, f; reflexivity. Qed.

Lemma company_set_domain fields now co :
  Company.domain (Database.company_set fields now co) = Company.domain co.
Proof.
  unfold Database.company_set. rewrite company_assign_domain.
  revert co. induction fields as [|f fields IH]; intros co; simpl; [reflexivity|].
  rewrite IH. apply company_assign_domain.
Qed.

Lemma has_domain_company_set domain fields now co :
  Database.has_domain domain (Database.company_set fields now co) =
  Database.has_domain domain co.
Proof. unfold Database.has_domain. now rewrite company_set_domain. Qed.

(** [find] through an [UPDATE] that keeps what the [WHERE] clause tests. *)
Lemma find_map_same {A} (p : A -> bool) (f : A -> A) (l : list A) :
  (∀ x, p (f x) = p x) ->
  List.find p (map (fun x => if p x then f x else x) l) = f <$> List.find p l.
Proof.
  intros Hp. induction l as [|x l IH]; simpl; [reflexivity|].
  destruct (p x) eqn:Hx.
  - rewrite Hp, Hx. reflexivity.
  - rewrite Hx. exact IH.
Qed.

Lemma find_map_other {A} (p q : A -> bool) (f : A -> A) (l : list A) :
  (∀ x, q (f x) = q x) ->
  (∀ x, p x = true -> q x = true -> False) ->
  List.find q (map (fun x => if p x then f x else x) l) = List.find q l.
Proof.
  intros Hq Hpq. induction l as [|x l IH]; simpl; [reflexivity|].
  destruct (p x) eqn:Hx.
  - rewrite Hq. destruct (q x) eqn:Hqx; [exfalso; eauto | exact IH].
  - destruct (q x); [reflexivity | exact IH].
Qed.

(** ** The state machine, step by step *)

Lemma validate_transition_run current target s :
  StateMachine._validate_transition current target s =
  if decide (current = target ∨ target ∈ StateMachine.TRANSITIONS current)
  then (s, Ok tt)
  else (s, Raised (TransitionError
         (StateMachine.illegal_transition_message current target
            (StateMachine.TRANSITIONS current)))).
Proof.
  unfold StateMachine._validate_transition.
  destruct (decide (current = target)) as [->|Hne].
  - rewrite decide_True by auto. reflexivity.
  - destruct (decide (target ∈ StateMachine.TRANSITIONS current)) as [Hin|Hnin].
    + rewrite decide_True by auto. reflexivity.
    + rewrite decide_False by tauto. reflexivity.
Qed.

(** The store after the contact update and the history insert of a
    transition. *)
Lemma transition_updates_nonempty settings new_status now :
  StateMachine.transition_updates settings new_status now ≠ [].
Proof. unfold StateMachine.transition_updates. simpl. discriminate. Qed.

Lemma update_contact_fields_run email client_id fields now s :
  fields ≠ [] ->
  ∃ r, Database.update_contact_fields email client_id fields now s =
    (Store.with_contacts
       (map (fun c => if Database.has_key email client_id c
                      then Database.contact_set fields now c else c)
            (Store.contacts s)) s, Ok r).
Proof.
  intros Hne. destruct fields as [|f fields]; [congruence|].
  unfold Database.update_contact_fields, Database.get_contact. munfold. eauto.
Qed.

Lemma update_company_fields_run domain fields now s :
  fields ≠ [] ->
  ∃ r, Database.update_company_fields domain fields now s =
    (Store.with_companies
       (map (fun co => if Database.has_domain domain co
                       then Database.company_set fields now co else co)
            (Store.companies s)) s, Ok r).
Proof.
  intros Hne. destruct fields as [|f fields]; [congruence|].
  unfold Database.update_company_fields, Database.get_company. munfold. eauto.
Qed.

(** [_update_company_state] always returns, and writes to [companies]
    only. *)
Lemma update_company_state_run domain old_status new_status now s :
  ∃ companies',
    StateMachine._update_company_state domain old_status new_status now s =
    (Store.with_companies companies' s, Ok tt).
Proof.
  unfold StateMachine._update_company_state.
  assert (Hseq : ∃ u, StateMachine.sequence_updates domain old_status new_status now s
                      = (s, Ok u)).
  { unfold StateMachine.sequence_updates, Database.get_company. munfold.
    repeat case_decide; try destruct (List.find _ _); eauto. }
  destruct Hseq as [u Hu]. rewrite (bind_ok _ _ _ _ _ Hu).
  match goal with |- context [match ?l with [] => _ | _ => _ end] => set (fs := l) end.
  destruct fs as [|f fs'] eqn:Hf.
  - exists (Store.companies s). destruct s; reflexivity.
  - destruct (update_company_fields_run domain (f :: fs') now s) as [r Hr];
      [discriminate|].
    rewrite (bind_ok _ _ _ _ _ Hr). eexists. reflexivity.
Qed.

(** [_suppress_company] always returns, and writes to [contacts] only. *)
Lemma suppress_loop_run l now s :
  ∃ contacts',
    StateMachine.suppress_loop l now s = (Store.with_contacts contacts' s, Ok tt).
Proof.
  revert s. induction l as [|c l IH]; intros s; cbn [StateMachine.suppress_loop].
  - exists (Store.contacts s). destruct s; reflexivity.
  - destruct (Contact.email_suppressed c).
    + munfold. apply IH.
    + destruct (update_contact_fields_run (Contact.email c) (Contact.client_id c)
        [Contact.email_suppressed_ true] now s) as [r Hr]; [discriminate|].
      munfold. rewrite Hr.
      destruct (IH (Store.with_contacts
        (map (fun c0 => if Database.has_key (Contact.email c) (Contact.client_id c) c0
                        then Database.contact_set [Contact.email_suppressed_ true] now c0
                        else c0) (Store.contacts s)) s)) as [cs Hcs].
      rewrite Hcs. exists cs. reflexivity.
Qed.

Lemma suppress_company_run domain now s :
  ∃ contacts',
    StateMachine._suppress_company domain now s = (Store.with_contacts contacts' s, Ok tt).
Proof.
  unfold StateMachine._suppress_company, Database.get_contacts_by_domain. munfold.
  apply suppress_loop_run.
Qed.

(** The store after the first two writes of a legal transition. *)
Lemma transition_run settings email client_id new_status reason triggered_by
    campaign_id now s :
  StateMachine.transition settings email client_id new_status reason triggered_by
    campaign_id now s =
  match List.find (Database.has_key email client_id) (Store.contacts s) with
  | None => (s, Raised (ValueError
               ("Contact not found: " +:+ email +:+ " / " +:+ client_id)))
  | Some contact =>
      let current := Contact.disposition_status contact in
      if decide (current = new_status ∨ new_status ∈ StateMachine.TRANSITIONS current)
      then
        let s1 :=
          Store.with_contacts
            (map (fun c => if Database.has_key email client_id c
                           then Database.contact_set
                                  (StateMachine.transition_updates settings new_status now)
                                  now c
                           else c) (Store.contacts s)) s in
        let s2 :=
          Store.with_disposition_history
            (Store.disposition_history s1 ++
               [DispositionHistory.mk email client_id (Some current) new_status reason
                  triggered_by campaign_id now]) s1 in
        match StateMachine._update_company_state (Contact.company_domain contact)
                current new_status now s2 with
        | (s3, Ok _) =>
            if decide (new_status = DispositionStatus.REPLIED_HARD_NO)
            then StateMachine._suppress_company (Contact.company_domain contact) now s3
            else (s3, Ok tt)
        | (s3, Raised e) => (s3, Raised e)
        end
      else (s, Raised (TransitionError
             (StateMachine.illegal_transition_message current new_status
                (StateMachine.TRANSITIONS current))))
  end.
Proof.
  unfold StateMachine.transition, Database.get_contact.
  unfold mbind at 1, M_bind at 1, bind at 1, query at 1.
  destruct (List.find _ _) as [contact|]; [|reflexivity].
  cbv zeta.
  unfold mbind at 1, M_bind at 1, bind at 1. rewrite validate_transition_run.
  case_decide; [|reflexivity].
  destruct (update_contact_fields_run email client_id
    (StateMachine.transition_updates settings new_status now) now s) as [r Hr];
    [apply transition_updates_nonempty|].
  unfold mbind at 1, M_bind at 1, bind at 1. rewrite Hr.
  unfold mbind at 1, M_bind at 1, bind at 1, Database.insert_history at 1, exec at 1.
  unfold mbind at 1, M_bind at 1, bind at 1.
  destruct (StateMachine._update_company_state _ _ _ _ _) as [s3 [[]|e]];
    [case_decide|]; reflexivity.
Qed.

(** A transition returns unless the contact is missing or the target is
    illegal. *)
Lemma transition_returns settings email client_id new_status reason triggered_by
    campaign_id now s contact :
  List.find (Database.has_key email client_id) (Store.contacts s) = Some contact ->
  Contact.disposition_status contact = new_status ∨
    new_status ∈ StateMachine.TRANSITIONS (Contact.disposition_status contact) ->
  ∃ s', StateMachine.transition settings email client_id new_status reason triggered_by
          campaign_id now s = (s', Ok tt).
Proof.
  intros Hfind Hlegal. rewrite transition_run, Hfind. cbv zeta.
  rewrite decide_True by exact Hlegal.
  match goal with |- context [StateMachine._update_company_state ?d ?o ?n ?t ?st] =>
    destruct (update_company_state_run d o n t st) as [cs Hcs]; rewrite Hcs end.
  case_decide.
  - match goal with |- context [StateMachine._suppress_company ?d ?t ?st] =>
      destruct (suppress_company_run d t st) as [cs' Hcs']; rewrite Hcs' end.
    eauto.
  - eauto.
Qed.

(** ** Illegal transitions (C3) *)



(** ** Same-state transitions (C2) and the in-sequence counter (C1) *)

(** What the code does on a same-state transition of an existing contact: it
    returns, and it appends a history row whose previous and new status are
    both the current one. *)
Lemma same_state_transition_history settings email client_id reason triggered_by
    campaign_id now s contact :
  Database.get_contact email client_id s = (s, Ok (Some contact)) ->
  ∃ s',
    StateMachine.transition settings email client_id
      (Contact.disposition_status contact) reason triggered_by campaign_id now s
    = (s', Ok tt) ∧
    Store.disposition_history s' =
    Store.disposition_history s ++
      [DispositionHistory.mk email client_id
         (Some (Contact.disposition_status contact))
         (Contact.disposition_status contact) reason triggered_by campaign_id now].
Proof.
  intros Hget.
  assert (Hfind : List.find (Database.has_key email client_id) (Store.contacts s)
                  = Some contact).
  { unfold Database.get_contact, query in Hget. congruence. }
  rewrite transition_run, Hfind. cbv zeta.
  rewrite decide_True by auto.
  match goal with |- context [StateMachine._update_company_state ?d ?o ?n ?t ?st] =>
    destruct (update_company_state_run d o n t st) as [cs Hcs]; rewrite Hcs end.
  case_decide.
  - match goal with |- context [StateMachine._suppress_company ?d ?t ?st] =>
      destruct (suppress_company_run d t st) as [cs' Hcs']; rewrite Hcs' end.
    eexists. split; reflexivity.
  - eexists. split; reflexivity.
Qed.

(** C2.  The code on a same-state request: the contact is [FRESH], the
    requested target is [FRESH]; the call returns and the history table, empty
    before, holds a row [FRESH -> FRESH] after. *)
Theorem same_state_transition_writes_history :
  let run := StateMachine.transition Settings.default "a@acme.com" "client_1"
               DispositionStatus.FRESH None "ui" None 200 one_fresh_contact in
  Store.disposition_history one_fresh_contact = [] ∧
  snd run = Ok tt ∧
  Store.disposition_history (fst run) =
    [DispositionHistory.mk "a@acme.com" "client_1" (Some DispositionStatus.FRESH)
       DispositionStatus.FRESH None "ui" None 200].
Proof. vm_compute. auto. Qed.

(** C1.  A store reached by creating one fresh contact and asking twice for
    [IN_SEQUENCE]: the company counter is 2 while one contact of the domain is
    in a sequence. *)
Theorem counter_drifts_on_repeated_in_sequence q :
  let to_sequence :=
    Transition "a@acme.com" "client_1" DispositionStatus.IN_SEQUENCE None "ui" None in
  let create :=
    CreateContact
      (Contact.mk "a@acme.com" "client_1" "acme.com" DispositionStatus.FRESH
         None None None None None false false false None 0 None) in
  let s := perform q Settings.default to_sequence 300
             (perform q Settings.default to_sequence 200
                (perform q Settings.default create 100 Store.empty)) in
  reachable q Settings.default s ∧
  (Company.contacts_in_sequence <$> Store.companies s) = [2] ∧
  contacts_in_sequence_at "acme.com" s = 1 ∧
  ¬ counter_consistent s.
Proof.
  intros to_sequence create s.
  split; [repeat apply reachable_step; apply reachable_empty|].
  split; [vm_compute; reflexivity|].
  split; [vm_compute; reflexivity|].
  intros Hc.
  assert (Hco : ∃ co, co ∈ Store.companies s ∧ Company.domain co = "acme.com" ∧
                      Company.contacts_in_sequence co = 2).
  { eexists. split; [|split].
    - vm_compute. apply list_elem_of_here.
    - reflexivity.
    - reflexivity. }
  destruct Hco as (co & Hin & Hd & Hn).
  specialize (Hc co Hin). rewrite Hd, Hn in Hc.
  vm_compute in Hc. discriminate.
Qed.

(** ** Ownership claims (C10) *)

(** C10.  When the company of [domain] is owned by [client_id],
    [claim_ownership domain client_id] returns [True]; afterwards the company
    is still owned by [client_id], [client_owned_at] is [now],
    [ownership_expires_at] is [now] plus [ownership_duration_months * 30] days,
    and the ownership log has one more row, with reason [first_claim] and that
    client as previous and as new owner.  When the window in place was opened
    at an instant not after [now], with the same duration, the new expiry is
    not before the old one. *)
Theorem claim_by_owner_renews settings domain client_id now s company :
  Database.get_company domain s = (s, Ok (Some company)) ->
  Company.client_owner_id company = Some client_id ->
  ∃ s' company',
    Deconfliction.claim_ownership settings domain client_id now s = (s', Ok true) ∧
    Database.get_company domain s' = (s', Ok (Some company')) ∧
    Company.client_owner_id company' = Some client_id ∧
    Company.client_owned_at company' = Some now ∧
    Company.ownership_expires_at company' =
      Some (now + timedelta_days (Settings.ownership_duration_months settings * 30)) ∧
    Store.client_ownership s' =
      Store.client_ownership s ++
        [OwnershipChange.mk domain (Some client_id) (Some client_id) "first_claim" now] ∧
    (∀ since,
       Company.client_owned_at company = Some since ->
       Company.ownership_expires_at company =
         Some (since + timedelta_days (Settings.ownership_duration_months settings * 30)) ->
       since <= now ->
       ∃ old new,
         Company.ownership_expires_at company = Some old ∧
         Company.ownership_expires_at company' = Some new ∧ old <= new).
Proof.
  intros Hget Hown.
  assert (Hfind : List.find (Database.has_domain domain) (Store.companies s)
                  = Some company).
  { unfold Database.get_company, query in Hget. congruence. }
  unfold Deconfliction.claim_ownership.
  rewrite (bind_ok _ _ _ _ _ Hget). rewrite Hown.
  rewrite bool_decide_eq_false_2 by auto.
  destruct (update_company_fields_run domain
    (Deconfliction.ownership_fields settings client_id now) now s) as [r Hr];
    [discriminate|].
  rewrite (bind_ok _ _ _ _ _ Hr).
  unfold Database.insert_ownership_change.
  eexists. exists (Database.company_set
    (Deconfliction.ownership_fields settings client_id now) now company).
  split; [munfold; reflexivity|].
  split.
  - unfold Database.get_company, query. simpl.
    rewrite find_map_same by (intros; apply has_domain_company_set).
    rewrite Hfind. reflexivity.
  - destruct company. simpl in *. repeat split.
    intros since _ Hexp Hle. eexists _, _.
    split; [exact Hexp|]. split; [reflexivity|lia].
Qed.

(** A company owned by [client_1] since instant 50. *)
Lemma claim_by_owner_renews_witness :
  let s := Store.mk []
    [Company.mk "zeta.io" CompanyStatus.ACTIVE false None None 1 1 1 (Some 50) false
       None (Some "client_1") (Some 50) (Some 31104050) (Some 50)] [] [] [] in
  ∃ s' company',
    Deconfliction.claim_ownership Settings.default "zeta.io" "client_1" 1000 s
      = (s', Ok true) ∧
    Database.get_company "zeta.io" s' = (s', Ok (Some company')) ∧
    Company.client_owner_id company' = Some "client_1" ∧
    Company.client_owned_at company' = Some 1000 ∧
    Company.ownership_expires_at company' =
      Some (1000 + timedelta_days (Settings.ownership_duration_months Settings.default * 30)) ∧
    Store.client_ownership s' =
      Store.client_ownership s ++
        [OwnershipChange.mk "zeta.io" (Some "client_1") (Some "client_1")
           "first_claim" 1000] ∧
    ∃ old new,
      Some 31104050 = Some old ∧
      Company.ownership_expires_at company' = Some new ∧ old <= new.
Proof.
  intros s.
  destruct (claim_by_owner_renews Settings.default "zeta.io" "client_1" 1000 s
              (Company.mk "zeta.io" CompanyStatus.ACTIVE false None None 1 1 1 (Some 50)
                 false None (Some "client_1") (Some 50) (Some 31104050) (Some 50))
              eq_refl eq_refl)
    as (s' & company' & Hrun & Hget & Hown & Hat & Hexp & Hlog & Hext).
  exists s', company'. repeat (split; [assumption|]).
  apply (Hext 50); [reflexivity|reflexivity|lia].
Defined.

(** ** TAM health (C7) *)

Lemma Qlt_bool_iff x y : Qlt_bool x y = true <-> (x < y)%Q.
Proof.
  unfold Qlt_bool. rewrite negb_true_iff, <- not_true_iff_false, Qle_bool_iff.
  split; [apply Qnot_le_lt | apply Qlt_not_le].
Qed.

Lemma health_status_cases settings eta :
  let critical := inject_Z (Settings.tam_critical_weeks settings) in
  let warning := inject_Z (Settings.tam_warning_weeks settings) in
  let status := TAMTracker.health_status_of settings eta in
  (status = "critical" <-> ∃ e, eta = Some e ∧ (e < critical)%Q) ∧
  (status = "warning" <-> ∃ e, eta = Some e ∧ (critical <= e)%Q ∧ (e < warning)%Q) ∧
  (status = "healthy" <->
     ¬ (∃ e, eta = Some e ∧ (e < critical)%Q) ∧
     ¬ (∃ e, eta = Some e ∧ (critical <= e)%Q ∧ (e < warning)%Q)).
Proof.
  cbv zeta. unfold TAMTracker.health_status_of.
  destruct eta as [e|].
  - destruct (Qlt_bool e (inject_Z (Settings.tam_critical_weeks settings))) eqn:Hc.
    + apply Qlt_bool_iff in Hc.
      split; [|split].
      * split; [eauto|reflexivity].
      * split; [discriminate|].
        intros (e' & [= <-] & Hle & _). exfalso. eapply Qlt_not_le; eauto.
      * split; [discriminate|]. intros [H _]. exfalso. apply H. eauto.
    + assert (Hge : (inject_Z (Settings.tam_critical_weeks settings) <= e)%Q).
      { apply Qnot_lt_le. intros H. apply Qlt_bool_iff in H. congruence. }
      assert (Hnc : ¬ (e < inject_Z (Settings.tam_critical_weeks settings))%Q).
      { intros H. apply Qlt_bool_iff in H. congruence. }
      destruct (Qlt_bool e (inject_Z (Settings.tam_warning_weeks settings))) eqn:Hw.
      * apply Qlt_bool_iff in Hw.
        split; [|split].
        -- split; [discriminate|]. intros (e' & [= <-] & H). tauto.
        -- split; [eauto|reflexivity].
        -- split; [discriminate|]. intros [_ H]. exfalso. apply H. eauto.
      * assert (Hnw : ¬ (e < inject_Z (Settings.tam_warning_weeks settings))%Q).
        { intros H. apply Qlt_bool_iff in H. congruence. }
        split; [|split].
        -- split; [discriminate|]. intros (e' & [= <-] & H). tauto.
        -- split; [discriminate|]. intros (e' & [= <-] & _ & H). tauto.
        -- split; [|reflexivity]. intros _.
           split; [intros (e' & [= <-] & H) | intros (e' & [= <-] & _ & H)]; tauto.
  - split; [|split].
    + split; [discriminate|]. intros (e' & [=] & _).
    + split; [discriminate|]. intros (e' & [=] & _).
    + split; [|reflexivity]. intros _.
      split; [intros (e' & [=] & _) | intros (e' & [=] & _)].
Qed.

(** C7.  [get_health] returns a record whose [exhaustion_eta_weeks] is
    [available_now / burn_rate_weekly] when the burn rate is positive and null
    otherwise, and whose [health_status] is "critical" exactly when the ETA
    is below [tam_critical_weeks], "warning" exactly when it is at least
    [tam_critical_weeks] and below [tam_warning_weeks], and "healthy"
    otherwise, in particular whenever the ETA is null. *)
Theorem tam_health_classification settings client_id now s :
  ∃ h,
    TAMTracker.get_health settings client_id now s = (s, Ok h) ∧
    let eta := TAMHealth.exhaustion_eta_weeks h in
    let burn := TAMHealth.burn_rate_weekly h in
    let critical := inject_Z (Settings.tam_critical_weeks settings) in
    let warning := inject_Z (Settings.tam_warning_weeks settings) in
    Database.get_burn_rate client_id now s = (s, Ok burn) ∧
    (∃ pools, Database.get_tam_pools client_id now s = (s, Ok pools) ∧
              TAMHealth.available_now h = Database.available_now pools) ∧
    ((0 < burn)%Q -> eta = Some (inject_Z (TAMHealth.available_now h) / burn)%Q) ∧
    (¬ (0 < burn)%Q -> eta = None) ∧
    (TAMHealth.health_status h = "critical" <-> ∃ e, eta = Some e ∧ (e < critical)%Q) ∧
    (TAMHealth.health_status h = "warning" <->
       ∃ e, eta = Some e ∧ (critical <= e)%Q ∧ (e < warning)%Q) ∧
    (TAMHealth.health_status h = "healthy" <->
       ¬ (∃ e, eta = Some e ∧ (e < critical)%Q) ∧
       ¬ (∃ e, eta = Some e ∧ (critical <= e)%Q ∧ (e < warning)%Q)) ∧
    (eta = None -> TAMHealth.health_status h = "healthy").
Proof.
  unfold TAMTracker.get_health, Database.get_tam_pools, Database.get_burn_rate.
  munfold. eexists. split; [reflexivity|].
  cbv zeta. cbn [TAMHealth.exhaustion_eta_weeks TAMHealth.burn_rate_weekly
                 TAMHealth.health_status TAMHealth.available_now].
  split; [reflexivity|].
  split; [eexists; split; reflexivity|].
  match goal with |- context [TAMTracker.eta_of ?a ?b] =>
    set (avail := a); set (burn := b) end.
  split; [|split].
  - intros Hb. unfold TAMTracker.eta_of.
    apply Qlt_bool_iff in Hb. rewrite Hb. reflexivity.
  - intros Hb. unfold TAMTracker.eta_of.
    destruct (Qlt_bool 0 burn) eqn:E; [|reflexivity].
    apply Qlt_bool_iff in E. tauto.
  - destruct (health_status_cases settings (TAMTracker.eta_of avail burn))
      as (Hc & Hw & Hh).
    split; [exact Hc|]. split; [exact Hw|]. split; [exact Hh|].
    intros ->. reflexivity.
Qed.

(** ** The hard-no cascade (C6) *)

Lemma existsb_pointwise {A} (f g : A -> bool) (l : list A) :
  (∀ x, f x = g x) -> existsb f l = existsb g l.
Proof. intros H. induction l as [|x l IH]; simpl; [reflexivity|]. now rewrite H, IH. Qed.

(** The rows [suppress_loop] rewrites: those whose key is the key of a row
    of the list that was read as not suppressed. *)
Lemma suppress_loop_contacts l now s :
  StateMachine.suppress_loop l now s =
  (Store.with_contacts
     (map (fun r =>
        if existsb (fun c => negb (Contact.email_suppressed c) &&
                             Database.has_key (Contact.email c) (Contact.client_id c) r) l
        then Database.contact_set [Contact.email_suppressed_ true] now r
        else r) (Store.contacts s)) s, Ok tt).
Proof.
  revert s. induction l as [|c l IH]; intros s; cbn [StateMachine.suppress_loop existsb].
  - rewrite map_id. destruct s; reflexivity.
  - destruct (Contact.email_suppressed c) eqn:Hsup.
    + munfold. rewrite IH. reflexivity.
    + destruct (update_contact_fields_run (Contact.email c) (Contact.client_id c)
        [Contact.email_suppressed_ true] now s) as [r Hr]; [discriminate|].
      munfold. rewrite Hr, IH. f_equal.
      destruct s as [cs ? ? ? ?]. unfold Store.with_contacts. simpl. f_equal.
      rewrite map_map. apply map_ext. intros r0.
      destruct (Database.has_key (Contact.email c) (Contact.client_id c) r0) eqn:Hk.
      * simpl.
        assert (Hex : ∀ x, existsb (fun c0 => negb (Contact.email_suppressed c0) &&
                    Database.has_key (Contact.email c0) (Contact.client_id c0)
                      (Database.contact_set [Contact.email_suppressed_ true] now x)) l
                 = existsb (fun c0 => negb (Contact.email_suppressed c0) &&
                    Database.has_key (Contact.email c0) (Contact.client_id c0) x) l).
        { intros x. apply existsb_pointwise. intros c0. now rewrite has_key_contact_set. }
        rewrite Hex.
        destruct (existsb _ l); [destruct r0|]; reflexivity.
      * simpl. reflexivity.
Qed.

Lemma contact_set_suppressed now r :
  Contact.email_suppressed
    (Database.contact_set [Contact.email_suppressed_ true] now r) = true.
Proof. destruct r; reflexivity. Qed.

(** After [_suppress_company], every contact of the domain is suppressed on
    email. *)
Lemma suppress_company_all domain now s s' :
  StateMachine._suppress_company domain now s = (s', Ok tt) ->
  Store.companies s' = Store.companies s ∧
  ∀ c, c ∈ Store.contacts s' -> Contact.company_domain c = domain ->
       Contact.email_suppressed c = true.
Proof.
  unfold StateMachine._suppress_company, Database.get_contacts_by_domain.
  munfold. rewrite suppress_loop_contacts. intros [= <-].
  split; [destruct s; reflexivity|].
  intros c Hin Hd. destruct s as [cs ? ? ? ?]. simpl in Hin.
  apply list_elem_of_fmap in Hin as (r & -> & Hr).
  match goal with |- context [existsb ?f ?l] => destruct (existsb f l) eqn:Hex end.
  - apply contact_set_suppressed.
  - destruct (Contact.email_suppressed r) eqn:Hsup; [reflexivity|].
    exfalso. apply not_true_iff_false in Hex. apply Hex.
    apply existsb_exists. exists r. split.
    + apply list_elem_of_In, list_elem_of_filter. auto.
    + rewrite Hsup. simpl. apply has_key_spec. reflexivity.
Qed.

(** The company columns a hard no writes last. *)
Lemma company_set_hard_no prefix now co :
  let co' :=
    Database.company_set
      (prefix ++ [Company.company_status_ CompanyStatus.SUPPRESSED;
                  Company.company_suppressed_ true;
                  Company.suppressed_reason_ "hard_no_received";
                  Company.suppressed_at_ now]) now co in
  Company.company_suppressed co' = true ∧
  Company.company_status co' = CompanyStatus.SUPPRESSED.
Proof.
  cbv zeta. unfold Database.company_set. rewrite foldl_app.
  destruct (foldl Company.assign co prefix). simpl. auto.
Qed.

(** [_update_company_state] for a hard no: every row of the domain is
    rewritten with a dictionary that ends with the suppression columns. *)
Lemma update_company_state_hard_no domain old_status now s :
  ∃ prefix,
    StateMachine._update_company_state domain old_status
      DispositionStatus.REPLIED_HARD_NO now s =
    (Store.with_companies
       (map (fun co =>
          if Database.has_domain domain co
          then Database.company_set
                 (prefix ++ [Company.company_status_ CompanyStatus.SUPPRESSED;
                             Company.company_suppressed_ true;
                             Company.suppressed_reason_ "hard_no_received";
                             Company.suppressed_at_ now]) now co
          else co) (Store.companies s)) s, Ok tt).
Proof.
  unfold StateMachine._update_company_state.
  assert (Hseq : ∃ u, StateMachine.sequence_updates domain old_status
                        DispositionStatus.REPLIED_HARD_NO now s = (s, Ok u)).
  { unfold StateMachine.sequence_updates, Database.get_company. munfold.
    repeat case_decide; try destruct (List.find _ _); eauto. }
  destruct Hseq as [u Hu]. rewrite (bind_ok _ _ _ _ _ Hu).
  rewrite decide_False by discriminate. rewrite decide_True by reflexivity.
  rewrite app_nil_r.
  exists u.
  destruct (update_company_fields_run domain
    (u ++ [Company.company_status_ CompanyStatus.SUPPRESSED;
           Company.company_suppressed_ true;
           Company.suppressed_reason_ "hard_no_received";
           Company.suppressed_at_ now]) now s) as [r Hr].
  { destruct u; discriminate. }
  destruct (u ++ _) eqn:Hfields; [destruct u; discriminate|].
  rewrite (bind_ok _ _ _ _ _ Hr). reflexivity.
Qed.

(** C6.  After a successful transition of a contact to [REPLIED_HARD_NO], the
    company of the contact has [company_suppressed] set and status
    [SUPPRESSED], and every contact row of that company domain, whatever its
    client, has [email_suppressed] set. *)
Theorem hard_no_suppresses_company settings email client_id reason triggered_by
    campaign_id now s s' contact company :
  Database.get_contact email client_id s = (s, Ok (Some contact)) ->
  Database.get_company (Contact.company_domain contact) s = (s, Ok (Some company)) ->
  StateMachine.transition settings email client_id DispositionStatus.REPLIED_HARD_NO
    reason triggered_by campaign_id now s = (s', Ok tt) ->
  (∃ company',
     Database.get_company (Contact.company_domain contact) s' = (s', Ok (Some company')) ∧
     Company.company_suppressed company' = true ∧
     Company.company_status company' = CompanyStatus.SUPPRESSED) ∧
  (∀ c, c ∈ Store.contacts s' ->
        Contact.company_domain c = Contact.company_domain contact ->
        Contact.email_suppressed c = true).
Proof.
  intros Hget Hco Hrun.
  assert (Hfind : List.find (Database.has_key email client_id) (Store.contacts s)
                  = Some contact).
  { unfold Database.get_contact, query in Hget. congruence. }
  assert (Hfindco : List.find (Database.has_domain (Contact.company_domain contact))
                      (Store.companies s) = Some company).
  { unfold Database.get_company, query in Hco. congruence. }
  rewrite transition_run, Hfind in Hrun. cbv zeta in Hrun.
  case_decide; [|discriminate].
  match type of Hrun with context [StateMachine._update_company_state ?d ?o ?n ?t ?st] =>
    destruct (update_company_state_hard_no d o t st) as [prefix Hcs];
    rewrite Hcs in Hrun end.
  rewrite decide_True in Hrun by reflexivity.
  apply suppress_company_all in Hrun as [Hcompanies Hcontacts].
  split; [|exact Hcontacts].
  eexists. split; [|apply company_set_hard_no].
  unfold Database.get_company, query. rewrite Hcompanies. simpl.
  rewrite find_map_same by (intros; apply has_domain_company_set).
  rewrite Hfindco. reflexivity.
Qed.

(** The cascade on [acme_store]: a hard no from [a@acme.com]. *)
Lemma hard_no_suppresses_company_witness :
  let s' := fst (StateMachine.transition Settings.default "a@acme.com" "client_1"
                   DispositionStatus.REPLIED_HARD_NO None "ui" None 300 acme_store) in
  (∃ company',
     Database.get_company "acme.com" s' = (s', Ok (Some company')) ∧
     Company.company_suppressed company' = true ∧
     Company.company_status company' = CompanyStatus.SUPPRESSED) ∧
  (∀ c, c ∈ Store.contacts s' ->
        Contact.company_domain c = "acme.com" ->
        Contact.email_suppressed c = true).
Proof.
  intros s'.
  eapply (hard_no_suppresses_company Settings.default "a@acme.com" "client_1"
            None "ui" None 300 acme_store s'
            (Contact.mk "a@acme.com" "client_1" "acme.com" DispositionStatus.IN_SEQUENCE
               (Some 200) None None None None false false false None 0 (Some 200))).
  - vm_compute. reflexivity.
  - vm_compute. reflexivity.
  - vm_compute. reflexivity.
Defined.

(** ** The expired-cooldown sweep (C9) *)

(** A transition to a status other than the hard no rewrites the contact
    rows of one key and no other. *)
Lemma transition_contacts settings email client_id new_status reason triggered_by
    campaign_id now s contact :
  List.find (Database.has_key email client_id) (Store.contacts s) = Some contact ->
  Contact.disposition_status contact = new_status ∨
    new_status ∈ StateMachine.TRANSITIONS (Contact.disposition_status contact) ->
  new_status ≠ DispositionStatus.REPLIED_HARD_NO ->
  ∃ s', StateMachine.transition settings email client_id new_status reason triggered_by
          campaign_id now s = (s', Ok tt) ∧
        Store.contacts s' =
          map (fun c => if Database.has_key email client_id c
                        then Database.contact_set
                               (StateMachine.transition_updates settings new_status now)
                               now c
                        else c) (Store.contacts s).
Proof.
  intros Hfind Hlegal Hne. rewrite transition_run, Hfind. cbv zeta.
  rewrite decide_True by exact Hlegal.
  match goal with |- context [StateMachine._update_company_state ?d ?o ?n ?t ?st] =>
    destruct (update_company_state_run d o n t st) as [cs Hcs]; rewrite Hcs end.
  rewrite decide_False by exact Hne.
  eexists. split; reflexivity.
Qed.

Lemma retouch_legal_after_cooldown status :
  status ∈ Database.cooldown_statuses ->
  DispositionStatus.RETOUCH_ELIGIBLE ∈ StateMachine.TRANSITIONS status.
Proof.
  intros H.
  destruct status;
    first [ compute_done | exfalso; revert H; compute_done ].
Qed.

Lemma find_by_key_unique (l : list Contact.t) c :
  NoDup (map Contact.key l) -> c ∈ l ->
  List.find (Database.has_key (Contact.email c) (Contact.client_id c)) l = Some c.
Proof.
  induction l as [|x l IH]; intros Hnd Hin; [inversion Hin|].
  simpl in Hnd. apply NoDup_cons in Hnd as [Hx Hnd].
  simpl. destruct (Database.has_key (Contact.email c) (Contact.client_id c) x) eqn:Hk.
  - apply has_key_spec in Hk. apply elem_of_cons in Hin as [->|Hin]; [reflexivity|].
    exfalso. apply Hx. rewrite Hk. apply (list_elem_of_fmap_2 Contact.key) in Hin.
    exact Hin.
  - apply elem_of_cons in Hin as [->|Hin]; [|auto].
    exfalso. apply not_true_iff_false in Hk. apply Hk. apply has_key_spec. reflexivity.
Qed.

Lemma NoDup_keys_filter (P : Contact.t -> Prop) `{∀ c, Decision (P c)}
    (l : list Contact.t) :
  NoDup (map Contact.key l) -> NoDup (map Contact.key (filter P l)).
Proof.
  induction l as [|x l IH]; intros Hnd; [constructor|].
  simpl in Hnd. apply NoDup_cons in Hnd as [Hx Hnd].
  rewrite filter_cons. case_decide; [|auto].
  simpl. apply NoDup_cons. split; [|auto].
  intros Hin. apply Hx.
  apply list_elem_of_fmap in Hin as (y & Hy & Hin).
  apply list_elem_of_filter in Hin as [_ Hin].
  rewrite Hy. apply (list_elem_of_fmap_2 Contact.key). exact Hin.
Qed.

(** The loop of the sweep over rows with pairwise distinct keys, each of
    which the store holds in a cooldown status: every transition returns, so
    every row is counted. *)
Lemma sweep_loop_counts_all settings now l s count :
  NoDup (map Contact.key l) ->
  (∀ c, c ∈ l ->
     ∃ r, List.find (Database.has_key (Contact.email c) (Contact.client_id c))
            (Store.contacts s) = Some r ∧
          Contact.disposition_status r ∈ Database.cooldown_statuses) ->
  ∃ s', StateMachine.sweep_loop settings DispositionStatus.RETOUCH_ELIGIBLE
          "cooldown_expired" now l count s = (s', Ok (count + Z.of_nat (length l))).
Proof.
  revert s count. induction l as [|c l IH]; intros s count Hnd Hrows.
  - simpl. munfold. exists s. do 2 f_equal. lia.
  - simpl in Hnd. apply NoDup_cons in Hnd as [Hc Hnd].
    destruct (Hrows c) as (r & Hfind & Hst); [apply list_elem_of_here|].
    destruct (transition_contacts settings (Contact.email c) (Contact.client_id c)
      DispositionStatus.RETOUCH_ELIGIBLE (Some "cooldown_expired") "system" None now s r
      Hfind (or_intror (retouch_legal_after_cooldown _ Hst))) as (s1 & Hrun & Hcontacts);
      [discriminate|].
    cbn [StateMachine.sweep_loop].
    assert (Htry : try_except
      (StateMachine.transition settings (Contact.email c) (Contact.client_id c)
         DispositionStatus.RETOUCH_ELIGIBLE (Some "cooldown_expired") "system" None now;;
       mret (count + 1))
      (StateMachine.swallow_transition_error (mret count)) s = (s1, Ok (count + 1))).
    { unfold try_except. rewrite (bind_ok _ _ _ _ _ Hrun). reflexivity. }
    rewrite (bind_ok _ _ _ _ _ Htry).
    destruct (IH s1 (count + 1) Hnd) as [s' Hs'].
    + intros c' Hin. destruct (Hrows c') as (r' & Hfind' & Hst');
        [apply list_elem_of_further; exact Hin|].
      exists r'. split; [|exact Hst'].
      rewrite Hcontacts. rewrite find_map_other; [exact Hfind'| |].
      * intros x. apply has_key_contact_set.
      * intros x Hx Hx'. apply has_key_spec in Hx, Hx'.
        apply Hc.
        replace (Contact.key c) with (Contact.key c')
          by (unfold Contact.key in *; congruence).
        apply (list_elem_of_fmap_2 Contact.key). exact Hin.
    + exists s'. rewrite Hs'. do 2 f_equal. rewrite length_cons. lia.
Qed.

(** C9.  On a store whose contact rows have pairwise distinct keys, the rows
    [get_expired_cooldowns] selects all have one of the four cooldown
    statuses, [RETOUCH_ELIGIBLE] is a legal target from each of them, and
    [process_expired_cooldowns] returns the number of selected rows: no
    transition of the sweep raises. *)
Theorem expired_cooldown_sweep_counts_all settings now s :
  contacts_key_unique s ->
  let selected := filter (Database.expired_cooldown now) (Store.contacts s) in
  Database.get_expired_cooldowns now s = (s, Ok selected) ∧
  (∀ c, c ∈ selected ->
        Contact.disposition_status c ∈ Database.cooldown_statuses) ∧
  (∀ status, status ∈ Database.cooldown_statuses ->
        DispositionStatus.RETOUCH_ELIGIBLE ∈ StateMachine.TRANSITIONS status) ∧
  ∃ s', StateMachine.process_expired_cooldowns settings now s =
        (s', Ok (Z.of_nat (length selected))).
Proof.
  intros Hnd selected.
  assert (Hsel : ∀ c, c ∈ selected ->
            c ∈ Store.contacts s ∧
            Contact.disposition_status c ∈ Database.cooldown_statuses).
  { intros c Hin. apply list_elem_of_filter in Hin as [[Hst _] Hin]. auto. }
  split; [reflexivity|].
  split; [intros c Hin; apply Hsel; exact Hin|].
  split; [apply retouch_legal_after_cooldown|].
  unfold StateMachine.process_expired_cooldowns.
  assert (Hq : Database.get_expired_cooldowns now s = (s, Ok selected)) by reflexivity.
  rewrite (bind_ok _ _ _ _ _ Hq).
  destruct (sweep_loop_counts_all settings now selected s 0) as [s' Hs'].
  - apply NoDup_keys_filter. exact Hnd.
  - intros c Hin. destruct (Hsel c Hin) as [Hc Hst].
    exists c. split; [|exact Hst]. apply find_by_key_unique; assumption.
  - exists s'. rewrite Hs'. reflexivity.
Qed.

(** The sweep on [cooldown_store], run after the cooldown has ended. *)
Lemma expired_cooldown_sweep_counts_all_witness :
  let selected :=
    filter (Database.expired_cooldown 8000000) (Store.contacts cooldown_store) in
  Database.get_expired_cooldowns 8000000 cooldown_store = (cooldown_store, Ok selected) ∧
  (∀ c, c ∈ selected ->
        Contact.disposition_status c ∈ Database.cooldown_statuses) ∧
  (∀ status, status ∈ Database.cooldown_statuses ->
        DispositionStatus.RETOUCH_ELIGIBLE ∈ StateMachine.TRANSITIONS status) ∧
  ∃ s', StateMachine.process_expired_cooldowns Settings.default 8000000 cooldown_store =
        (s', Ok (Z.of_nat (length selected))).
Proof.
  apply (expired_cooldown_sweep_counts_all Settings.default 8000000 cooldown_store).
  unfold contacts_key_unique. apply (bool_decide_unpack _). vm_compute. exact I.
Defined.

(** Scenario: the sweep moves the one expired contact to
    [RETOUCH_ELIGIBLE] and reports one. *)
Example sweep_after_cooldown :
  let run := StateMachine.process_expired_cooldowns Settings.default 8000000
               cooldown_store in
  snd run = Ok 1 ∧
  (Contact.disposition_status <$> Store.contacts (fst run)) =
    [DispositionStatus.RETOUCH_ELIGIBLE; DispositionStatus.FRESH].
Proof. vm_compute. auto. Qed.

(** ** The per-company cap (C5) *)

Lemma domain_count_nil domain : domain_count domain [] = 0.
Proof. reflexivity. Qed.

Lemma domain_count_cons domain c l :
  domain_count domain (c :: l) =
  (if decide (Contact.company_domain c = domain) then 1 else 0) + domain_count domain l.
Proof.
  unfold domain_count. rewrite filter_cons.
  case_decide; [rewrite length_cons|]; lia.
Qed.

Lemma domain_count_app domain l1 l2 :
  domain_count domain (l1 ++ l2) = domain_count domain l1 + domain_count domain l2.
Proof. unfold domain_count. rewrite filter_app, length_app. lia. Qed.

Lemma domain_count_sublist domain l1 l2 :
  l1 `sublist_of` l2 -> domain_count domain l1 <= domain_count domain l2.
Proof.
  induction 1 as [|x l1 l2 _ IH|x l1 l2 _ IH].
  - lia.
  - rewrite !domain_count_cons. lia.
  - rewrite domain_count_cons. case_decide; lia.
Qed.

(** The result variable of [_apply_company_cap] only grows at its end. *)
Lemma cap_loop_result contacts max_per_company counts result :
  CampaignFillEngine.cap_loop contacts max_per_company counts result =
  result ++ CampaignFillEngine.cap_loop contacts max_per_company counts [].
Proof.
  revert counts result. induction contacts as [|c l IH]; intros counts result; simpl.
  - now rewrite app_nil_r.
  - destruct (_ <? _).
    + rewrite IH. rewrite (IH _ [c]). now rewrite <- app_assoc.
    + apply IH.
Qed.

Lemma counts_get_insert counts domain n domain' :
  CampaignFillEngine.counts_get (<[domain := n]> counts) domain' =
  if decide (domain = domain') then n else CampaignFillEngine.counts_get counts domain'.
Proof.
  unfold CampaignFillEngine.counts_get. rewrite lookup_insert.
  case_decide; reflexivity.
Qed.

(** The greedy pass never lets a domain exceed the cap, counting what the
    running counter already held. *)
Lemma cap_loop_bound contacts max_per_company counts domain :
  CampaignFillEngine.counts_get counts domain +
  domain_count domain (CampaignFillEngine.cap_loop contacts max_per_company counts [])
  <= Z.max max_per_company (CampaignFillEngine.counts_get counts domain).
Proof.
  revert counts. induction contacts as [|c l IH]; intros counts; simpl.
  - rewrite domain_count_nil. lia.
  - destruct (Z.ltb_spec (CampaignFillEngine.counts_get counts (Contact.company_domain c))
                max_per_company) as [Hlt|Hge].
    + rewrite cap_loop_result, domain_count_app, domain_count_cons, domain_count_nil.
      specialize (IH (<[Contact.company_domain c :=
        CampaignFillEngine.counts_get counts (Contact.company_domain c) + 1]> counts)).
      rewrite counts_get_insert in IH.
      case_decide; [subst domain|]; lia.
    + apply IH.
Qed.

Lemma count_loop_get contacts counts domain :
  CampaignFillEngine.counts_get (CampaignFillEngine.count_loop contacts counts) domain =
  CampaignFillEngine.counts_get counts domain + domain_count domain contacts.
Proof.
  revert counts. induction contacts as [|c l IH]; intros counts; simpl.
  - rewrite domain_count_nil. lia.
  - rewrite IH, counts_get_insert, domain_count_cons.
    case_decide; [subst domain|]; lia.
Qed.

(** Capped fresh and capped retouch rows together respect the cap. *)
Lemma capped_lists_bound fresh retouch max_per_co domain :
  let selected_fresh := CampaignFillEngine._apply_company_cap fresh max_per_co ∅ in
  let selected_retouch :=
    CampaignFillEngine._apply_company_cap retouch max_per_co
      (CampaignFillEngine._count_by_company selected_fresh) in
  domain_count domain selected_fresh + domain_count domain selected_retouch
  <= Z.max max_per_co 0.
Proof.
  cbv zeta. unfold CampaignFillEngine._apply_company_cap,
    CampaignFillEngine._count_by_company.
  pose proof (cap_loop_bound fresh max_per_co ∅ domain) as Hf.
  pose proof (cap_loop_bound retouch max_per_co
    (CampaignFillEngine.count_loop
       (CampaignFillEngine.cap_loop fresh max_per_co ∅ []) ∅) domain) as Hr.
  rewrite count_loop_get in Hr.
  unfold CampaignFillEngine.counts_get in Hf, Hr. rewrite lookup_empty in Hf, Hr.
  simpl in Hf, Hr. lia.
Qed.

(** ** Slices *)

Lemma py_slice_sublist {A} (l : list A) lo hi : py_slice l lo hi `sublist_of` l.
Proof.
  unfold py_slice. etransitivity; [apply sublist_take|apply sublist_drop].
Qed.

(** [l[:n]] and [l[n:m]] are disjoint stretches of [l]. *)
Lemma py_slice_adjacent_sublist {A} (l : list A) n m :
  py_slice l 0 n ++ py_slice l n m `sublist_of` l.
Proof.
  unfold py_slice.
  assert (H0 : py_bound (length l) 0 = 0%nat) by (unfold py_bound; simpl; lia).
  rewrite H0, Nat.sub_0_r. change (drop 0 l) with l.
  set (a := py_bound (length l) n).
  set (b := (py_bound (length l) m - a)%nat).
  assert (Hl : take a l ++ take b (drop a l) `sublist_of` take a l ++ drop a l)
    by (apply sublist_app; [reflexivity|apply sublist_take]).
  now rewrite take_drop in Hl.
Qed.

Lemma py_slice_prefix {A} (l : list A) n :
  0 <= n -> py_slice l 0 n = take (Z.to_nat n) l.
Proof.
  intros Hn. unfold py_slice, py_bound. simpl.
  destruct (Z.ltb_spec n 0); [lia|].
  rewrite Nat.sub_0_r. change (drop 0 l) with l.
  destruct (Nat.le_gt_cases (length l) (Z.to_nat n)).
  - rewrite Nat.min_r by lia. rewrite !take_ge by lia. reflexivity.
  - rewrite Nat.min_l by lia. reflexivity.
Qed.

Lemma py_slice_segment {A} (l : list A) n k :
  0 <= n -> 0 <= k ->
  py_slice l n (n + k) = take (Z.to_nat k) (drop (Z.to_nat n) l).
Proof.
  intros Hn Hk. unfold py_slice, py_bound.
  destruct (Z.ltb_spec n 0); [lia|]. destruct (Z.ltb_spec (n + k) 0); [lia|].
  destruct (Nat.le_gt_cases (length l) (Z.to_nat n)).
  - rewrite (Nat.min_r (Z.to_nat n)) by lia. rewrite !drop_ge by lia.
    now rewrite !take_nil.
  - rewrite (Nat.min_l (Z.to_nat n)) by lia.
    destruct (Nat.le_gt_cases (length l) (Z.to_nat (n + k))).
    + rewrite Nat.min_r by lia.
      rewrite !take_ge; [reflexivity| |]; rewrite length_drop; lia.
    + rewrite Nat.min_l by lia. f_equal. lia.
Qed.

(** ** The selection of the fill engine *)

Lemma select_contacts_bound volume fresh_target max_per_co fresh retouch domain :
  domain_count domain
    (CampaignFillEngine.select_contacts volume fresh_target max_per_co fresh retouch)
  <= Z.max max_per_co 0.
Proof.
  pose proof (capped_lists_bound fresh retouch max_per_co domain) as Hcap.
  cbv zeta in Hcap. unfold CampaignFillEngine.select_contacts.
  set (sf := CampaignFillEngine._apply_company_cap fresh max_per_co ∅) in *.
  set (sr := CampaignFillEngine._apply_company_cap retouch max_per_co
               (CampaignFillEngine._count_by_company sf)) in *.
  cbv zeta.
  set (rem := volume - CampaignFillEngine.len (py_slice sf 0 fresh_target)).
  pose proof (domain_count_sublist domain _ _ (py_slice_sublist sr 0 rem)) as Hr.
  destruct (_ <? volume).
  - match goal with |- context [py_slice sf fresh_target ?hi] =>
      pose proof (domain_count_sublist domain _ _
                    (py_slice_adjacent_sublist sf fresh_target hi)) as Hf end.
    rewrite !domain_count_app in *. lia.
  - pose proof (domain_count_sublist domain _ _ (py_slice_sublist sf 0 fresh_target)) as Hf.
    rewrite !domain_count_app in *. lia.
Qed.

Lemma assign_loop_outcome settings request channel now l t s s' t' :
  CampaignFillEngine.assign_loop settings request channel now l t s = (s', Ok t') ->
  t' = foldl CampaignFillEngine.tally_add t l.
Proof.
  revert t s. induction l as [|c l IH]; intros t s; cbn [CampaignFillEngine.assign_loop foldl].
  - munfold. congruence.
  - unfold mbind at 1, M_bind at 1, bind at 1.
    destruct (CampaignFillEngine._assign_contact _ _ _ _ _ _) as [s1 [[]|e]];
      [apply IH|discriminate].
Qed.

(** What [fill] returns: the selection made from the two query results. *)
Lemma fill_contacts q settings request now s s' res :
  CampaignFillEngine.fill q settings request now s = (s', Ok res) ->
  let volume := CampaignFillRequest.volume request in
  let fresh_target :=
    CampaignFillEngine.fresh_target_of volume (CampaignFillEngine.ratio_of settings request) in
  let titles := match CampaignFillRequest.title_keywords request with
                | [] => None
                | kws => Some kws
                end in
  ∃ s1 s2 fresh retouch,
    q (CampaignFillRequest.client_id request) (CampaignFillRequest.channel request)
      titles (fresh_target * 2) ["fresh"] now s = (s1, Ok fresh) ∧
    q (CampaignFillRequest.client_id request) (CampaignFillRequest.channel request)
      titles ((volume - fresh_target) * 2) ["retouch_eligible"] now s1 = (s2, Ok retouch) ∧
    CampaignFillResult.contacts res =
      CampaignFillEngine.select_contacts volume fresh_target
        (CampaignFillEngine.max_per_co_of settings request) fresh retouch ∧
    CampaignFillResult.total_assigned res =
      CampaignFillEngine.len (CampaignFillResult.contacts res) ∧
    CampaignFillResult.retouch_count res =
      CampaignFillEngine.retouch_count
        (foldl CampaignFillEngine.tally_add
           (CampaignFillEngine.mk_tally ∅ 0 0) (CampaignFillResult.contacts res)).
Proof.
  unfold CampaignFillEngine.fill. cbv zeta.
  unfold mbind at 1, M_bind at 1, bind at 1.
  destruct (q _ _ _ _ ["fresh"] _ _) as [s1 [fresh|e]] eqn:Hq1; [|discriminate].
  unfold mbind at 1, M_bind at 1, bind at 1.
  destruct (q _ _ _ _ ["retouch_eligible"] _ _) as [s2 [retouch|e]] eqn:Hq2;
    [|discriminate].
  unfold mbind at 1, M_bind at 1, bind at 1.
  destruct (CampaignFillEngine.assign_loop _ _ _ _ _ _ _) as [s3 [t|e]] eqn:Hloop;
    [|discriminate].
  apply assign_loop_outcome in Hloop.
  unfold mret, M_ret, ret. intros [= <- <-].
  exists s1, s2, fresh, retouch. simpl. subst t.
  split; [reflexivity|]. split; [exact Hq2|]. repeat split; reflexivity.
Qed.

(** C5 (amended).  When [max_per_company] is a positive [c], or is unset and
    the configured [max_contacts_per_company] is a non-negative [c], the
    contact list a fill returns holds at most [c] contacts of any company
    domain, fresh and retouch selections counted together. *)
Theorem fill_respects_company_cap q settings request now s s' res c :
  CampaignFillEngine.fill q settings request now s = (s', Ok res) ->
  (CampaignFillRequest.max_per_company request = Some c ∧ 0 < c) ∨
  (CampaignFillRequest.max_per_company request = None ∧
   Settings.max_contacts_per_company settings = c ∧ 0 <= c) ->
  ∀ domain, domain_count domain (CampaignFillResult.contacts res) <= c.
Proof.
  intros Hfill Hc domain.
  apply fill_contacts in Hfill. cbv zeta in Hfill.
  destruct Hfill as (s1 & s2 & fresh & retouch & _ & _ & -> & _).
  match goal with |- domain_count _ (CampaignFillEngine.select_contacts ?v ?f ?m _ _) <= _ =>
    pose proof (select_contacts_bound v f m fresh retouch domain) as Hb;
    assert (Hm : m = c ∧ 0 <= c) end.
  { unfold CampaignFillEngine.max_per_co_of.
    destruct Hc as [[-> Hpos]|(-> & <- & Hpos)]; [|auto].
    destruct c; [lia|split; [reflexivity|lia]|exfalso; clear -Hpos; lia]. }
  destruct Hm as [Hm Hpos]. rewrite Hm in Hb |- *. lia.
Qed.

(** Four fresh contacts of one company, a request for four with a cap of
    two. *)
Lemma fill_respects_company_cap_witness :
  let run := CampaignFillEngine.fill status_query Settings.default
               (fill_request 4 (Some 1%Q) (Some 2)) 200 bigco_store in
  ∃ res, snd run = Ok res ∧
         CampaignFillResult.total_assigned res = 2 ∧
         ∀ domain, domain_count domain (CampaignFillResult.contacts res) <= 2.
Proof.
  intros run.
  destruct run as [s' [res|e]] eqn:Hrun.
  - exists res. split; [reflexivity|]. split.
    + vm_compute in Hrun. injection Hrun as _ <-. reflexivity.
    + apply (fill_respects_company_cap status_query Settings.default
               (fill_request 4 (Some 1%Q) (Some 2)) 200 bigco_store s' res 2 Hrun).
      left. split; [reflexivity|lia].
  - vm_compute in Hrun. discriminate Hrun.
Defined.

(** C5 as stated fails when the request carries a cap of zero: [0 or 3]
    selects the configured cap, and the contact is returned. *)
Lemma cap_of_zero_is_not_enforced :
  let request := fill_request 1 (Some 1%Q) (Some 0) in
  let run := CampaignFillEngine.fill status_query Settings.default request 200
               one_fresh_contact in
  CampaignFillRequest.max_per_company request = Some 0 ∧
  ∃ res, snd run = Ok res ∧
         ¬ (domain_count "acme.com" (CampaignFillResult.contacts res) <= 0).
Proof.
  split; [reflexivity|].
  eexists. split; [vm_compute; reflexivity|].
  vm_compute. intros H. apply H. reflexivity.
Qed.

(** ** The fresh/retouch composition (C4) *)

Lemma fresh_target_floor volume ratio :
  0 <= volume -> (0 <= ratio)%Q ->
  CampaignFillEngine.fresh_target_of volume ratio = Qfloor (inject_Z volume * ratio).
Proof.
  intros Hv Hr. unfold CampaignFillEngine.fresh_target_of, py_int.
  destruct ratio as [rn rd]. unfold Qle in Hr. simpl in *.
  apply Z.quot_div_nonneg; nia.
Qed.

Lemma fresh_target_range volume ratio :
  0 <= volume -> (0 <= ratio)%Q -> (ratio <= 1)%Q ->
  0 <= CampaignFillEngine.fresh_target_of volume ratio <= volume.
Proof.
  intros Hv Hr0 Hr1. rewrite fresh_target_floor by assumption.
  destruct ratio as [rn rd]. unfold Qle in Hr0, Hr1. simpl in *.
  split.
  - apply Z.div_pos; nia.
  - apply Z.div_le_upper_bound; nia.
Qed.




(** ** The provider cascade (C8) *)

Lemma add_warnings_elem w ws r :
  w ∈ WaterfallFillResult.warnings r ->
  w ∈ WaterfallFillResult.warnings (WaterfallFillResult.add_warnings ws r).
Proof. destruct r. simpl. intros H. apply elem_of_app. auto. Qed.


(** The provider loop returns for every list of adapters, whatever each of
    them does; it does not touch the store and it keeps the warnings it was
    given. *)
Lemma cascade_returns max_external_credits providers st s :
  ∃ st', WaterfallEngine.cascade max_external_credits providers st s = (s, Ok st') ∧
         ∀ w, w ∈ WaterfallFillResult.warnings (WaterfallEngine.partial st) ->
              w ∈ WaterfallFillResult.warnings (WaterfallEngine.partial st').
Proof.
  revert st. induction providers as [|p rest IH]; intros st;
    cbn [WaterfallEngine.cascade].
  - exists st. split; [reflexivity|auto].
  - destruct (WaterfallEngine.deficit st <=? 0); [exists st; split; [reflexivity|auto]|].
    destruct (Qle_bool max_external_credits (WaterfallEngine.total_credits st)).
    + eexists. split; [reflexivity|]. simpl. intros w Hw. now apply add_warnings_elem.
    + unfold mbind at 1, M_bind at 1, bind at 1.
      unfold try_except, WaterfallEngine.catch_all, WaterfallEngine.call_provider.
      unfold mbind at 1, M_bind at 1, bind at 1.
      destruct (LeadProvider.search_leads p _) as [provider_result|e]; simpl.
      * match goal with |- context [WaterfallEngine.cascade _ rest ?st1 s] =>
          destruct (IH st1) as (st' & Hrun & Hw) end.
        exists st'. split; [exact Hrun|].
        intros w Hin. apply Hw. destruct st as [[] ? ? ? ?]. simpl in *.
        apply elem_of_app. auto.
      * match goal with |- context [WaterfallEngine.cascade _ rest ?st1 s] =>
          destruct (IH st1) as (st' & Hrun & Hw) end.
        exists st'. split; [exact Hrun|].
        intros w Hin. apply Hw. destruct st as [[] ? ? ? ?]. simpl in *.
        apply elem_of_app. auto.
Qed.


Lemma bulk_create_loop_returns contacts now inserted s :
  ∃ s' n, Database.bulk_create_loop contacts now inserted s = (s', Ok n).
Proof.
  revert inserted s. induction contacts as [|c l IH]; intros inserted s;
    cbn [Database.bulk_create_loop].
  - munfold. eauto.
  - unfold Database._ensure_company, Database.get_contact, Database.bump_contacts_total.
    munfold. destruct (List.find _ _); apply IH.
Qed.

(** The write-back returns for every batch of leads. *)
Lemma write_back_leads_returns leads client_id now s :
  ∃ s' wb, WriteBack.write_back_leads leads client_id now s = (s', Ok wb).
Proof.
  unfold WriteBack.write_back_leads.
  destruct (WriteBack.map_leads leads client_id now [] 0) as [contacts invalid].
  destruct contacts as [|c contacts]; [munfold; eauto|].
  unfold try_except, Database.bulk_create_contacts.
  destruct (bulk_create_loop_returns (c :: contacts) now 0 s) as (s' & n & Hrun).
  rewrite (bind_ok _ _ _ _ _ Hrun). munfold. eauto.
Qed.





(** The waterfall on a store with one fresh contact, asked for three: the
    first adapter raises, the second returns a lead, the call returns, and
    the result carries the warning of the failure. *)
Example waterfall_survives_failing_provider :
  let run := WaterfallEngine.fill_campaign status_query Settings.default
               [clay_provider; failing_provider] waterfall_request 200
               one_fresh_contact in
  ∃ result, snd run = Ok result ∧
            "ai_ark error: timeout" ∈ WaterfallFillResult.warnings result ∧
            WaterfallFillResult.internal_filled result = 1 ∧
            WaterfallFillResult.external_filled result = 1 ∧
            WaterfallFillResult.total_assigned result = 2.
Proof.
  eexists. split; [vm_compute; reflexivity|].
  split; [|repeat split].
  apply (bool_decide_unpack _). vm_compute. exact I.
Qed.


(** ** The in-sequence counter away from same-state requests *)

(** Counting the in-sequence contacts of a domain does not see a rewrite
    that keeps domain and status. *)
Lemma in_sequence_count_map domain (g : Contact.t -> Contact.t) (l : list Contact.t) :
  (∀ r, Contact.company_domain (g r) = Contact.company_domain r ∧
        Contact.disposition_status (g r) = Contact.disposition_status r) ->
  length (filter (fun c => Contact.company_domain c = domain ∧
                           Contact.disposition_status c = DispositionStatus.IN_SEQUENCE)
            (map g l)) =
  length (filter (fun c => Contact.company_domain c = domain ∧
                           Contact.disposition_status c = DispositionStatus.IN_SEQUENCE) l).
Proof.
  intros Hg. induction l as [|x l IH]; [reflexivity|].
  simpl map. rewrite !filter_cons. destruct (Hg x) as [Hd Hs].
  rewrite Hd, Hs. case_decide; simpl; now rewrite IH.
Qed.

Lemma map_update_absent email client_id (f : Contact.t -> Contact.t) (l : list Contact.t) :
  (email, client_id) ∉ map Contact.key l ->
  map (fun r => if Database.has_key email client_id r then f r else r) l = l.
Proof.
  induction l as [|x l IH]; intros Hnin; [reflexivity|].
  simpl in *. apply not_elem_of_cons in Hnin as [Hx Hl].
  destruct (Database.has_key email client_id x) eqn:Hk.
  - apply has_key_spec in Hk. congruence.
  - now rewrite IH.
Qed.

(** The in-sequence count of a domain after the status of the one row of a
    key is set to [target]. *)
Lemma in_sequence_count_update domain email client_id target
    (f : Contact.t -> Contact.t) (l : list Contact.t) c :
  NoDup (map Contact.key l) ->
  List.find (Database.has_key email client_id) l = Some c ->
  (∀ r, Contact.key (f r) = Contact.key r ∧
        Contact.company_domain (f r) = Contact.company_domain r ∧
        Contact.disposition_status (f r) = target) ->
  let in_sequence status :=
    if decide (status = DispositionStatus.IN_SEQUENCE) then 1 else 0 in
  let count l :=
    Z.of_nat (length (filter (fun c => Contact.company_domain c = domain ∧
        Contact.disposition_status c = DispositionStatus.IN_SEQUENCE) l)) in
  count (map (fun r => if Database.has_key email client_id r then f r else r) l) =
  count l +
  (if decide (Contact.company_domain c = domain)
   then in_sequence target - in_sequence (Contact.disposition_status c) else 0).
Proof.
  intros Hnd Hfind Hf. cbv zeta.
  induction l as [|x l IH]; [discriminate|].
  simpl in Hnd. apply NoDup_cons in Hnd as [Hx Hnd].
  simpl in Hfind. simpl map.
  destruct (Database.has_key email client_id x) eqn:Hk.
  - injection Hfind as <-. apply has_key_spec in Hk.
    rewrite map_update_absent by (rewrite <- Hk; exact Hx).
    destruct (Hf x) as (_ & Hd & Hs).
    rewrite !filter_cons. rewrite Hd, Hs.
    repeat case_decide; simpl length; first [lia | exfalso; tauto].
  - specialize (IH Hnd Hfind). rewrite !filter_cons.
    repeat case_decide; simpl length; first [lia | exfalso; tauto].
Qed.

Lemma transition_updates_status settings target now r :
  Contact.disposition_status
    (Database.contact_set (StateMachine.transition_updates settings target now) now r)
  = target.
Proof.
  unfold StateMachine.transition_updates, Database.contact_set.
  destruct r, target; simpl; repeat (destruct (_ =? 0); simpl); reflexivity.
Qed.

(** The company rows after [_update_company_state]: row by row, with the
    domain kept and the counter moved as the transition asks. *)
Lemma update_company_state_counter domain old_status new_status now s :
  ∃ h,
    StateMachine._update_company_state domain old_status new_status now s =
      (Store.with_companies (map h (Store.companies s)) s, Ok tt) ∧
    ∀ co,
      Company.domain (h co) = Company.domain co ∧
      Company.contacts_in_sequence (h co) =
        match List.find (Database.has_domain domain) (Store.companies s) with
        | Some first =>
            if negb (Database.has_domain domain co) then Company.contacts_in_sequence co
            else if decide (new_status = DispositionStatus.IN_SEQUENCE)
            then Company.contacts_in_sequence first + 1
            else if decide (old_status = DispositionStatus.IN_SEQUENCE)
            then py_max 0 (Company.contacts_in_sequence first - 1)
            else Company.contacts_in_sequence co
        | None => Company.contacts_in_sequence co
        end.
Proof.
  unfold StateMachine._update_company_state, StateMachine.sequence_updates,
    Database.get_company.
  assert (Hid : ∃ h, (s, Ok tt) =
            (Store.with_companies (map h (Store.companies s)) s, Ok tt) ∧
            ∀ co : Company.t, Company.domain (h co) = Company.domain co ∧
              Company.contacts_in_sequence (h co) = Company.contacts_in_sequence co).
  { exists (fun co => co). rewrite map_id. destruct s; auto. }
  assert (Hset : ∀ fields, fields ≠ [] ->
            Database.update_company_fields domain fields now s =
            (Store.with_companies
               (map (fun co => if Database.has_domain domain co
                               then Database.company_set fields now co else co)
                    (Store.companies s)) s,
             Ok (List.find (Database.has_domain domain)
                   (map (fun co => if Database.has_domain domain co
                                   then Database.company_set fields now co else co)
                        (Store.companies s))))).
  { intros [|f fields] Hne; [congruence|]. reflexivity. }
  destruct (List.find (Database.has_domain domain) (Store.companies s)) as [first|] eqn:Hfind.
  - destruct (decide (new_status = DispositionStatus.IN_SEQUENCE)) as [->|Hnew].
    + munfold. rewrite Hfind. simpl.
      eexists (fun co => if Database.has_domain domain co then _ else co).
      split; [reflexivity|].
      intros co. destruct (Database.has_domain domain co) eqn:Hco; [|auto].
      rewrite company_set_domain. split; [reflexivity|]. destruct co; reflexivity.
    + destruct (decide (old_status = DispositionStatus.IN_SEQUENCE)) as [->|Hold].
      * munfold. rewrite Hfind.
        destruct ((py_max 0 (Company.contacts_in_sequence first - 1) =? 0)
                  && (0 <? Company.contacts_touched first));
          destruct (decide (new_status = DispositionStatus.WON_CUSTOMER));
          destruct (decide (new_status = DispositionStatus.REPLIED_HARD_NO));
          simpl;
          (eexists (fun co => if Database.has_domain domain co then _ else co);
           split; [reflexivity|];
           intros co; destruct (Database.has_domain domain co) eqn:Hco; [|auto];
           rewrite company_set_domain; split; [reflexivity|]; destruct co; reflexivity).
      * munfold.
        destruct (decide (new_status = DispositionStatus.WON_CUSTOMER));
          destruct (decide (new_status = DispositionStatus.REPLIED_HARD_NO));
          simpl;
          first
            [ destruct Hid as (h & Heq & Hh); exists h; split; [exact Heq|];
              intros co; destruct (Hh co) as [Hd Hc]; split; [exact Hd|];
              rewrite Hc; destruct (Database.has_domain domain co); reflexivity
            | eexists (fun co => if Database.has_domain domain co then _ else co);
              split; [reflexivity|];
              intros co; destruct (Database.has_domain domain co) eqn:Hco; [|auto];
              rewrite company_set_domain; split; [reflexivity|];
              destruct co; reflexivity ].
  - assert (Hnone : ∀ co, co ∈ Store.companies s -> Database.has_domain domain co = false).
    { intros co Hin. destruct (Database.has_domain domain co) eqn:Hco; [|reflexivity].
      apply list_elem_of_In in Hin.
      pose proof (find_none _ _ Hfind co Hin) as Hn. congruence. }
    exists (fun co => co). rewrite map_id.
    split; [|auto].
    assert (Hmap : ∀ fields,
      map (fun co => if Database.has_domain domain co
                     then Database.company_set fields now co else co)
          (Store.companies s) = Store.companies s).
    { intros fields. rewrite <- (map_id (Store.companies s)) at 2.
      apply map_ext_in. intros co Hin. apply list_elem_of_In in Hin.
      now rewrite (Hnone co Hin). }
    repeat case_decide; munfold; rewrite ?Hfind; simpl; rewrite ?Hmap;
      destruct s; reflexivity.
Qed.

Lemma suppressed_keeps_status now r :
  Contact.key (Database.contact_set [Contact.email_suppressed_ true] now r)
    = Contact.key r ∧
  Contact.company_domain (Database.contact_set [Contact.email_suppressed_ true] now r)
    = Contact.company_domain r ∧
  Contact.disposition_status (Database.contact_set [Contact.email_suppressed_ true] now r)
    = Contact.disposition_status r.
Proof. destruct r; repeat split; reflexivity. Qed.

Lemma filter_length_pos {A} (P : A -> Prop) `{∀ x, Decision (P x)} (l : list A) x :
  x ∈ l -> P x -> (1 <= length (filter P l))%nat.
Proof.
  intros Hin HP.
  assert (Hx : x ∈ filter P l) by (apply list_elem_of_filter; auto).
  destruct (filter P l); [inversion Hx|simpl; lia].
Qed.

(** The two tables a legal transition of an existing contact rewrites, row
    by row: the rows of the contact's key take the new status, every other
    change to a contact keeps key, domain and status, and the company rows
    keep their domain and move their counter. *)
Lemma transition_shape settings email client_id new_status reason triggered_by
    campaign_id now s contact :
  List.find (Database.has_key email client_id) (Store.contacts s) = Some contact ->
  Contact.disposition_status contact = new_status ∨
    new_status ∈ StateMachine.TRANSITIONS (Contact.disposition_status contact) ->
  ∃ s' g h,
    StateMachine.transition settings email client_id new_status reason triggered_by
      campaign_id now s = (s', Ok tt) ∧
    (∀ r, Contact.key (g r) = Contact.key r ∧
          Contact.company_domain (g r) = Contact.company_domain r ∧
          Contact.disposition_status (g r) = Contact.disposition_status r) ∧
    Store.contacts s' =
      map g (map (fun c => if Database.has_key email client_id c
                           then Database.contact_set
                                  (StateMachine.transition_updates settings new_status now)
                                  now c
                           else c) (Store.contacts s)) ∧
    Store.companies s' = map h (Store.companies s) ∧
    ∀ co,
      Company.domain (h co) = Company.domain co ∧
      Company.contacts_in_sequence (h co) =
        match List.find (Database.has_domain (Contact.company_domain contact))
                (Store.companies s) with
        | Some first =>
            if negb (Database.has_domain (Contact.company_domain contact) co)
            then Company.contacts_in_sequence co
            else if decide (new_status = DispositionStatus.IN_SEQUENCE)
            then Company.contacts_in_sequence first + 1
            else if decide (Contact.disposition_status contact = DispositionStatus.IN_SEQUENCE)
            then py_max 0 (Company.contacts_in_sequence first - 1)
            else Company.contacts_in_sequence co
        | None => Company.contacts_in_sequence co
        end.
Proof.
  intros Hfind Hlegal.
  rewrite transition_run, Hfind. cbv zeta.
  rewrite decide_True by exact Hlegal.
  match goal with |- context [StateMachine._update_company_state ?d ?o ?n ?t ?st] =>
    destruct (update_company_state_counter d o n t st) as (h & Hcs & Hh);
    rewrite Hcs end.
  destruct (decide (new_status = DispositionStatus.REPLIED_HARD_NO)) as [Hhard|Hhard].
  - unfold StateMachine._suppress_company, Database.get_contacts_by_domain.
    munfold. rewrite suppress_loop_contacts.
    eexists _, _, h. split; [reflexivity|].
    split; [|split; [reflexivity|split; [reflexivity|exact Hh]]].
    intros r. simpl. destruct (existsb _ _); [apply suppressed_keeps_status|auto].
  - eexists _, (fun r => r), h. split; [reflexivity|].
    split; [auto|]. split; [now rewrite map_id|]. split; [reflexivity|exact Hh].
Qed.

(** Where the counter is maintained: a transition whose target differs from
    the current status keeps the counters consistent, on a store whose
    contact keys are unique. *)
Lemma transition_keeps_counter settings email client_id new_status reason triggered_by
    campaign_id now s s' contact :
  contacts_key_unique s ->
  counter_consistent s ->
  Database.get_contact email client_id s = (s, Ok (Some contact)) ->
  new_status ≠ Contact.disposition_status contact ->
  StateMachine.transition settings email client_id new_status reason triggered_by
    campaign_id now s = (s', Ok tt) ->
  counter_consistent s'.
Proof.
  intros Hnd Hcons Hget Hne Hrun.
  assert (Hfind : List.find (Database.has_key email client_id) (Store.contacts s)
                  = Some contact).
  { unfold Database.get_contact, query in Hget. congruence. }
  assert (Hlegal : Contact.disposition_status contact = new_status ∨
            new_status ∈ StateMachine.TRANSITIONS (Contact.disposition_status contact)).
  { rewrite transition_run, Hfind in Hrun. cbv zeta in Hrun.
    case_decide; [assumption|discriminate]. }
  destruct (transition_shape settings email client_id new_status reason triggered_by
              campaign_id now s contact Hfind Hlegal)
    as (s'' & g & h & Hrun' & Hg & Hcontacts & Hcompanies & Hh).
  assert (s'' = s') by congruence. subst s''. clear Hrun'.
  intros co' Hin. rewrite Hcompanies in Hin.
  apply list_elem_of_fmap in Hin as (co & -> & Hco).
  destruct (Hh co) as [Hd Hc]. rewrite Hd, Hc.
  unfold contacts_in_sequence_at. rewrite Hcontacts.
  rewrite (in_sequence_count_map (Company.domain co) g) by (intros r; apply Hg).
  pose proof (in_sequence_count_update (Company.domain co) email client_id new_status
    (Database.contact_set (StateMachine.transition_updates settings new_status now) now)
    (Store.contacts s) contact Hnd Hfind) as Hcount.
  cbv zeta in Hcount. rewrite Hcount; clear Hcount.
  2:{ intros r. rewrite contact_set_key, contact_set_domain, transition_updates_status.
      auto. }
  pose proof (Hcons co Hco) as Hself. unfold contacts_in_sequence_at in Hself.
  destruct (List.find _ (Store.companies s)) as [first|] eqn:Hfirst.
  - apply find_some in Hfirst as [Hfin Hfd].
    apply list_elem_of_In in Hfin.
    pose proof (Hcons first Hfin) as Hf. unfold contacts_in_sequence_at in Hf.
    unfold Database.has_domain in Hfd. apply bool_decide_eq_true_1 in Hfd.
    rewrite Hfd in Hf.
    unfold Database.has_domain.
    destruct (bool_decide _) eqn:Hbd; simpl.
    + apply bool_decide_eq_true_1 in Hbd. rewrite Hbd in *.
      destruct (decide (Contact.company_domain contact = Contact.company_domain contact))
        as [_|Hx]; [|congruence].
      destruct (decide (new_status = DispositionStatus.IN_SEQUENCE)) as [->|Hnew].
      * destruct (decide (Contact.disposition_status contact
                          = DispositionStatus.IN_SEQUENCE)); [congruence|lia].
      * destruct (decide (Contact.disposition_status contact
                          = DispositionStatus.IN_SEQUENCE)) as [Hold|Hold]; [|lia].
        assert (Hpos : (1 <= length (filter (fun c =>
            Contact.company_domain c = Contact.company_domain contact ∧
            Contact.disposition_status c = DispositionStatus.IN_SEQUENCE)
            (Store.contacts s)))%nat).
        { apply (filter_length_pos _ _ contact); [|auto].
          apply list_elem_of_In. eapply find_some. exact Hfind. }
        unfold py_max. destruct (Z.ltb_spec 0 (Company.contacts_in_sequence first - 1)); lia.
    + apply bool_decide_eq_false_1 in Hbd.
      destruct (decide (Contact.company_domain contact = Company.domain co));
        [congruence|lia].
  - destruct (decide (Contact.company_domain contact = Company.domain co)) as [Heq|Hneq];
      [|lia].
    exfalso. apply list_elem_of_In in Hco.
    pose proof (find_none _ _ Hfirst co Hco) as Hn.
    unfold Database.has_domain in Hn. apply bool_decide_eq_false_1 in Hn. congruence.
Qed.

(** ** Stores built without same-state requests *)

Lemma find_none_key email client_id (l : list Contact.t) :
  List.find (Database.has_key email client_id) l = None ->
  (email, client_id) ∉ map Contact.key l.
Proof.
  intros Hfind Hin. apply list_elem_of_fmap in Hin as (c & Hk & Hc).
  apply list_elem_of_In in Hc.
  pose proof (find_none _ _ Hfind c Hc) as Hn.
  apply not_true_iff_false in Hn. apply Hn. apply has_key_spec. congruence.
Qed.

Lemma in_sequence_count_zero domain (l : list Contact.t) :
  (∀ c, c ∈ l -> Contact.company_domain c ≠ domain) ->
  length (filter (fun c => Contact.company_domain c = domain ∧
                           Contact.disposition_status c = DispositionStatus.IN_SEQUENCE) l)
  = 0%nat.
Proof.
  induction l as [|x l IH]; intros H; [reflexivity|].
  rewrite filter_cons. case_decide as Hx.
  - exfalso. apply (H x); [apply list_elem_of_here|tauto].
  - apply IH. intros c Hc. apply H. now apply list_elem_of_further.
Qed.

(** The store [create_contact] leaves, whether it returns or raises. *)
Lemma create_contact_store contact now s :
  fst (Database.create_contact contact now s) =
  let s0 :=
    if existsb (Database.has_domain (Contact.company_domain contact)) (Store.companies s)
    then s
    else Store.with_companies
           (Store.companies s ++ [Company.default (Contact.company_domain contact) now]) s in
  match List.find (Database.has_key (Contact.email contact) (Contact.client_id contact))
          (Store.contacts s) with
  | Some _ => s0
  | None =>
      Store.with_companies
        (map (fun co =>
           if Database.has_domain (Contact.company_domain contact) co
           then Company.assign co (Company.contacts_total_ (Company.contacts_total co + 1))
           else co) (Store.companies s0))
        (Store.with_contacts
           (Store.contacts s ++ [Database.inserted_row contact now]) s0)
  end.
Proof.
  unfold Database.create_contact, Database._ensure_company, Database.get_contact,
    Database.bump_contacts_total.
  munfold. cbv zeta.
  destruct (existsb _ _); simpl;
    destruct (List.find _ (Store.contacts s)); simpl; try reflexivity;
    destruct (List.find _ _); reflexivity.
Qed.

Lemma ensure_company_keeps_invariant domain now s :
  store_invariant s ->
  store_invariant
    (if existsb (Database.has_domain domain) (Store.companies s) then s
     else Store.with_companies (Store.companies s ++ [Company.default domain now]) s).
Proof.
  intros (Hkeys & Hcover & Hcons).
  destruct (existsb _ _) eqn:Hex; [repeat split; assumption|].
  split; [destruct s; exact Hkeys|]. split.
  - intros c Hc. destruct s as [cs cos ? ? ?]. simpl in *.
    destruct (Hcover c Hc) as (co & Hco & Hd).
    exists co. split; [apply elem_of_app; auto|exact Hd].
  - intros co Hco. destruct s as [cs cos ? ? ?]. simpl in *.
    apply elem_of_app in Hco as [Hco|Hco]; [exact (Hcons co Hco)|].
    apply list_elem_of_singleton in Hco as ->.
    unfold contacts_in_sequence_at. simpl.
    rewrite in_sequence_count_zero; [reflexivity|].
    intros c Hc Hd. destruct (Hcover c Hc) as (co & Hco & Hdco).
    apply not_true_iff_false in Hex. apply Hex.
    apply existsb_exists. exists co. split; [now apply list_elem_of_In|].
    unfold Database.has_domain. apply bool_decide_eq_true_2. congruence.
Qed.

(** Creating a contact that is not in a sequence keeps the invariant. *)
Lemma create_keeps_invariant contact now s :
  Contact.disposition_status contact ≠ DispositionStatus.IN_SEQUENCE ->
  store_invariant s ->
  store_invariant (fst (Database.create_contact contact now s)).
Proof.
  intros Hst Hinv. rewrite create_contact_store. cbv zeta.
  pose proof (ensure_company_keeps_invariant (Contact.company_domain contact) now s Hinv)
    as Hinv0.
  assert (Hhas : ∃ co, co ∈ Store.companies
      (if existsb (Database.has_domain (Contact.company_domain contact)) (Store.companies s)
       then s
       else Store.with_companies
              (Store.companies s ++ [Company.default (Contact.company_domain contact) now]) s)
      ∧ Company.domain co = Contact.company_domain contact).
  { destruct (existsb _ _) eqn:Hex.
    - apply existsb_exists in Hex as (co & Hco & Hd).
      exists co. split; [now apply list_elem_of_In|].
      unfold Database.has_domain in Hd. now apply bool_decide_eq_true_1 in Hd.
    - eexists. split; [destruct s; simpl; apply elem_of_app; right; apply list_elem_of_here|].
      reflexivity. }
  assert (Hcs : Store.contacts
      (if existsb (Database.has_domain (Contact.company_domain contact)) (Store.companies s)
       then s
       else Store.with_companies
              (Store.companies s ++ [Company.default (Contact.company_domain contact) now]) s)
      = Store.contacts s) by (destruct (existsb _ _); destruct s; reflexivity).
  set (s0 := if existsb _ _ then s else _) in *.
  destruct (List.find _ (Store.contacts s)) as [c|] eqn:Hfind; [exact Hinv0|].
  destruct Hinv0 as (Hkeys & Hcover & Hcons).
  set (bump := fun co => if Database.has_domain (Contact.company_domain contact) co
    then Company.assign co (Company.contacts_total_ (Company.contacts_total co + 1))
    else co).
  assert (Hbump : ∀ co, Company.domain (bump co) = Company.domain co ∧
            Company.contacts_in_sequence (bump co) = Company.contacts_in_sequence co).
  { intros co. unfold bump. destruct (Database.has_domain _ co); [destruct co|]; auto. }
  split; [|split].
  - unfold contacts_key_unique in *. destruct s0 as [cs0 cos0 ? ? ?]. simpl in *.
    subst cs0. rewrite map_app. apply NoDup_app. split; [exact Hkeys|].
    split; [|apply NoDup_singleton].
    intros k Hk Hk'. simpl in Hk'. apply list_elem_of_singleton in Hk' as ->.
    apply (find_none_key _ _ _ Hfind). exact Hk.
  - intros c Hc. destruct s0 as [cs0 cos0 ? ? ?]. simpl in *. subst cs0.
    apply elem_of_app in Hc as [Hc|Hc].
    + destruct (Hcover c Hc) as (co & Hco & Hd).
      exists (bump co). split; [now apply list_elem_of_fmap_2|].
      destruct (Hbump co) as [-> _]. exact Hd.
    + apply list_elem_of_singleton in Hc as ->.
      destruct Hhas as (co & Hco & Hd).
      exists (bump co). split; [now apply list_elem_of_fmap_2|].
      destruct (Hbump co) as [-> _]. exact Hd.
  - intros co' Hco'. destruct s0 as [cs0 cos0 ? ? ?]. simpl in *. subst cs0.
    apply list_elem_of_fmap in Hco' as (co & -> & Hco).
    destruct (Hbump co) as [-> ->]. rewrite (Hcons co Hco).
    unfold contacts_in_sequence_at. simpl.
    rewrite filter_app, length_app.
    rewrite (filter_cons _ (Database.inserted_row contact now)).
    rewrite decide_False by (simpl; tauto).
    rewrite filter_nil. simpl. lia.
Qed.

(** A transition that is not a same-state request keeps the invariant,
    whether it returns or raises. *)
Lemma transition_keeps_invariant settings email client_id new_status reason triggered_by
    campaign_id now s :
  (∀ contact, Database.get_contact email client_id s = (s, Ok (Some contact)) ->
              new_status ≠ Contact.disposition_status contact) ->
  store_invariant s ->
  store_invariant
    (fst (StateMachine.transition settings email client_id new_status reason triggered_by
            campaign_id now s)).
Proof.
  intros Hne (Hkeys & Hcover & Hcons).
  destruct (List.find (Database.has_key email client_id) (Store.contacts s))
    as [contact|] eqn:Hfind.
  2:{ rewrite transition_run, Hfind. simpl. repeat split; assumption. }
  destruct (decide (Contact.disposition_status contact = new_status ∨
              new_status ∈ StateMachine.TRANSITIONS (Contact.disposition_status contact)))
    as [Hlegal|Hillegal].
  2:{ rewrite transition_run, Hfind. cbv zeta. rewrite decide_False by exact Hillegal.
      simpl. repeat split; assumption. }
  destruct (transition_shape settings email client_id new_status reason triggered_by
              campaign_id now s contact Hfind Hlegal)
    as (s' & g & h & Hrun & Hg & Hcontacts & Hcompanies & Hh).
  assert (Hget : Database.get_contact email client_id s = (s, Ok (Some contact))).
  { unfold Database.get_contact, query. now rewrite Hfind. }
  rewrite Hrun. simpl. split; [|split].
  - unfold contacts_key_unique in *. rewrite Hcontacts, !map_map.
    erewrite map_ext; [exact Hkeys|].
    intros r. simpl. destruct (Hg (if Database.has_key email client_id r
        then Database.contact_set
               (StateMachine.transition_updates settings new_status now) now r
        else r)) as [-> _].
    destruct (Database.has_key email client_id r); [apply contact_set_key|reflexivity].
  - intros c Hc. rewrite Hcontacts, map_map in Hc.
    apply list_elem_of_fmap in Hc as (r & -> & Hr).
    destruct (Hcover r Hr) as (co & Hco & Hd).
    exists (h co). split; [rewrite Hcompanies; now apply list_elem_of_fmap_2|].
    destruct (Hh co) as [-> _]. rewrite Hd.
    match goal with |- _ = Contact.company_domain (g ?x) =>
      destruct (Hg x) as (_ & -> & _) end.
    destruct (Database.has_key email client_id r);
      [now rewrite contact_set_domain|reflexivity].
  - eapply transition_keeps_counter; eauto.
Qed.

(** The counter is consistent on every store built without same-state
    requests: the stores on which it drifts all involve one. *)
Lemma maintained_stores_are_consistent settings s :
  maintained settings s -> store_invariant s.
Proof.
  induction 1 as [|contact now s _ IH Hst|email client_id new_status reason triggered_by
                  campaign_id now s _ IH Hne].
  - repeat split.
    + constructor.
    + intros c Hc. inversion Hc.
    + intros co Hco. inversion Hco.
  - apply create_keeps_invariant; assumption.
  - apply transition_keeps_invariant; assumption.
Qed.

(** * Further properties of the code *)

(** ** Rows, lookups and inserts *)

Lemma with_contacts_same s : Store.with_contacts (Store.contacts s) s = s.
Proof. destruct s; reflexivity. Qed.

Lemma with_companies_same s : Store.with_companies (Store.companies s) s = s.
Proof. destruct s; reflexivity. Qed.

Lemma get_contact_find email client_id s r :
  Database.get_contact email client_id s = (s, Ok r) <->
  List.find (Database.has_key email client_id) (Store.contacts s) = r.
Proof.
  unfold Database.get_contact, query. split; [congruence|intros ->; reflexivity].
Qed.

Lemma get_company_find domain s r :
  Database.get_company domain s = (s, Ok r) <->
  List.find (Database.has_domain domain) (Store.companies s) = r.
Proof.
  unfold Database.get_company, query. split; [congruence|intros ->; reflexivity].
Qed.

Lemma find_snoc_absent {A} (p : A -> bool) (l : list A) x :
  List.find p l = None -> List.find p (l ++ [x]) = if p x then Some x else None.
Proof.
  induction l as [|y l IH]; simpl; [reflexivity|].
  destruct (p y); [discriminate|exact IH].
Qed.

Lemma find_snoc_present {A} (p : A -> bool) (l : list A) x y :
  List.find p l = Some y -> List.find p (l ++ [x]) = Some y.
Proof.
  induction l as [|z l IH]; simpl; [discriminate|].
  destruct (p z); [auto|exact IH].
Qed.

Lemma has_key_self c :
  Database.has_key (Contact.email c) (Contact.client_id c) c = true.
Proof. unfold Database.has_key. apply bool_decide_eq_true_2. auto. Qed.

Lemma has_domain_self co : Database.has_domain (Company.domain co) co = true.
Proof. unfold Database.has_domain. apply bool_decide_eq_true_2. reflexivity. Qed.

(** X1.  Insert and lookup.  When no row has the key of [contact],
    [create_contact] returns, appends one row and the lookup of the key gives
    that row back.  The row takes key, domain, status and enrichment date from
    the object; the suppression flags, the cooldown and the sequence count are
    the schema defaults whatever the object holds.  The company row exists
    afterwards. *)
Theorem create_contact_then_get contact now s :
  Database.get_contact (Contact.email contact) (Contact.client_id contact) s
    = (s, Ok None) ->
  ∃ s' row,
    Database.create_contact contact now s = (s', Ok row) ∧
    Database.get_contact (Contact.email contact) (Contact.client_id contact) s'
      = (s', Ok (Some row)) ∧
    Store.contacts s' = Store.contacts s ++ [row] ∧
    Contact.key row = Contact.key contact ∧
    Contact.company_domain row = Contact.company_domain contact ∧
    Contact.disposition_status row = Contact.disposition_status contact ∧
    Contact.data_enriched_at row = Contact.data_enriched_at contact ∧
    Contact.email_suppressed row = false ∧
    Contact.linkedin_suppressed row = false ∧
    Contact.phone_suppressed row = false ∧
    Contact.email_cooldown_until row = None ∧
    Contact.sequence_count row = 0 ∧
    ∃ company,
      Database.get_company (Contact.company_domain contact) s' = (s', Ok (Some company)).
Proof.
  intros Hget. apply get_contact_find in Hget.
  pose proof (create_contact_store contact now s) as Hstore.
  rewrite Hget in Hstore. cbv zeta in Hstore.
  set (s0 := if existsb (Database.has_domain (Contact.company_domain contact))
                  (Store.companies s)
             then s
             else Store.with_companies
                    (Store.companies s ++
                       [Company.default (Contact.company_domain contact) now]) s) in *.
  assert (Hc0 : Store.contacts s0 = Store.contacts s).
  { subst s0. destruct (existsb _ _); reflexivity. }
  assert (Hrun : ∃ s', Database.create_contact contact now s
                       = (s', Ok (Database.inserted_row contact now))).
  { unfold Database.create_contact, Database._ensure_company, Database.get_contact,
      Database.bump_contacts_total. munfold. fold s0. rewrite Hc0, Hget. cbn.
    rewrite Hc0, (find_snoc_absent _ _ _ Hget).
    change (Database.has_key (Contact.email contact) (Contact.client_id contact)
              (Database.inserted_row contact now))
      with (Database.has_key
              (Contact.email (Database.inserted_row contact now))
              (Contact.client_id (Database.inserted_row contact now))
              (Database.inserted_row contact now)).
    rewrite has_key_self. eauto. }
  destruct Hrun as [s' Hrun]. rewrite Hrun in Hstore. simpl in Hstore. subst s'.
  eexists _, _. split; [exact Hrun|].
  split.
  { apply get_contact_find.
    cbn [Store.contacts Store.with_companies Store.with_contacts].
    rewrite (find_snoc_absent _ _ _ Hget).
    change (Database.has_key (Contact.email contact) (Contact.client_id contact)
              (Database.inserted_row contact now))
      with (Database.has_key
              (Contact.email (Database.inserted_row contact now))
              (Contact.client_id (Database.inserted_row contact now))
              (Database.inserted_row contact now)).
    now rewrite has_key_self. }
  split; [reflexivity|].
  do 9 (split; [reflexivity|]).
  assert (Hex : ∃ co, List.find (Database.has_domain (Contact.company_domain contact))
                        (Store.companies s0) = Some co).
  { subst s0. destruct (existsb _ _) eqn:Hex.
    - apply existsb_exists in Hex as (co & Hin & Hco).
      destruct (List.find _ (Store.companies s)) as [co'|] eqn:Hfind; [eauto|].
      pose proof (find_none _ _ Hfind co Hin). congruence.
    - cbn [Store.companies Store.with_companies].
      destruct (List.find (Database.has_domain (Contact.company_domain contact))
                  (Store.companies s)) as [co'|] eqn:Hfind.
      + rewrite (find_snoc_present _ _ _ _ Hfind). eauto.
      + rewrite (find_snoc_absent _ _ _ Hfind).
        change (Contact.company_domain contact)
          with (Company.domain (Company.default (Contact.company_domain contact) now)) at 1.
        rewrite has_domain_self. eauto. }
  destruct Hex as [co Hco].
  eexists. apply get_company_find.
  cbn [Store.companies Store.with_companies Store.with_contacts].
  rewrite find_map_same by (intros x; apply bool_decide_ext; destruct x; reflexivity).
  rewrite Hco. reflexivity.
Qed.

Lemma create_contact_then_get_witness :
  ∃ s' row,
    Database.create_contact
      (Contact.mk "b@acme.com" "client_1" "acme.com" DispositionStatus.FRESH
         None None None None (Some 999) true true true None 7 None)
      200 one_fresh_contact = (s', Ok row) ∧
    Contact.email_suppressed row = false ∧
    Contact.email_cooldown_until row = None ∧
    Contact.sequence_count row = 0.
Proof.
  destruct (create_contact_then_get
    (Contact.mk "b@acme.com" "client_1" "acme.com" DispositionStatus.FRESH
       None None None None (Some 999) true true true None 7 None)
    200 one_fresh_contact eq_refl) as (s' & row & Hrun & H).
  exists s', row. tauto.
Defined.

(** X2.  A second insert of the same key: [create_contact] raises the
    integrity error of the primary key and the contact table keeps its
    rows. *)
Theorem create_contact_duplicate_key contact now s existing :
  Database.get_contact (Contact.email contact) (Contact.client_id contact) s
    = (s, Ok (Some existing)) ->
  ∃ s',
    Database.create_contact contact now s =
      (s', Raised (IntegrityError
                     "UNIQUE constraint failed: contacts.email, contacts.client_id")) ∧
    Store.contacts s' = Store.contacts s ∧
    Store.disposition_history s' = Store.disposition_history s.
Proof.
  intros Hget. apply get_contact_find in Hget.
  unfold Database.create_contact, Database._ensure_company, Database.get_contact.
  munfold.
  destruct (existsb _ _); cbn; rewrite Hget; eexists; (split; [reflexivity|]);
    split; reflexivity.
Qed.

Lemma create_contact_duplicate_key_witness :
  ∃ s',
    Database.create_contact
      (Contact.mk "a@acme.com" "client_1" "acme.com" DispositionStatus.FRESH
         None None None None None false false false None 0 None)
      200 one_fresh_contact =
      (s', Raised (IntegrityError
                     "UNIQUE constraint failed: contacts.email, contacts.client_id")) ∧
    Store.contacts s' = Store.contacts one_fresh_contact ∧
    Store.disposition_history s' = Store.disposition_history one_fresh_contact.
Proof. eapply create_contact_duplicate_key. reflexivity. Defined.

(** ** Transitions: errors, history and terminal states *)

(** The three logs after a transition that returns. *)
Lemma transition_logs settings email client_id new_status reason triggered_by
    campaign_id now s contact :
  List.find (Database.has_key email client_id) (Store.contacts s) = Some contact ->
  Contact.disposition_status contact = new_status ∨
    new_status ∈ StateMachine.TRANSITIONS (Contact.disposition_status contact) ->
  ∃ s', StateMachine.transition settings email client_id new_status reason triggered_by
          campaign_id now s = (s', Ok tt) ∧
        Store.disposition_history s' =
          Store.disposition_history s ++
            [DispositionHistory.mk email client_id
               (Some (Contact.disposition_status contact)) new_status reason
               triggered_by campaign_id now] ∧
        Store.client_ownership s' = Store.client_ownership s ∧
        Store.campaign_assignments s' = Store.campaign_assignments s.
Proof.
  intros Hfind Hlegal. rewrite transition_run, Hfind. cbv zeta.
  rewrite decide_True by exact Hlegal.
  match goal with |- context [StateMachine._update_company_state ?d ?o ?n ?t ?st] =>
    destruct (update_company_state_run d o n t st) as [cs Hcs]; rewrite Hcs end.
  case_decide.
  - match goal with |- context [StateMachine._suppress_company ?d ?t ?st] =>
      destruct (suppress_company_run d t st) as [cs' Hcs']; rewrite Hcs' end.
    eexists. split; [reflexivity|]. repeat split.
  - eexists. split; [reflexivity|]. repeat split.
Qed.

(** What a transition does is decided by the lookup of the contact and the
    transition map. *)
Lemma transition_outcome settings email client_id new_status reason triggered_by
    campaign_id now s s' :
  StateMachine.transition settings email client_id new_status reason triggered_by
    campaign_id now s = (s', Ok tt) ->
  ∃ contact,
    List.find (Database.has_key email client_id) (Store.contacts s) = Some contact ∧
    (Contact.disposition_status contact = new_status ∨
     new_status ∈ StateMachine.TRANSITIONS (Contact.disposition_status contact)).
Proof.
  rewrite transition_run.
  destruct (List.find _ _) as [contact|]; [|discriminate].
  cbv zeta. case_decide; [|discriminate]. eauto.
Qed.

(** X3.  A transition of a contact that does not exist raises [ValueError]
    with the message "Contact not found: <email> / <client_id>" and writes
    nothing. *)
Theorem transition_missing_contact settings email client_id new_status reason
    triggered_by campaign_id now s :
  Database.get_contact email client_id s = (s, Ok None) ->
  StateMachine.transition settings email client_id new_status reason triggered_by
    campaign_id now s =
  (s, Raised (ValueError ("Contact not found: " +:+ email +:+ " / " +:+ client_id))).
Proof.
  intros Hget. apply get_contact_find in Hget.
  rewrite transition_run, Hget. reflexivity.
Qed.

Lemma transition_missing_contact_witness :
  StateMachine.transition Settings.default "nobody@acme.com" "client_1"
    DispositionStatus.IN_SEQUENCE None "ui" None 200 one_fresh_contact =
  (one_fresh_contact,
   Raised (ValueError "Contact not found: nobody@acme.com / client_1")).
Proof. apply transition_missing_contact. reflexivity. Defined.

(** X4.  [TERMINAL_STATES] is the set of statuses the transition map gives no
    target; a contact in one of them cannot move: every request for another
    status raises [TransitionError], whose message lists no allowed target,
    and writes nothing. *)
Theorem terminal_states_are_final :
  (∀ status, status ∈ StateMachine.TERMINAL_STATES <->
             StateMachine.TRANSITIONS status = []) ∧
  (∀ settings email client_id new_status reason triggered_by campaign_id now s contact,
     Database.get_contact email client_id s = (s, Ok (Some contact)) ->
     Contact.disposition_status contact ∈ StateMachine.TERMINAL_STATES ->
     new_status ≠ Contact.disposition_status contact ->
     StateMachine.transition settings email client_id new_status reason triggered_by
       campaign_id now s =
     (s, Raised (TransitionError
           ("Illegal transition: " +:+
            DispositionStatus.value (Contact.disposition_status contact) +:+ " -> " +:+
            DispositionStatus.value new_status +:+ ". Allowed from " +:+
            DispositionStatus.value (Contact.disposition_status contact) +:+ ": []")))).
Proof.
  assert (Hterm : ∀ status, status ∈ StateMachine.TERMINAL_STATES <->
                            StateMachine.TRANSITIONS status = []).
  { intros status. unfold StateMachine.TERMINAL_STATES. split.
    - intros Hin. repeat (apply elem_of_cons in Hin as [->|Hin]; [reflexivity|]).
      inversion Hin.
    - destruct status; simpl; intros H; try discriminate H;
        repeat (first [apply list_elem_of_here | apply list_elem_of_further]). }
  split; [exact Hterm|].
  intros settings email client_id new_status reason triggered_by campaign_id now s
    contact Hget Hin Hne.
  apply get_contact_find in Hget. apply Hterm in Hin.
  rewrite transition_run, Hget. cbv zeta. rewrite Hin.
  rewrite decide_False.
  - reflexivity.
  - intros [Heq|Hel]; [congruence|inversion Hel].
Qed.

Lemma terminal_states_are_final_witness :
  let s := store_of [contact_at "w@won.com" "won.com" DispositionStatus.WON_CUSTOMER]
             Store.empty in
  StateMachine.transition Settings.default "w@won.com" "client_1"
    DispositionStatus.RETOUCH_ELIGIBLE None "ui" None 200 s =
  (s, Raised (TransitionError
        "Illegal transition: won_customer -> retouch_eligible. Allowed from won_customer: []")).
Proof.
  cbv zeta.
  apply (proj2 terminal_states_are_final Settings.default "w@won.com" "client_1"
           DispositionStatus.RETOUCH_ELIGIBLE None "ui" None 200 _
           (Database.inserted_row
              (contact_at "w@won.com" "won.com" DispositionStatus.WON_CUSTOMER) 100)).
  - reflexivity.
  - vm_compute. repeat (first [apply list_elem_of_here | apply list_elem_of_further]).
  - discriminate.
Defined.

(** X5.  A transition that returns appends one row to the disposition
    history: the key of the contact, the status the contact had, the new
    status, and the reason, trigger and campaign of the call.  It leaves the
    ownership log and the campaign assignments as they were. *)
Theorem transition_appends_one_history_row settings email client_id new_status reason
    triggered_by campaign_id now s s' :
  StateMachine.transition settings email client_id new_status reason triggered_by
    campaign_id now s = (s', Ok tt) ->
  ∃ contact,
    Database.get_contact email client_id s = (s, Ok (Some contact)) ∧
    Store.disposition_history s' =
      Store.disposition_history s ++
        [DispositionHistory.mk email client_id
           (Some (Contact.disposition_status contact)) new_status reason
           triggered_by campaign_id now] ∧
    Store.client_ownership s' = Store.client_ownership s ∧
    Store.campaign_assignments s' = Store.campaign_assignments s.
Proof.
  intros Hrun.
  destruct (transition_outcome _ _ _ _ _ _ _ _ _ _ Hrun) as (contact & Hfind & Hlegal).
  destruct (transition_logs settings email client_id new_status reason triggered_by
              campaign_id now s contact Hfind Hlegal) as (s'' & Hrun' & Hlogs).
  assert (s'' = s') by congruence. subst s''.
  exists contact. split; [now apply get_contact_find|exact Hlogs].
Qed.

Lemma transition_appends_one_history_row_witness :
  let s' := fst (StateMachine.transition Settings.default "a@acme.com" "client_1"
                   DispositionStatus.IN_SEQUENCE (Some "manual") "ui" (Some "cmp_9") 200
                   one_fresh_contact) in
  ∃ contact,
    Database.get_contact "a@acme.com" "client_1" one_fresh_contact
      = (one_fresh_contact, Ok (Some contact)) ∧
    Store.disposition_history s' =
      Store.disposition_history one_fresh_contact ++
        [DispositionHistory.mk "a@acme.com" "client_1"
           (Some (Contact.disposition_status contact)) DispositionStatus.IN_SEQUENCE
           (Some "manual") "ui" (Some "cmp_9") 200] ∧
    Store.client_ownership s' = Store.client_ownership one_fresh_contact ∧
    Store.campaign_assignments s' = Store.campaign_assignments one_fresh_contact.
Proof.
  cbv zeta.
  apply (transition_appends_one_history_row Settings.default "a@acme.com" "client_1"
           DispositionStatus.IN_SEQUENCE (Some "manual") "ui" (Some "cmp_9") 200
           one_fresh_contact).
  reflexivity.
Defined.

(** ** The company row under a transition *)

Lemma company_foldl_keeps {A} (proj : Company.t -> A) fs co :
  Forall (fun f => ∀ c, proj (Company.assign c f) = proj c) fs ->
  proj (foldl Company.assign co fs) = proj co.
Proof.
  revert co. induction fs as [|f fs IH]; intros co Hall; [reflexivity|].
  inversion Hall as [|? ? Hf Hfs]; subst. simpl. rewrite IH by exact Hfs. apply Hf.
Qed.

Lemma company_set_keeps {A} (proj : Company.t -> A) fs now co :
  (∀ c v, proj (Company.assign c (Company.updated_at_ v)) = proj c) ->
  Forall (fun f => ∀ c, proj (Company.assign c f) = proj c) fs ->
  proj (Database.company_set fs now co) = proj co.
Proof.
  intros Hup Hall. unfold Database.company_set.
  rewrite Hup. now apply company_foldl_keeps.
Qed.

(** The fields [sequence_updates] may write. *)
Lemma sequence_updates_run domain old_status new_status now s1 s2 :
  Store.companies s1 = Store.companies s2 ->
  ∃ u,
    StateMachine.sequence_updates domain old_status new_status now s1 = (s1, Ok u) ∧
    StateMachine.sequence_updates domain old_status new_status now s2 = (s2, Ok u) ∧
    Forall (fun f => match f with
                     | Company.contacts_in_sequence_ _ | Company.contacts_touched_ _
                     | Company.company_status_ _ | Company.last_contact_date_ _ => True
                     | _ => False
                     end) u.
Proof.
  intros Heq. unfold StateMachine.sequence_updates, Database.get_company. munfold.
  repeat case_decide; cbn beta; rewrite ?Heq;
    try destruct (List.find _ _); try destruct (_ && _);
    eexists; (split; [reflexivity|]); (split; [reflexivity|]);
    repeat constructor.
Qed.

(** [_update_company_state], as one [UPDATE] of the rows of the domain. *)
Lemma update_company_state_apply domain old_status new_status now s u :
  StateMachine.sequence_updates domain old_status new_status now s = (s, Ok u) ->
  StateMachine._update_company_state domain old_status new_status now s =
  (match
     (u ++
      (if decide (new_status = DispositionStatus.WON_CUSTOMER)
       then [Company.company_status_ CompanyStatus.CUSTOMER;
             Company.is_customer_ true; Company.customer_since_ now]
       else [])) ++
     (if decide (new_status = DispositionStatus.REPLIED_HARD_NO)
      then [Company.company_status_ CompanyStatus.SUPPRESSED;
            Company.company_suppressed_ true;
            Company.suppressed_reason_ "hard_no_received";
            Company.suppressed_at_ now]
      else [])
   with
   | [] => s
   | fs =>
       Store.with_companies
         (map (fun co => if Database.has_domain domain co
                         then Database.company_set fs now co else co)
              (Store.companies s)) s
   end, Ok tt).
Proof.
  intros Hu. unfold StateMachine._update_company_state.
  rewrite (bind_ok _ _ _ _ _ Hu).
  match goal with |- context [match ?l with [] => _ | _ => _ end] => set (fs := l) end.
  destruct fs as [|f fs'] eqn:Hf; [reflexivity|].
  destruct (update_company_fields_run domain (f :: fs') now s) as [r Hr]; [discriminate|].
  rewrite (bind_ok _ _ _ _ _ Hr). reflexivity.
Qed.

(** The tables after a legal transition of an existing contact to a status
    other than [REPLIED_HARD_NO]. *)
Lemma transition_tables settings email client_id new_status reason triggered_by
    campaign_id now s contact :
  List.find (Database.has_key email client_id) (Store.contacts s) = Some contact ->
  Contact.disposition_status contact = new_status ∨
    new_status ∈ StateMachine.TRANSITIONS (Contact.disposition_status contact) ->
  new_status ≠ DispositionStatus.REPLIED_HARD_NO ->
  ∃ s' u,
    StateMachine.transition settings email client_id new_status reason triggered_by
      campaign_id now s = (s', Ok tt) ∧
    StateMachine.sequence_updates (Contact.company_domain contact)
      (Contact.disposition_status contact) new_status now s = (s, Ok u) ∧
    Store.contacts s' =
      map (fun c => if Database.has_key email client_id c
                    then Database.contact_set
                           (StateMachine.transition_updates settings new_status now) now c
                    else c) (Store.contacts s) ∧
    Store.companies s' =
      match
        u ++ (if decide (new_status = DispositionStatus.WON_CUSTOMER)
              then [Company.company_status_ CompanyStatus.CUSTOMER;
                    Company.is_customer_ true; Company.customer_since_ now]
              else [])
      with
      | [] => Store.companies s
      | fs =>
          map (fun co => if Database.has_domain (Contact.company_domain contact) co
                         then Database.company_set fs now co else co)
              (Store.companies s)
      end.
Proof.
  intros Hfind Hlegal Hhard.
  rewrite transition_run, Hfind. cbv zeta.
  rewrite decide_True by exact Hlegal.
  match goal with |- context [StateMachine._update_company_state ?d ?o ?n ?t ?st] =>
    destruct (sequence_updates_run d o n t s st) as (u & Hu1 & Hu2 & _);
      [reflexivity|];
    rewrite (update_company_state_apply d o n t st u Hu2) end.
  destruct (decide (new_status = DispositionStatus.REPLIED_HARD_NO)) as [?|_];
    [contradiction|].
  rewrite app_nil_r.
  eexists _, u. split; [reflexivity|]. split; [exact Hu1|].
  destruct (u ++ _); split; reflexivity.
Qed.

(** X6.  The contact row after a legal transition to a status other than
    [REPLIED_HARD_NO]: it has the new status and [disposition_updated_at] is the
    instant of the call.  [email_cooldown_until] becomes that instant plus the
    cooldown of the target when the target has one and it is not zero
    (a zero [timedelta] is falsy); otherwise the column keeps the value it
    had, also when that cooldown is over. *)
Theorem transition_sets_cooldown settings email client_id new_status reason
    triggered_by campaign_id now s contact :
  Database.get_contact email client_id s = (s, Ok (Some contact)) ->
  new_status ∈ StateMachine.TRANSITIONS (Contact.disposition_status contact) ->
  new_status ≠ DispositionStatus.REPLIED_HARD_NO ->
  ∃ s' row,
    StateMachine.transition settings email client_id new_status reason triggered_by
      campaign_id now s = (s', Ok tt) ∧
    Database.get_contact email client_id s' = (s', Ok (Some row)) ∧
    Contact.disposition_status row = new_status ∧
    Contact.disposition_updated_at row = Some now ∧
    Contact.email_cooldown_until row =
      match StateMachine._get_cooldown settings new_status with
      | Some cooldown =>
          if cooldown =? 0 then Contact.email_cooldown_until contact
          else Some (now + cooldown)
      | None => Contact.email_cooldown_until contact
      end ∧
    (StateMachine._get_cooldown settings new_status ≠ None <->
     new_status ∈ Database.cooldown_statuses).
Proof.
  intros Hget Hlegal Hhard. apply get_contact_find in Hget.
  destruct (transition_contacts settings email client_id new_status reason triggered_by
              campaign_id now s contact Hget (or_intror Hlegal) Hhard)
    as (s' & Hrun & Hcontacts).
  exists s', (Database.contact_set
                (StateMachine.transition_updates settings new_status now) now contact).
  split; [exact Hrun|]. split.
  { apply get_contact_find. rewrite Hcontacts.
    rewrite find_map_same by (intros x; apply has_key_contact_set).
    now rewrite Hget. }
  split; [apply transition_updates_status|].
  split.
  { unfold StateMachine.transition_updates, Database.contact_set.
    destruct contact, new_status; simpl; repeat (destruct (_ =? 0); simpl); reflexivity. }
  split.
  { unfold StateMachine.transition_updates, Database.contact_set.
    destruct contact, new_status; simpl; repeat (destruct (_ =? 0); simpl); reflexivity. }
  unfold Database.cooldown_statuses. split.
  - destruct new_status; simpl; intros H; try congruence;
      repeat (first [apply list_elem_of_here | apply list_elem_of_further]).
  - intros Hin. repeat (apply elem_of_cons in Hin as [->|Hin]; [discriminate|]).
    inversion Hin.
Qed.

Lemma transition_sets_cooldown_witness :
  let s := fst (StateMachine.transition Settings.default "a@acme.com" "client_1"
                  DispositionStatus.IN_SEQUENCE None "ui" None 200 one_fresh_contact) in
  ∃ s' row,
    StateMachine.transition Settings.default "a@acme.com" "client_1"
      DispositionStatus.REPLIED_NEUTRAL None "ui" None 1000 s = (s', Ok tt) ∧
    Database.get_contact "a@acme.com" "client_1" s' = (s', Ok (Some row)) ∧
    Contact.disposition_status row = DispositionStatus.REPLIED_NEUTRAL ∧
    Contact.email_cooldown_until row = Some (1000 + 45 * 86400).
Proof.
  cbv zeta.
  destruct (transition_sets_cooldown Settings.default "a@acme.com" "client_1"
              DispositionStatus.REPLIED_NEUTRAL None "ui" None 1000
              (fst (StateMachine.transition Settings.default "a@acme.com" "client_1"
                      DispositionStatus.IN_SEQUENCE None "ui" None 200 one_fresh_contact))
              (Database.contact_set
                 (StateMachine.transition_updates Settings.default
                    DispositionStatus.IN_SEQUENCE 200) 200
                 (Database.inserted_row
                    (Contact.mk "a@acme.com" "client_1" "acme.com" DispositionStatus.FRESH
                       None None None None None false false false None 0 None) 100)))
    as (s' & row & Hrun & Hget & Hstatus & _ & Hcool & _).
  - reflexivity.
  - vm_compute. repeat (first [apply list_elem_of_here | apply list_elem_of_further]).
  - discriminate.
  - exists s', row. repeat split; assumption.
Defined.

Lemma company_find_after_update domain fs now (l : list Company.t) :
  List.find (Database.has_domain domain)
    (map (fun co => if Database.has_domain domain co
                    then Database.company_set fs now co else co) l) =
  Database.company_set fs now <$> List.find (Database.has_domain domain) l.
Proof. apply find_map_same. intros x. apply has_domain_company_set. Qed.

Ltac in_list := repeat (first [apply list_elem_of_here | apply list_elem_of_further]).

Lemma sequence_updates_fields domain old_status new_status now s u :
  StateMachine.sequence_updates domain old_status new_status now s = (s, Ok u) ->
  Forall (fun f => match f with
                   | Company.contacts_in_sequence_ _ | Company.contacts_touched_ _
                   | Company.company_status_ _ | Company.last_contact_date_ _ => True
                   | _ => False
                   end) u.
Proof.
  intros Hu.
  destruct (sequence_updates_run domain old_status new_status now s s eq_refl)
    as (u' & Hu' & _ & Hall).
  congruence.
Qed.

(** X7.  A bounce or an unsubscribe suppresses the e-mail channel of the
    contact and nothing else: the row has [email_suppressed] set and keeps its
    LinkedIn and phone flags, the rows of other keys are the rows the table
    held, and no company changes its [company_suppressed] flag. *)
Theorem bounce_suppresses_email_only settings email client_id new_status reason
    triggered_by campaign_id now s contact :
  Database.get_contact email client_id s = (s, Ok (Some contact)) ->
  new_status ∈ [DispositionStatus.BOUNCED; DispositionStatus.UNSUBSCRIBED] ->
  new_status ∈ StateMachine.TRANSITIONS (Contact.disposition_status contact) ->
  ∃ s' row,
    StateMachine.transition settings email client_id new_status reason triggered_by
      campaign_id now s = (s', Ok tt) ∧
    Database.get_contact email client_id s' = (s', Ok (Some row)) ∧
    Contact.disposition_status row = new_status ∧
    Contact.email_suppressed row = true ∧
    Contact.linkedin_suppressed row = Contact.linkedin_suppressed contact ∧
    Contact.phone_suppressed row = Contact.phone_suppressed contact ∧
    (∀ c, c ∈ Store.contacts s' -> Contact.key c ≠ (email, client_id) ->
          c ∈ Store.contacts s) ∧
    (Company.company_suppressed <$> Store.companies s') =
      (Company.company_suppressed <$> Store.companies s).
Proof.
  intros Hget Hin Hlegal. apply get_contact_find in Hget.
  assert (Hhard : new_status ≠ DispositionStatus.REPLIED_HARD_NO).
  { intros ->. repeat (apply elem_of_cons in Hin as [Hin|Hin]; [discriminate|]).
    inversion Hin. }
  assert (Hwon : new_status ≠ DispositionStatus.WON_CUSTOMER).
  { intros ->. repeat (apply elem_of_cons in Hin as [Hin|Hin]; [discriminate|]).
    inversion Hin. }
  destruct (transition_tables settings email client_id new_status reason triggered_by
              campaign_id now s contact Hget (or_intror Hlegal) Hhard)
    as (s' & u & Hrun & Hu & Hcontacts & Hcompanies).
  exists s', (Database.contact_set
                (StateMachine.transition_updates settings new_status now) now contact).
  split; [exact Hrun|]. split.
  { apply get_contact_find. rewrite Hcontacts.
    rewrite find_map_same by (intros x; apply has_key_contact_set).
    now rewrite Hget. }
  split; [apply transition_updates_status|].
  assert (Hrow : ∀ P : Contact.t -> Prop,
            (∀ st, st ∈ [DispositionStatus.BOUNCED; DispositionStatus.UNSUBSCRIBED] ->
               P (Database.contact_set
                    (StateMachine.transition_updates settings st now) now contact)) ->
            P (Database.contact_set
                 (StateMachine.transition_updates settings new_status now) now contact)).
  { intros P HP. apply HP. exact Hin. }
  split.
  { apply Hrow. intros st Hst.
    repeat (apply elem_of_cons in Hst as [->|Hst]; [destruct contact; reflexivity|]).
    inversion Hst. }
  split.
  { apply Hrow. intros st Hst.
    repeat (apply elem_of_cons in Hst as [->|Hst]; [destruct contact; reflexivity|]).
    inversion Hst. }
  split.
  { apply Hrow. intros st Hst.
    repeat (apply elem_of_cons in Hst as [->|Hst]; [destruct contact; reflexivity|]).
    inversion Hst. }
  split.
  { intros c Hc Hkey. rewrite Hcontacts in Hc.
    apply list_elem_of_fmap in Hc as (c0 & -> & Hc0).
    destruct (Database.has_key email client_id c0) eqn:Hk; [|exact Hc0].
    exfalso. apply Hkey. rewrite contact_set_key. now apply has_key_spec. }
  rewrite Hcompanies.
  destruct (decide (new_status = DispositionStatus.WON_CUSTOMER)) as [?|_];
    [contradiction|].
  rewrite app_nil_r. apply sequence_updates_fields in Hu.
  destruct u as [|f u']; [reflexivity|].
  rewrite <- list_fmap_compose. apply list_fmap_ext. intros i co _. simpl.
  destruct (Database.has_domain _ co); [|reflexivity].
  apply company_set_keeps; [intros c v; destruct c; reflexivity|].
  eapply Forall_impl; [exact Hu|].
  intros f0 Hf c; destruct f0; try contradiction; destruct c; reflexivity.
Qed.

Lemma bounce_suppresses_email_only_witness :
  ∃ s' row,
    StateMachine.transition Settings.default "a@acme.com" "client_1"
      DispositionStatus.BOUNCED None "webhook" None 300 acme_store = (s', Ok tt) ∧
    Database.get_contact "a@acme.com" "client_1" s' = (s', Ok (Some row)) ∧
    Contact.email_suppressed row = true ∧
    Contact.linkedin_suppressed row = false ∧
    Contact.phone_suppressed row = false ∧
    (Company.company_suppressed <$> Store.companies s') = [false].
Proof.
  destruct (bounce_suppresses_email_only Settings.default "a@acme.com" "client_1"
              DispositionStatus.BOUNCED None "webhook" None 300 acme_store
              (Database.contact_set
                 (StateMachine.transition_updates Settings.default
                    DispositionStatus.IN_SEQUENCE 200) 200
                 (Database.inserted_row
                    (Contact.mk "a@acme.com" "client_1" "acme.com" DispositionStatus.FRESH
                       None None None None None false false false None 0 None) 100)))
    as (s' & row & Hrun & Hget & _ & He & Hl & Hp & _ & Hco).
  - reflexivity.
  - in_list.
  - vm_compute. in_list.
  - exists s', row. repeat split; assumption.
Defined.

(** X8.  A contact won as a customer marks its company: after the transition
    to [WON_CUSTOMER] the company row of the contact's domain has
    [is_customer] set, status [CUSTOMER] and [customer_since] at the instant
    of the call; its suppression flag and its contact total are kept. *)
Theorem won_customer_marks_company settings email client_id reason triggered_by
    campaign_id now s contact company :
  Database.get_contact email client_id s = (s, Ok (Some contact)) ->
  DispositionStatus.WON_CUSTOMER
    ∈ StateMachine.TRANSITIONS (Contact.disposition_status contact) ->
  Database.get_company (Contact.company_domain contact) s = (s, Ok (Some company)) ->
  ∃ s' company',
    StateMachine.transition settings email client_id DispositionStatus.WON_CUSTOMER
      reason triggered_by campaign_id now s = (s', Ok tt) ∧
    Database.get_company (Contact.company_domain contact) s' = (s', Ok (Some company')) ∧
    Company.is_customer company' = true ∧
    Company.company_status company' = CompanyStatus.CUSTOMER ∧
    Company.customer_since company' = Some now ∧
    Company.company_suppressed company' = Company.company_suppressed company ∧
    Company.contacts_total company' = Company.contacts_total company.
Proof.
  intros Hget Hlegal Hco.
  apply get_contact_find in Hget. apply get_company_find in Hco.
  destruct (transition_tables settings email client_id DispositionStatus.WON_CUSTOMER
              reason triggered_by campaign_id now s contact Hget (or_intror Hlegal))
    as (s' & u & Hrun & Hu & _ & Hcompanies); [discriminate|].
  apply sequence_updates_fields in Hu.
  rewrite decide_True in Hcompanies by reflexivity.
  set (fs := u ++ [Company.company_status_ CompanyStatus.CUSTOMER;
                   Company.is_customer_ true; Company.customer_since_ now]) in *.
  assert (Hc' : Store.companies s' =
            map (fun co => if Database.has_domain (Contact.company_domain contact) co
                           then Database.company_set fs now co else co)
                (Store.companies s)).
  { rewrite Hcompanies. destruct fs as [|f fs'] eqn:Hfs; [|reflexivity].
    subst fs. apply app_eq_nil in Hfs as [_ Hfs]. discriminate. }
  exists s', (Database.company_set fs now company).
  split; [exact Hrun|]. split.
  { apply get_company_find. rewrite Hc', company_find_after_update, Hco. reflexivity. }
  unfold Database.company_set. subst fs. rewrite foldl_app. simpl.
  split; [destruct (foldl Company.assign company u); reflexivity|].
  split; [destruct (foldl Company.assign company u); reflexivity|].
  split; [destruct (foldl Company.assign company u); reflexivity|].
  split.
  - transitivity (Company.company_suppressed (foldl Company.assign company u)).
    + destruct (foldl Company.assign company u); reflexivity.
    + apply company_foldl_keeps. eapply Forall_impl; [exact Hu|].
      intros f Hf c; destruct f; try contradiction; destruct c; reflexivity.
  - transitivity (Company.contacts_total (foldl Company.assign company u)).
    + destruct (foldl Company.assign company u); reflexivity.
    + apply company_foldl_keeps. eapply Forall_impl; [exact Hu|].
      intros f Hf c; destruct f; try contradiction; destruct c; reflexivity.
Qed.

Lemma won_customer_marks_company_witness :
  ∃ s' company',
    StateMachine.transition Settings.default "a@acme.com" "client_1"
      DispositionStatus.WON_CUSTOMER None "crm" None 500 replied_positive_store
      = (s', Ok tt) ∧
    Database.get_company "acme.com" s' = (s', Ok (Some company')) ∧
    Company.is_customer company' = true ∧
    Company.company_status company' = CompanyStatus.CUSTOMER ∧
    Company.customer_since company' = Some 500.
Proof.
  edestruct (won_customer_marks_company Settings.default "a@acme.com" "client_1"
               None "crm" None 500 replied_positive_store)
    as (s' & company' & Hrun & Hget & Hc & Hs & Hsince & _).
  - reflexivity.
  - vm_compute. in_list.
  - reflexivity.
  - exists s', company'. repeat split; assumption.
Defined.

Lemma sequence_updates_entering domain old_status now s first :
  List.find (Database.has_domain domain) (Store.companies s) = Some first ->
  StateMachine.sequence_updates domain old_status DispositionStatus.IN_SEQUENCE now s =
  (s, Ok [Company.contacts_in_sequence_ (Company.contacts_in_sequence first + 1);
          Company.contacts_touched_ (Company.contacts_touched first + 1);
          Company.company_status_ CompanyStatus.ACTIVE;
          Company.last_contact_date_ now]).
Proof.
  intros Hfind. unfold StateMachine.sequence_updates, Database.get_company. munfold.
  rewrite decide_True by reflexivity. cbn beta. now rewrite Hfind.
Qed.

Lemma sequence_updates_leaving domain new_status now s first :
  new_status ≠ DispositionStatus.IN_SEQUENCE ->
  List.find (Database.has_domain domain) (Store.companies s) = Some first ->
  StateMachine.sequence_updates domain DispositionStatus.IN_SEQUENCE new_status now s =
  (s, Ok (Company.contacts_in_sequence_
            (py_max 0 (Company.contacts_in_sequence first - 1)) ::
          if (py_max 0 (Company.contacts_in_sequence first - 1) =? 0)
             && (0 <? Company.contacts_touched first)
          then [Company.company_status_ CompanyStatus.COOLING] else [])).
Proof.
  intros Hne Hfind. unfold StateMachine.sequence_updates, Database.get_company. munfold.
  rewrite decide_False by exact Hne. rewrite decide_True by reflexivity.
  cbn beta. now rewrite Hfind.
Qed.

(** X9.  A contact entering a sequence: after a legal transition to
    [IN_SEQUENCE] the company row of the contact's domain counts one more
    contact in sequence and one more contact touched, has status [ACTIVE] and
    [last_contact_date] at the instant of the call; the owner and the contact
    total are kept. *)
Theorem entering_sequence_activates_company settings email client_id reason
    triggered_by campaign_id now s contact company :
  Database.get_contact email client_id s = (s, Ok (Some contact)) ->
  DispositionStatus.IN_SEQUENCE
    ∈ StateMachine.TRANSITIONS (Contact.disposition_status contact) ->
  Database.get_company (Contact.company_domain contact) s = (s, Ok (Some company)) ->
  ∃ s' company',
    StateMachine.transition settings email client_id DispositionStatus.IN_SEQUENCE
      reason triggered_by campaign_id now s = (s', Ok tt) ∧
    Database.get_company (Contact.company_domain contact) s' = (s', Ok (Some company')) ∧
    Company.contacts_in_sequence company' = Company.contacts_in_sequence company + 1 ∧
    Company.contacts_touched company' = Company.contacts_touched company + 1 ∧
    Company.company_status company' = CompanyStatus.ACTIVE ∧
    Company.last_contact_date company' = Some now ∧
    Company.client_owner_id company' = Company.client_owner_id company ∧
    Company.contacts_total company' = Company.contacts_total company.
Proof.
  intros Hget Hlegal Hco.
  apply get_contact_find in Hget. apply get_company_find in Hco.
  destruct (transition_tables settings email client_id DispositionStatus.IN_SEQUENCE
              reason triggered_by campaign_id now s contact Hget (or_intror Hlegal))
    as (s' & u & Hrun & Hu & _ & Hcompanies); [discriminate|].
  rewrite (sequence_updates_entering _ _ _ _ _ Hco) in Hu.
  injection Hu as <-.
  rewrite decide_False in Hcompanies by discriminate. simpl in Hcompanies.
  eexists s', _. split; [exact Hrun|]. split.
  { apply get_company_find. rewrite Hcompanies, company_find_after_update, Hco.
    reflexivity. }
  destruct company; repeat split; reflexivity.
Qed.

Lemma entering_sequence_activates_company_witness :
  ∃ s' company',
    StateMachine.transition Settings.default "a@acme.com" "client_1"
      DispositionStatus.IN_SEQUENCE None "ui" None 200 one_fresh_contact = (s', Ok tt) ∧
    Database.get_company "acme.com" s' = (s', Ok (Some company')) ∧
    Company.contacts_in_sequence company' = 1 ∧
    Company.contacts_touched company' = 1 ∧
    Company.company_status company' = CompanyStatus.ACTIVE ∧
    Company.last_contact_date company' = Some 200.
Proof.
  edestruct (entering_sequence_activates_company Settings.default "a@acme.com"
               "client_1" None "ui" None 200 one_fresh_contact)
    as (s' & company' & Hrun & Hget & Hseq & Ht & Hst & Hd & _).
  - reflexivity.
  - vm_compute. in_list.
  - reflexivity.
  - exists s', company'. repeat split; assumption.
Defined.

(** X10.  A contact leaving a sequence for a status other than
    [REPLIED_HARD_NO]: the company counter of contacts in sequence goes down by
    one and never below zero.  When it reaches zero and the company has been
    touched, the company status becomes [COOLING]; otherwise the status is
    kept.  The number of contacts touched is kept. *)
Theorem leaving_sequence_cools_company settings email client_id new_status reason
    triggered_by campaign_id now s contact company :
  Database.get_contact email client_id s = (s, Ok (Some contact)) ->
  Contact.disposition_status contact = DispositionStatus.IN_SEQUENCE ->
  new_status ∈ StateMachine.TRANSITIONS DispositionStatus.IN_SEQUENCE ->
  new_status ≠ DispositionStatus.REPLIED_HARD_NO ->
  Database.get_company (Contact.company_domain contact) s = (s, Ok (Some company)) ->
  ∃ s' company',
    StateMachine.transition settings email client_id new_status reason triggered_by
      campaign_id now s = (s', Ok tt) ∧
    Database.get_company (Contact.company_domain contact) s' = (s', Ok (Some company')) ∧
    Company.contacts_in_sequence company' =
      Z.max 0 (Company.contacts_in_sequence company - 1) ∧
    Company.contacts_touched company' = Company.contacts_touched company ∧
    (Company.contacts_in_sequence company <= 1 -> 0 < Company.contacts_touched company ->
     Company.company_status company' = CompanyStatus.COOLING) ∧
    (1 < Company.contacts_in_sequence company ∨ Company.contacts_touched company <= 0 ->
     Company.company_status company' = Company.company_status company).
Proof.
  intros Hget Hstatus Hlegal Hhard Hco.
  apply get_contact_find in Hget. apply get_company_find in Hco.
  assert (Hne : new_status ≠ DispositionStatus.IN_SEQUENCE ∧
                new_status ≠ DispositionStatus.WON_CUSTOMER).
  { split; intros ->; simpl in Hlegal;
      repeat (apply elem_of_cons in Hlegal as [Hlegal|Hlegal]; [discriminate|]);
      inversion Hlegal. }
  destruct Hne as [Hseq Hwon].
  destruct (transition_tables settings email client_id new_status reason triggered_by
              campaign_id now s contact Hget) as (s' & u & Hrun & Hu & _ & Hcompanies).
  { right. now rewrite Hstatus. }
  { exact Hhard. }
  rewrite Hstatus, (sequence_updates_leaving _ _ _ _ _ Hseq Hco) in Hu.
  injection Hu as <-.
  destruct (decide (new_status = DispositionStatus.WON_CUSTOMER)) as [?|_];
    [contradiction|].
  rewrite app_nil_r in Hcompanies. cbn iota in Hcompanies.
  eexists s', _. split; [exact Hrun|]. split.
  { apply get_company_find. rewrite Hcompanies, company_find_after_update, Hco.
    reflexivity. }
  assert (Hmax : py_max 0 (Company.contacts_in_sequence company - 1) =
                 Z.max 0 (Company.contacts_in_sequence company - 1)).
  { unfold py_max. destruct (Z.ltb_spec 0 (Company.contacts_in_sequence company - 1)); lia. }
  split.
  { rewrite <- Hmax. destruct company, (_ && _); reflexivity. }
  split.
  { destruct company, (_ && _); reflexivity. }
  split.
  - intros Hle Hpos.
    replace (py_max 0 (Company.contacts_in_sequence company - 1) =? 0) with true
      by (symmetry; apply Z.eqb_eq; lia).
    replace (0 <? Company.contacts_touched company) with true
      by (symmetry; apply Z.ltb_lt; lia).
    destruct company; reflexivity.
  - intros Hor.
    replace ((py_max 0 (Company.contacts_in_sequence company - 1) =? 0)
             && (0 <? Company.contacts_touched company)) with false.
    + destruct company; reflexivity.
    + symmetry. apply andb_false_iff. destruct Hor as [Hgt|Hle].
      * left. apply Z.eqb_neq. lia.
      * right. apply Z.ltb_ge. lia.
Qed.

Lemma leaving_sequence_cools_company_witness :
  ∃ s' company',
    StateMachine.transition Settings.default "a@acme.com" "client_1"
      DispositionStatus.COMPLETED_NO_RESPONSE None "system" None 300 acme_store
      = (s', Ok tt) ∧
    Database.get_company "acme.com" s' = (s', Ok (Some company')) ∧
    Company.contacts_in_sequence company' = 0 ∧
    Company.company_status company' = CompanyStatus.COOLING.
Proof.
  edestruct (leaving_sequence_cools_company Settings.default "a@acme.com" "client_1"
               DispositionStatus.COMPLETED_NO_RESPONSE None "system" None 300 acme_store)
    as (s' & company' & Hrun & Hget & Hseq & _ & Hcool & _).
  - reflexivity.
  - reflexivity.
  - in_list.
  - discriminate.
  - reflexivity.
  - exists s', company'. split; [exact Hrun|]. split; [exact Hget|].
    split; [exact Hseq|]. apply Hcool; vm_compute; [discriminate|reflexivity].
Defined.

(** ** The maintenance sweeps *)

Lemma key_in_find email client_id (l : list Contact.t) :
  (email, client_id) ∈ map Contact.key l ->
  ∃ r, List.find (Database.has_key email client_id) l = Some r.
Proof.
  intros Hin. destruct (List.find _ l) as [r|] eqn:Hfind; [eauto|].
  apply find_none_key in Hfind. contradiction.
Qed.

(** A transition, whatever its outcome, keeps the keys and the domains of
    the contact rows. *)
Lemma transition_keys settings email client_id new_status reason triggered_by
    campaign_id now s :
  let s' := fst (StateMachine.transition settings email client_id new_status reason
                   triggered_by campaign_id now s) in
  map Contact.key (Store.contacts s') = map Contact.key (Store.contacts s) ∧
  map Contact.company_domain (Store.contacts s') =
    map Contact.company_domain (Store.contacts s).
Proof.
  cbv zeta.
  destruct (List.find (Database.has_key email client_id) (Store.contacts s))
    as [contact|] eqn:Hfind.
  - destruct (decide (Contact.disposition_status contact = new_status ∨
                      new_status ∈ StateMachine.TRANSITIONS
                                     (Contact.disposition_status contact)))
      as [Hlegal|Hillegal].
    + destruct (transition_shape settings email client_id new_status reason triggered_by
                  campaign_id now s contact Hfind Hlegal)
        as (s' & g & h & Hrun & Hg & Hcontacts & _).
      rewrite Hrun. simpl. rewrite Hcontacts, !map_map.
      split; apply map_ext; intros r; destruct (Hg (if Database.has_key email client_id r
        then Database.contact_set
               (StateMachine.transition_updates settings new_status now) now r
        else r)) as (Hk & Hd & _).
      * rewrite Hk. destruct (Database.has_key email client_id r);
          [apply contact_set_key|reflexivity].
      * rewrite Hd. destruct (Database.has_key email client_id r);
          [apply contact_set_domain|reflexivity].
    + rewrite transition_run, Hfind. cbv zeta. rewrite decide_False by exact Hillegal.
      split; reflexivity.
  - rewrite transition_run, Hfind. split; reflexivity.
Qed.

(** One iteration of a sweep: the transition of a row the store holds either
    returns, and the row is counted, or raises [TransitionError], which is
    swallowed with nothing written. *)
Lemma sweep_iteration settings target reason now c count s :
  Contact.key c ∈ map Contact.key (Store.contacts s) ->
  ∃ s1 n,
    try_except
      (StateMachine.transition settings (Contact.email c) (Contact.client_id c) target
         (Some reason) "system" None now;;
       mret (count + 1))
      (StateMachine.swallow_transition_error (mret count)) s = (s1, Ok n) ∧
    count <= n <= count + 1 ∧
    map Contact.key (Store.contacts s1) = map Contact.key (Store.contacts s).
Proof.
  intros Hin. destruct (key_in_find _ _ _ Hin) as [r Hfind].
  pose proof (transition_keys settings (Contact.email c) (Contact.client_id c) target
                (Some reason) "system" None now s) as [Hkeys _].
  destruct (decide (Contact.disposition_status r = target ∨
                    target ∈ StateMachine.TRANSITIONS (Contact.disposition_status r)))
    as [Hlegal|Hillegal].
  - destruct (transition_returns settings (Contact.email c) (Contact.client_id c) target
                (Some reason) "system" None now s r Hfind Hlegal) as [s1 Hrun].
    rewrite Hrun in Hkeys. simpl in Hkeys.
    exists s1, (count + 1). split.
    + unfold try_except. rewrite (bind_ok _ _ _ _ _ Hrun). reflexivity.
    + split; [lia|exact Hkeys].
  - exists s, count. split.
    + unfold try_except. munfold. rewrite transition_run, Hfind. cbv zeta.
      rewrite decide_False by exact Hillegal. reflexivity.
    + split; [lia|reflexivity].
Qed.

Lemma sweep_loop_returns settings target reason now l count s :
  (∀ c, c ∈ l -> Contact.key c ∈ map Contact.key (Store.contacts s)) ->
  ∃ s' n,
    StateMachine.sweep_loop settings target reason now l count s = (s', Ok n) ∧
    count <= n <= count + Z.of_nat (length l) ∧
    map Contact.key (Store.contacts s') = map Contact.key (Store.contacts s).
Proof.
  revert s count. induction l as [|c l IH]; intros s count Hin.
  - exists s, count. split; [reflexivity|]. split; [simpl; lia|reflexivity].
  - destruct (sweep_iteration settings target reason now c count s)
      as (s1 & n1 & Hstep & Hn1 & Hk1); [apply Hin, list_elem_of_here|].
    destruct (IH s1 n1) as (s' & n & Hrest & Hn & Hk).
    { intros c' Hc'. rewrite Hk1. apply Hin, list_elem_of_further, Hc'. }
    exists s', n. split.
    + cbn [StateMachine.sweep_loop]. rewrite (bind_ok _ _ _ _ _ Hstep). exact Hrest.
    + split; [rewrite length_cons; lia|congruence].
Qed.

Lemma filter_keys_in (P : Contact.t -> Prop) `{∀ c, Decision (P c)}
    (l : list Contact.t) c :
  c ∈ filter P l -> Contact.key c ∈ map Contact.key l.
Proof.
  intros Hin. apply list_elem_of_filter in Hin as [_ Hin].
  apply (list_elem_of_fmap_2 Contact.key). exact Hin.
Qed.

(** X11.  The two sweeps always return: the rows they walk come from the
    store, so no transition of the loop fails for a missing contact, and a
    [TransitionError] is swallowed.  The count returned is at most the number of
    rows selected. *)
Theorem sweeps_always_return settings now s :
  (∃ s' n,
     StateMachine.process_expired_cooldowns settings now s = (s', Ok n) ∧
     0 <= n <= Z.of_nat (length (filter (Database.expired_cooldown now)
                                   (Store.contacts s)))) ∧
  (∀ months, ∃ s' n,
     StateMachine.process_stale_data settings months now s = (s', Ok n) ∧
     0 <= n <= Z.of_nat (length (Store.contacts s))).
Proof.
  split.
  - unfold StateMachine.process_expired_cooldowns, Database.get_expired_cooldowns.
    munfold.
    destruct (sweep_loop_returns settings DispositionStatus.RETOUCH_ELIGIBLE
                "cooldown_expired" now
                (filter (Database.expired_cooldown now) (Store.contacts s)) 0 s)
      as (s' & n & Hrun & Hn & _).
    { intros c Hc. eapply filter_keys_in. exact Hc. }
    exists s', n. split; [exact Hrun|lia].
  - intros months.
    unfold StateMachine.process_stale_data, Database.get_stale_contacts.
    cbv zeta. munfold.
    match goal with |- context [StateMachine.sweep_loop _ _ ?reason _ ?l _ _] =>
      destruct (sweep_loop_returns settings DispositionStatus.STALE_DATA reason now l 0 s)
        as (s' & n & Hrun & Hn & _) end.
    { intros c Hc. eapply filter_keys_in. exact Hc. }
    exists s', n. split; [exact Hrun|].
    match type of Hn with context [length (filter ?P ?l)] =>
      pose proof (length_filter P l) end.
    lia.
Qed.

(** The contact table after the loop of the cooldown sweep. *)
Lemma sweep_loop_contacts settings now l s count :
  NoDup (map Contact.key l) ->
  (∀ c, c ∈ l ->
     ∃ r, List.find (Database.has_key (Contact.email c) (Contact.client_id c))
            (Store.contacts s) = Some r ∧
          Contact.disposition_status r ∈ Database.cooldown_statuses) ->
  ∃ s', StateMachine.sweep_loop settings DispositionStatus.RETOUCH_ELIGIBLE
          "cooldown_expired" now l count s = (s', Ok (count + Z.of_nat (length l))) ∧
        Store.contacts s' =
          map (fun r =>
                 if bool_decide (Contact.key r ∈ map Contact.key l)
                 then Database.contact_set
                        (StateMachine.transition_updates settings
                           DispositionStatus.RETOUCH_ELIGIBLE now) now r
                 else r) (Store.contacts s).
Proof.
  revert s count. induction l as [|c l IH]; intros s count Hnd Hrows.
  - exists s. split; [simpl; munfold; do 2 f_equal; lia|].
    rewrite <- (map_id (Store.contacts s)) at 1. apply map_ext. intros r.
    rewrite bool_decide_eq_false_2; [reflexivity|]. simpl. apply not_elem_of_nil.
  - simpl in Hnd. apply NoDup_cons in Hnd as [Hc Hnd].
    destruct (Hrows c) as (r & Hfind & Hst); [apply list_elem_of_here|].
    destruct (transition_contacts settings (Contact.email c) (Contact.client_id c)
      DispositionStatus.RETOUCH_ELIGIBLE (Some "cooldown_expired") "system" None now s r
      Hfind (or_intror (retouch_legal_after_cooldown _ Hst))) as (s1 & Hrun & Hcontacts);
      [discriminate|].
    cbn [StateMachine.sweep_loop].
    assert (Htry : try_except
      (StateMachine.transition settings (Contact.email c) (Contact.client_id c)
         DispositionStatus.RETOUCH_ELIGIBLE (Some "cooldown_expired") "system" None now;;
       mret (count + 1))
      (StateMachine.swallow_transition_error (mret count)) s = (s1, Ok (count + 1))).
    { unfold try_except. rewrite (bind_ok _ _ _ _ _ Hrun). reflexivity. }
    rewrite (bind_ok _ _ _ _ _ Htry).
    destruct (IH s1 (count + 1) Hnd) as (s' & Hs' & Hc').
    + intros c' Hin. destruct (Hrows c') as (r' & Hfind' & Hst');
        [apply list_elem_of_further; exact Hin|].
      exists r'. split; [|exact Hst'].
      rewrite Hcontacts. rewrite find_map_other; [exact Hfind'| |].
      * intros x. apply has_key_contact_set.
      * intros x Hx Hx'. apply has_key_spec in Hx, Hx'.
        apply Hc.
        replace (Contact.key c) with (Contact.key c')
          by (unfold Contact.key in *; congruence).
        apply (list_elem_of_fmap_2 Contact.key). exact Hin.
    + exists s'. split; [rewrite Hs'; do 2 f_equal; rewrite length_cons; lia|].
      rewrite Hc', Hcontacts, map_map. apply map_ext. intros x.
      destruct (Database.has_key (Contact.email c) (Contact.client_id c) x) eqn:Hk.
      * apply has_key_spec in Hk. fold (Contact.key c) in Hk.
        rewrite contact_set_key, Hk.
        rewrite (bool_decide_eq_false_2 _ Hc).
        rewrite bool_decide_eq_true_2; [reflexivity|]. simpl. apply list_elem_of_here.
      * assert (Hne : Contact.key x ≠ Contact.key c).
        { intros Heq. apply not_true_iff_false in Hk. apply Hk, has_key_spec.
          exact Heq. }
        destruct (decide (Contact.key x ∈ map Contact.key l)) as [Hin|Hnin].
        -- rewrite !bool_decide_eq_true_2; [reflexivity| |exact Hin].
           simpl. apply list_elem_of_further. exact Hin.
        -- rewrite !bool_decide_eq_false_2; [reflexivity| |exact Hnin].
           simpl. intros Hin. apply elem_of_cons in Hin as [?|?]; contradiction.
Qed.

Lemma filter_none (P : Contact.t -> Prop) `{∀ c, Decision (P c)} (l : list Contact.t) :
  (∀ c, c ∈ l -> ¬ P c) -> filter P l = [].
Proof.
  intros Hall. destruct (filter P l) as [|x l'] eqn:Hf; [reflexivity|].
  assert (Hx : x ∈ filter P l) by (rewrite Hf; apply list_elem_of_here).
  apply list_elem_of_filter in Hx as [HP Hin]. destruct (Hall x Hin HP).
Qed.

(** X12.  The cooldown sweep is idempotent.  On a store whose contact rows
    have pairwise distinct keys, every row whose cooldown is over leaves the
    sweep as [RETOUCH_ELIGIBLE], the rows the sweep did not select are left as
    they were, and afterwards no row is selected: a second sweep at the same
    instant returns 0 and writes nothing. *)
Theorem expired_cooldown_sweep_is_idempotent settings now s :
  contacts_key_unique s ->
  ∃ s' n,
    StateMachine.process_expired_cooldowns settings now s = (s', Ok n) ∧
    (∀ c, c ∈ Store.contacts s -> Database.expired_cooldown now c ->
       ∃ c', c' ∈ Store.contacts s' ∧ Contact.key c' = Contact.key c ∧
             Contact.disposition_status c' = DispositionStatus.RETOUCH_ELIGIBLE) ∧
    (∀ c, c ∈ Store.contacts s -> ¬ Database.expired_cooldown now c ->
       c ∈ Store.contacts s') ∧
    Database.get_expired_cooldowns now s' = (s', Ok []) ∧
    StateMachine.process_expired_cooldowns settings now s' = (s', Ok 0).
Proof.
  intros Hnd.
  set (selected := filter (Database.expired_cooldown now) (Store.contacts s)).
  destruct (sweep_loop_contacts settings now selected s 0) as (s' & Hrun & Hcontacts).
  { apply NoDup_keys_filter. exact Hnd. }
  { intros c Hin. apply list_elem_of_filter in Hin as [[Hst _] Hin].
    exists c. split; [|exact Hst]. apply find_by_key_unique; assumption. }
  assert (Hsel : ∀ c, c ∈ Store.contacts s ->
            (Contact.key c ∈ map Contact.key selected <-> Database.expired_cooldown now c)).
  { intros c Hc. split.
    - intros Hin. apply list_elem_of_fmap in Hin as (c0 & Hk & Hc0).
      apply list_elem_of_filter in Hc0 as [Hexp Hc0].
      assert (c = c0); [|congruence].
      assert (Hf : List.find (Database.has_key (Contact.email c) (Contact.client_id c))
                     (Store.contacts s) = Some c)
        by (apply find_by_key_unique; assumption).
      assert (Hf0 : List.find (Database.has_key (Contact.email c0) (Contact.client_id c0))
                      (Store.contacts s) = Some c0)
        by (apply find_by_key_unique; assumption).
      unfold Contact.key in Hk. injection Hk as He Hcl. rewrite He, Hcl in Hf.
      congruence.
    - intros Hexp. apply (list_elem_of_fmap_2 Contact.key).
      apply list_elem_of_filter. auto. }
  assert (Hnone : filter (Database.expired_cooldown now) (Store.contacts s') = []).
  { apply filter_none. intros c' Hc' Hexp. rewrite Hcontacts in Hc'.
    apply list_elem_of_fmap in Hc' as (c & -> & Hc).
    destruct (bool_decide (Contact.key c ∈ map Contact.key selected)) eqn:Hb.
    - destruct Hexp as [Hst _]. rewrite transition_updates_status in Hst.
      unfold Database.cooldown_statuses in Hst.
      repeat (apply elem_of_cons in Hst as [Hst|Hst]; [discriminate|]).
      inversion Hst.
    - apply bool_decide_eq_false_1 in Hb. apply Hb, Hsel; assumption. }
  exists s', (Z.of_nat (length selected)).
  split.
  { unfold StateMachine.process_expired_cooldowns, Database.get_expired_cooldowns.
    munfold. exact Hrun. }
  split.
  { intros c Hc Hexp.
    exists (Database.contact_set
              (StateMachine.transition_updates settings
                 DispositionStatus.RETOUCH_ELIGIBLE now) now c).
    split; [|split; [apply contact_set_key|apply transition_updates_status]].
    rewrite Hcontacts. apply list_elem_of_fmap.
    exists c. split; [|exact Hc].
    rewrite bool_decide_eq_true_2; [reflexivity|]. apply Hsel; assumption. }
  split.
  { intros c Hc Hexp. rewrite Hcontacts. apply list_elem_of_fmap.
    exists c. split; [|exact Hc].
    rewrite bool_decide_eq_false_2; [reflexivity|]. intros Hin. apply Hexp, Hsel; assumption. }
  split.
  { unfold Database.get_expired_cooldowns, query. now rewrite Hnone. }
  unfold StateMachine.process_expired_cooldowns, Database.get_expired_cooldowns.
  munfold. rewrite Hnone. reflexivity.
Qed.

Lemma expired_cooldown_sweep_is_idempotent_witness :
  ∃ s' n,
    StateMachine.process_expired_cooldowns Settings.default 8000000 cooldown_store
      = (s', Ok n) ∧
    Database.get_expired_cooldowns 8000000 s' = (s', Ok []) ∧
    StateMachine.process_expired_cooldowns Settings.default 8000000 s' = (s', Ok 0).
Proof.
  destruct (expired_cooldown_sweep_is_idempotent Settings.default 8000000 cooldown_store)
    as (s' & n & Hrun & _ & _ & Hget & Hagain).
  - unfold contacts_key_unique. apply (bool_decide_unpack _). vm_compute. exact I.
  - exists s', n. repeat split; assumption.
Defined.

(** ** Company ownership *)

Lemma ownership_fields_row settings client_id now co :
  let co' := Database.company_set (Deconfliction.ownership_fields settings client_id now)
               now co in
  Company.client_owner_id co' = Some client_id ∧
  Company.client_owned_at co' = Some now ∧
  Company.ownership_expires_at co' =
    Some (now + timedelta_days (Settings.ownership_duration_months settings * 30)) ∧
  Company.contacts_in_sequence co' = Company.contacts_in_sequence co ∧
  Company.contacts_total co' = Company.contacts_total co ∧
  Company.company_suppressed co' = Company.company_suppressed co.
Proof. destruct co; repeat split; reflexivity. Qed.

Lemma cleared_ownership_row now co :
  let co' := Database.company_set Deconfliction.cleared_ownership now co in
  Company.domain co' = Company.domain co ∧
  Company.client_owner_id co' = None ∧
  Company.client_owned_at co' = None ∧
  Company.ownership_expires_at co' = None ∧
  Company.contacts_in_sequence co' = Company.contacts_in_sequence co ∧
  Company.contacts_total co' = Company.contacts_total co.
Proof. destruct co; repeat split; reflexivity. Qed.

(** X13.  [claim_ownership] is stricter than [check_ownership].  When a claim
    of a client succeeds, the check of that client on the store before the
    claim answers [True], at whatever instant it is asked.  The converse
    fails: the check looks at the expiry, the claim does not.  For a company
    owned by another client whose ownership has expired and which has no
    contact in sequence, [check_ownership] answers [True] while
    [claim_ownership] returns [False] and writes nothing: the company stays
    with its owner until it is released. *)
Theorem claim_is_stricter_than_check settings domain client_id now s :
  (∀ s',
     Deconfliction.claim_ownership settings domain client_id now s = (s', Ok true) ->
     ∀ instant, Deconfliction.check_ownership domain client_id instant s = (s, Ok true)) ∧
  (∀ company owner expires,
     Database.get_company domain s = (s, Ok (Some company)) ->
     Company.client_owner_id company = Some owner ->
     owner ≠ client_id ->
     Company.ownership_expires_at company = Some expires ->
     expires <= now ->
     Company.contacts_in_sequence company = 0 ->
     Deconfliction.check_ownership domain client_id now s = (s, Ok true) ∧
     Deconfliction.claim_ownership settings domain client_id now s = (s, Ok false)).
Proof.
  split.
  - intros s' Hclaim instant.
    unfold Deconfliction.claim_ownership, Deconfliction.check_ownership,
      Database.get_company in *.
    munfold.
    destruct (List.find _ _) as [company|]; [|reflexivity].
    destruct (Company.client_owner_id company) as [owner|]; [|reflexivity].
    destruct (decide (owner = client_id)) as [->|Hne]; [reflexivity|].
    rewrite bool_decide_eq_true_2 in Hclaim by exact Hne. discriminate.
  - intros company owner expires Hget Howner Hne Hexp Hle Hseq.
    apply get_company_find in Hget.
    unfold Deconfliction.claim_ownership, Deconfliction.check_ownership,
      Database.get_company.
    munfold. rewrite Hget, Howner, Hexp, Hseq.
    rewrite decide_False by exact Hne.
    rewrite bool_decide_eq_true_2 by exact Hne.
    replace (expires <=? now) with true by (symmetry; apply Z.leb_le; exact Hle).
    split; reflexivity.
Qed.

Lemma claim_is_stricter_than_check_witness :
  Deconfliction.check_ownership "acme.com" "client_1" 5 one_fresh_contact
    = (one_fresh_contact, Ok true) ∧
  Deconfliction.check_ownership "zeta.io" "client_2" 1000 zeta_lapsed_store
    = (zeta_lapsed_store, Ok true) ∧
  Deconfliction.claim_ownership Settings.default "zeta.io" "client_2" 1000
    zeta_lapsed_store = (zeta_lapsed_store, Ok false).
Proof.
  split.
  - apply (proj1 (claim_is_stricter_than_check Settings.default "acme.com" "client_1"
                    200 one_fresh_contact)
             (fst (Deconfliction.claim_ownership Settings.default "acme.com"
                     "client_1" 200 one_fresh_contact))).
    reflexivity.
  - eapply (proj2 (claim_is_stricter_than_check Settings.default "zeta.io" "client_2"
                     1000 zeta_lapsed_store));
      [reflexivity|reflexivity|discriminate|reflexivity|lia|reflexivity].
Defined.

(** X14.  First claim.  A claim on an unowned company succeeds, makes the
    claimant the owner until [now + ownership_duration_months * 30] days and
    logs one [first_claim] row with no previous owner.  From then on the check
    of the owner answers [True], and the check of any other client answers
    [False] at every instant before the expiry. *)
Theorem first_claim_excludes_other_clients settings domain client_id now s company :
  Database.get_company domain s = (s, Ok (Some company)) ->
  Company.client_owner_id company = None ->
  ∃ s' company',
    Deconfliction.claim_ownership settings domain client_id now s = (s', Ok true) ∧
    Database.get_company domain s' = (s', Ok (Some company')) ∧
    Company.client_owner_id company' = Some client_id ∧
    Company.ownership_expires_at company' =
      Some (now + timedelta_days (Settings.ownership_duration_months settings * 30)) ∧
    Store.client_ownership s' =
      Store.client_ownership s ++
        [OwnershipChange.mk domain None (Some client_id) "first_claim" now] ∧
    (∀ instant,
       Deconfliction.check_ownership domain client_id instant s' = (s', Ok true)) ∧
    (∀ other instant,
       other ≠ client_id ->
       instant < now + timedelta_days (Settings.ownership_duration_months settings * 30) ->
       Deconfliction.check_ownership domain other instant s' = (s', Ok false)).
Proof.
  intros Hget Howner. apply get_company_find in Hget.
  set (fs := Deconfliction.ownership_fields settings client_id now).
  set (s1 := Store.with_companies
               (map (fun co => if Database.has_domain domain co
                               then Database.company_set fs now co else co)
                    (Store.companies s)) s).
  set (s' := Store.with_client_ownership
               (Store.client_ownership s1 ++
                  [OwnershipChange.mk domain None (Some client_id) "first_claim" now]) s1).
  assert (Hfind' : List.find (Database.has_domain domain) (Store.companies s') =
                   Some (Database.company_set fs now company)).
  { subst s' s1. cbn [Store.companies Store.with_companies Store.with_client_ownership].
    rewrite company_find_after_update, Hget. reflexivity. }
  destruct (ownership_fields_row settings client_id now company)
    as (Ho & _ & He & _).
  exists s', (Database.company_set fs now company).
  split.
  { unfold Deconfliction.claim_ownership, Database.get_company.
    unfold mbind at 1, M_bind at 1, bind at 1, query at 1. rewrite Hget, Howner.
    destruct (update_company_fields_run domain fs now s) as [r Hr]; [discriminate|].
    unfold mbind at 1, M_bind at 1, bind at 1. fold fs. rewrite Hr.
    reflexivity. }
  split; [apply get_company_find; exact Hfind'|].
  split; [exact Ho|]. split; [exact He|]. split; [reflexivity|].
  split.
  - intros instant. unfold Deconfliction.check_ownership, Database.get_company.
    munfold. rewrite Hfind'. subst fs. rewrite Ho.
    rewrite decide_True by reflexivity. reflexivity.
  - intros other instant Hne Hlt.
    unfold Deconfliction.check_ownership, Database.get_company.
    munfold. rewrite Hfind'. subst fs. rewrite Ho, He.
    rewrite decide_False by congruence.
    replace (_ <=? instant) with false by (symmetry; apply Z.leb_gt; exact Hlt).
    reflexivity.
Qed.

Lemma first_claim_excludes_other_clients_witness :
  ∃ s' company',
    Deconfliction.claim_ownership Settings.default "acme.com" "client_1" 200
      one_fresh_contact = (s', Ok true) ∧
    Company.client_owner_id company' = Some "client_1" ∧
    Deconfliction.check_ownership "acme.com" "client_2" 31104199 s' = (s', Ok false).
Proof.
  edestruct (first_claim_excludes_other_clients Settings.default "acme.com" "client_1"
               200 one_fresh_contact)
    as (s' & company' & Hrun & _ & Ho & _ & _ & _ & Hother).
  - reflexivity.
  - reflexivity.
  - exists s', company'. split; [exact Hrun|]. split; [exact Ho|].
    apply Hother; [discriminate|vm_compute; reflexivity].
Defined.

(** X15.  Release.  [release_ownership] on an owned company returns [True],
    clears the three ownership columns and logs one [manual_release] row that
    names the owner who lost the company; afterwards the check of every client
    answers [True].  On a company without an owner, and on a domain without a
    company row, it returns [False] and writes nothing. *)
Theorem release_ownership_frees_company domain now s :
  (∀ company owner,
     Database.get_company domain s = (s, Ok (Some company)) ->
     Company.client_owner_id company = Some owner ->
     ∃ s' company',
       Deconfliction.release_ownership domain now s = (s', Ok true) ∧
       Database.get_company domain s' = (s', Ok (Some company')) ∧
       Company.client_owner_id company' = None ∧
       Company.client_owned_at company' = None ∧
       Company.ownership_expires_at company' = None ∧
       Store.client_ownership s' =
         Store.client_ownership s ++
           [OwnershipChange.mk domain (Some owner) None "manual_release" now] ∧
       ∀ client_id instant,
         Deconfliction.check_ownership domain client_id instant s' = (s', Ok true)) ∧
  (∀ company,
     Database.get_company domain s = (s, Ok company) ->
     company = None ∨ (∃ co, company = Some co ∧ Company.client_owner_id co = None) ->
     Deconfliction.release_ownership domain now s = (s, Ok false)).
Proof.
  split.
  - intros company owner Hget Howner. apply get_company_find in Hget.
    set (fs := Deconfliction.cleared_ownership).
    set (s1 := Store.with_companies
                 (map (fun co => if Database.has_domain domain co
                                 then Database.company_set fs now co else co)
                      (Store.companies s)) s).
    set (s' := Store.with_client_ownership
                 (Store.client_ownership s1 ++
                    [OwnershipChange.mk domain (Some owner) None "manual_release" now])
                 s1).
    assert (Hfind' : List.find (Database.has_domain domain) (Store.companies s') =
                     Some (Database.company_set fs now company)).
    { subst s' s1. cbn [Store.companies Store.with_companies Store.with_client_ownership].
      rewrite company_find_after_update, Hget. reflexivity. }
    destruct (cleared_ownership_row now company) as (_ & Ho & Ha & He & _).
    exists s', (Database.company_set fs now company).
    split.
    { unfold Deconfliction.release_ownership, Database.get_company.
      unfold mbind at 1, M_bind at 1, bind at 1, query at 1. rewrite Hget, Howner.
      destruct (update_company_fields_run domain fs now s) as [r Hr]; [discriminate|].
      unfold mbind at 1, M_bind at 1, bind at 1. fold fs. rewrite Hr.
      reflexivity. }
    split; [apply get_company_find; exact Hfind'|].
    split; [exact Ho|]. split; [exact Ha|]. split; [exact He|].
    split; [reflexivity|].
    intros client_id instant. unfold Deconfliction.check_ownership, Database.get_company.
    munfold. rewrite Hfind'. subst fs. rewrite Ho. reflexivity.
  - intros company Hget Hcase. apply get_company_find in Hget.
    unfold Deconfliction.release_ownership, Database.get_company. munfold.
    rewrite Hget. destruct Hcase as [->|(co & -> & Hco)]; [reflexivity|].
    now rewrite Hco.
Qed.

Lemma release_ownership_frees_company_witness :
  ∃ s' company',
    Deconfliction.release_ownership "zeta.io" 1000 zeta_owned_store = (s', Ok true) ∧
    Company.client_owner_id company' = None ∧
    Store.client_ownership s' =
      [OwnershipChange.mk "zeta.io" (Some "client_1") None "manual_release" 1000] ∧
    Deconfliction.check_ownership "zeta.io" "client_2" 1001 s' = (s', Ok true).
Proof.
  edestruct (proj1 (release_ownership_frees_company "zeta.io" 1000 zeta_owned_store))
    as (s' & company' & Hrun & _ & Ho & _ & _ & Hlog & Hcheck).
  - reflexivity.
  - reflexivity.
  - exists s', company'. split; [exact Hrun|]. split; [exact Ho|].
    split; [exact Hlog|apply Hcheck].
Defined.

(** X16.  Transfer.  [transfer_ownership] does not look at the owner in
    place: on any company row it returns [True], makes the new client the
    owner with a fresh window and logs one [admin_transfer] row that names the
    previous owner, if any.  Without a company row it returns [False] and
    writes nothing. *)
Theorem transfer_ownership_overrides_owner settings domain new_client_id now s :
  (∀ company,
     Database.get_company domain s = (s, Ok (Some company)) ->
     ∃ s' company',
       Deconfliction.transfer_ownership settings domain new_client_id now s
         = (s', Ok true) ∧
       Database.get_company domain s' = (s', Ok (Some company')) ∧
       Company.client_owner_id company' = Some new_client_id ∧
       Company.client_owned_at company' = Some now ∧
       Company.ownership_expires_at company' =
         Some (now + timedelta_days (Settings.ownership_duration_months settings * 30)) ∧
       Store.client_ownership s' =
         Store.client_ownership s ++
           [OwnershipChange.mk domain (Company.client_owner_id company)
              (Some new_client_id) "admin_transfer" now]) ∧
  (Database.get_company domain s = (s, Ok None) ->
   Deconfliction.transfer_ownership settings domain new_client_id now s = (s, Ok false)).
Proof.
  split.
  - intros company Hget. apply get_company_find in Hget.
    set (fs := Deconfliction.ownership_fields settings new_client_id now).
    destruct (ownership_fields_row settings new_client_id now company)
      as (Ho & Ha & He & _).
    eexists _, (Database.company_set fs now company).
    split.
    { unfold Deconfliction.transfer_ownership, Database.get_company.
      unfold mbind at 1, M_bind at 1, bind at 1, query at 1. rewrite Hget.
      destruct (update_company_fields_run domain fs now s) as [r Hr]; [discriminate|].
      unfold mbind at 1, M_bind at 1, bind at 1. fold fs. rewrite Hr.
      reflexivity. }
    split.
    { apply get_company_find.
      cbn [Store.companies Store.with_companies Store.with_client_ownership].
      rewrite company_find_after_update, Hget. reflexivity. }
    split; [exact Ho|]. split; [exact Ha|]. split; [exact He|]. reflexivity.
  - intros Hget. apply get_company_find in Hget.
    unfold Deconfliction.transfer_ownership, Database.get_company. munfold.
    now rewrite Hget.
Qed.

Lemma transfer_ownership_overrides_owner_witness :
  ∃ s' company',
    Deconfliction.transfer_ownership Settings.default "zeta.io" "client_2" 1000
      zeta_owned_store = (s', Ok true) ∧
    Company.client_owner_id company' = Some "client_2" ∧
    Store.client_ownership s' =
      [OwnershipChange.mk "zeta.io" (Some "client_1") (Some "client_2")
         "admin_transfer" 1000].
Proof.
  edestruct (proj1 (transfer_ownership_overrides_owner Settings.default "zeta.io"
                      "client_2" 1000 zeta_owned_store))
    as (s' & company' & Hrun & _ & Ho & _ & _ & Hlog).
  - reflexivity.
  - exists s', company'. split; [exact Hrun|]. split; [exact Ho|exact Hlog].
Defined.

(** The store after the loop of [process_expired_ownerships]. *)
Lemma release_loop_run l now count s :
  Deconfliction.release_loop l now count s =
  (Store.mk (Store.contacts s)
     (map (fun co =>
             foldl (fun acc c => if Database.has_domain (Company.domain c) acc
                                 then Database.company_set
                                        Deconfliction.cleared_ownership now acc
                                 else acc) co l) (Store.companies s))
     (Store.disposition_history s)
     (Store.client_ownership s ++
        map (fun c => OwnershipChange.mk (Company.domain c) (Company.client_owner_id c)
                        None "expired" now) l)
     (Store.campaign_assignments s),
   Ok (count + Z.of_nat (length l))).
Proof.
  revert s count. induction l as [|c l IH]; intros s count.
  - simpl. munfold. rewrite map_id, app_nil_r, Z.add_0_r. destruct s; reflexivity.
  - cbn [Deconfliction.release_loop].
    destruct (update_company_fields_run (Company.domain c) Deconfliction.cleared_ownership
                now s) as [r Hr]; [discriminate|].
    rewrite (bind_ok _ _ _ _ _ Hr).
    unfold mbind at 1, M_bind at 1, bind at 1, Database.insert_ownership_change at 1,
      exec at 1.
    rewrite IH.
    cbn [Store.contacts Store.companies Store.disposition_history Store.client_ownership
         Store.campaign_assignments Store.with_companies Store.with_client_ownership].
    rewrite map_map, <- app_assoc.
    replace (count + Z.of_nat (length (c :: l))) with (count + 1 + Z.of_nat (length l))
      by (rewrite length_cons; lia).
    reflexivity.
Qed.

Lemma release_fold_domain now l co :
  Company.domain
    (foldl (fun acc c => if Database.has_domain (Company.domain c) acc
                         then Database.company_set Deconfliction.cleared_ownership now acc
                         else acc) co l) = Company.domain co.
Proof.
  revert co. induction l as [|c l IH]; intros co; [reflexivity|].
  simpl. rewrite IH. destruct (Database.has_domain _ co); [|reflexivity].
  apply company_set_domain.
Qed.

Lemma release_fold_unowned now l co :
  Company.client_owner_id co = None ->
  Company.client_owner_id
    (foldl (fun acc c => if Database.has_domain (Company.domain c) acc
                         then Database.company_set Deconfliction.cleared_ownership now acc
                         else acc) co l) = None.
Proof.
  revert co. induction l as [|c l IH]; intros co Hco; [exact Hco|].
  simpl. apply IH. destruct (Database.has_domain _ co); [|exact Hco].
  apply cleared_ownership_row.
Qed.

Lemma release_fold_listed now l co :
  Company.domain co ∈ map Company.domain l ->
  Company.client_owner_id
    (foldl (fun acc c => if Database.has_domain (Company.domain c) acc
                         then Database.company_set Deconfliction.cleared_ownership now acc
                         else acc) co l) = None.
Proof.
  revert co. induction l as [|c l IH]; intros co Hin; [inversion Hin|].
  simpl. destruct (Database.has_domain (Company.domain c) co) eqn:Hd.
  - apply release_fold_unowned, cleared_ownership_row.
  - apply IH. simpl in Hin. apply elem_of_cons in Hin as [Heq|Hin]; [|exact Hin].
    exfalso. apply not_true_iff_false in Hd. apply Hd.
    unfold Database.has_domain. apply bool_decide_eq_true_2. congruence.
Qed.

Lemma release_fold_unlisted now l co :
  Company.domain co ∉ map Company.domain l ->
  foldl (fun acc c => if Database.has_domain (Company.domain c) acc
                      then Database.company_set Deconfliction.cleared_ownership now acc
                      else acc) co l = co.
Proof.
  revert co. induction l as [|c l IH]; intros co Hnin; [reflexivity|].
  simpl. simpl in Hnin. apply not_elem_of_cons in Hnin as [Hne Hnin].
  destruct (Database.has_domain (Company.domain c) co) eqn:Hd.
  - exfalso. apply Hne. unfold Database.has_domain in Hd.
    apply bool_decide_eq_true_1 in Hd. congruence.
  - apply IH. exact Hnin.
Qed.

Lemma list_filter_none {A} (p : A -> bool) (l : list A) :
  (∀ x, x ∈ l -> p x = false) -> List.filter p l = [].
Proof.
  induction l as [|x l IH]; intros Hall; [reflexivity|].
  simpl. rewrite (Hall x) by apply list_elem_of_here.
  apply IH. intros y Hy. apply Hall, list_elem_of_further, Hy.
Qed.

(** X17.  The ownership sweep always returns the number of companies
    [get_expired_ownerships] selects; it logs one [expired] row per company,
    naming the owner released, and touches no contact row.  Afterwards no
    company is selected: a second sweep at the same instant returns 0 and
    writes nothing. *)
Theorem expired_ownership_sweep_releases_all now s :
  let expired := List.filter (Database.expired_ownership now) (Store.companies s) in
  ∃ s',
    Deconfliction.process_expired_ownerships now s = (s', Ok (Z.of_nat (length expired))) ∧
    Store.contacts s' = Store.contacts s ∧
    Store.client_ownership s' =
      Store.client_ownership s ++
        map (fun c => OwnershipChange.mk (Company.domain c) (Company.client_owner_id c)
                        None "expired" now) expired ∧
    (∀ c, c ∈ expired ->
       ∃ c', Database.get_company (Company.domain c) s' = (s', Ok (Some c')) ∧
             Company.client_owner_id c' = None) ∧
    Database.get_expired_ownerships now s' = (s', Ok []) ∧
    Deconfliction.process_expired_ownerships now s' = (s', Ok 0).
Proof.
  intros expired.
  pose proof (release_loop_run expired now 0 s) as Hrun.
  match type of Hrun with _ = (?st, _) => set (s' := st) in * end.
  assert (Hnone : List.filter (Database.expired_ownership now) (Store.companies s') = []).
  { apply list_filter_none. intros co' Hco'.
    subst s'. cbn [Store.companies] in Hco'.
    apply list_elem_of_fmap in Hco' as (co & -> & Hco).
    destruct (decide (Company.domain co ∈ map Company.domain expired)) as [Hin|Hnin].
    - unfold Database.expired_ownership. now rewrite release_fold_listed.
    - rewrite release_fold_unlisted by exact Hnin.
      destruct (Database.expired_ownership now co) eqn:Hexp; [|reflexivity].
      exfalso. apply Hnin, (list_elem_of_fmap_2 Company.domain).
      apply list_elem_of_In, filter_In. split; [apply list_elem_of_In, Hco|exact Hexp]. }
  exists s'.
  split.
  { unfold Deconfliction.process_expired_ownerships, Database.get_expired_ownerships.
    munfold. exact Hrun. }
  split; [reflexivity|]. split; [reflexivity|].
  split.
  { intros c Hc.
    assert (Hdom : Company.domain c ∈ map Company.domain expired)
      by (apply (list_elem_of_fmap_2 Company.domain); exact Hc).
    apply list_elem_of_In, filter_In in Hc as [Hc _].
    destruct (List.find (Database.has_domain (Company.domain c)) (Store.companies s'))
      as [c'|] eqn:Hfind.
    - exists c'. split; [apply get_company_find; exact Hfind|].
      apply find_some in Hfind as [Hin Hd].
      subst s'. cbn [Store.companies] in Hin.
      apply list_elem_of_In, list_elem_of_fmap in Hin as (co & -> & Hco).
      apply release_fold_listed.
      unfold Database.has_domain in Hd. apply bool_decide_eq_true_1 in Hd.
      rewrite release_fold_domain in Hd. now rewrite Hd.
    - exfalso.
      assert (Hin : foldl (fun acc c0 =>
                if Database.has_domain (Company.domain c0) acc
                then Database.company_set Deconfliction.cleared_ownership now acc
                else acc) c expired ∈ Store.companies s').
      { subst s'. cbn [Store.companies]. apply list_elem_of_fmap.
        exists c. split; [reflexivity|apply list_elem_of_In, Hc]. }
      apply list_elem_of_In in Hin.
      pose proof (find_none _ _ Hfind _ Hin) as Hf.
      unfold Database.has_domain in Hf. apply bool_decide_eq_false_1 in Hf.
      apply Hf. apply release_fold_domain. }
  split.
  { unfold Database.get_expired_ownerships, query. now rewrite Hnone. }
  unfold Deconfliction.process_expired_ownerships, Database.get_expired_ownerships.
  munfold. rewrite Hnone. reflexivity.
Qed.

(** ** The company cap and the fill result *)

Lemma domain_count_nonneg domain l : 0 <= domain_count domain l.
Proof. unfold domain_count. lia. Qed.

Lemma cap_loop_sublist contacts max_per_company counts :
  CampaignFillEngine.cap_loop contacts max_per_company counts [] `sublist_of` contacts.
Proof.
  revert counts. induction contacts as [|c rest IH]; intros counts; simpl.
  - constructor.
  - destruct (_ <? max_per_company).
    + rewrite cap_loop_result. simpl. apply sublist_skip, IH.
    + apply sublist_cons, IH.
Qed.

Lemma cap_loop_maximal contacts max_per_company counts c :
  c ∈ contacts ->
  c ∉ CampaignFillEngine.cap_loop contacts max_per_company counts [] ->
  max_per_company <=
    CampaignFillEngine.counts_get counts (Contact.company_domain c) +
    domain_count (Contact.company_domain c)
      (CampaignFillEngine.cap_loop contacts max_per_company counts []).
Proof.
  revert counts. induction contacts as [|x rest IH]; intros counts Hin Hnin;
    [inversion Hin|].
  simpl in *.
  destruct (Z.ltb_spec (CampaignFillEngine.counts_get counts (Contact.company_domain x))
              max_per_company) as [Hlt|Hge].
  - rewrite cap_loop_result in Hnin |- *. simpl in Hnin |- *.
    apply not_elem_of_cons in Hnin as [Hne Hnin].
    apply elem_of_cons in Hin as [->|Hin]; [congruence|].
    specialize (IH _ Hin Hnin). rewrite counts_get_insert in IH.
    rewrite domain_count_cons.
    destruct (decide (Contact.company_domain x = Contact.company_domain c)) as [Heq|_];
      [rewrite Heq in *|]; lia.
  - apply elem_of_cons in Hin as [->|Hin].
    + pose proof (domain_count_nonneg (Contact.company_domain x)
                    (CampaignFillEngine.cap_loop rest max_per_company counts [])).
      lia.
    + apply IH; assumption.
Qed.

(** X18.  [_apply_company_cap] is a greedy filter.  It keeps the order of the
    contacts it is given; no domain ends above the cap unless the counts it
    started from were already above it; and every contact it drops belongs to
    a domain that has reached the cap, the starting counts included. *)
Theorem apply_company_cap_is_greedy contacts max_per_company existing_counts :
  let result :=
    CampaignFillEngine._apply_company_cap contacts max_per_company existing_counts in
  result `sublist_of` contacts ∧
  (∀ domain,
     CampaignFillEngine.counts_get existing_counts domain + domain_count domain result
     <= Z.max max_per_company (CampaignFillEngine.counts_get existing_counts domain)) ∧
  (∀ c, c ∈ contacts -> c ∉ result ->
     max_per_company <=
       CampaignFillEngine.counts_get existing_counts (Contact.company_domain c) +
       domain_count (Contact.company_domain c) result).
Proof.
  cbv zeta. unfold CampaignFillEngine._apply_company_cap.
  split; [apply cap_loop_sublist|].
  split; [intros domain; apply cap_loop_bound|].
  intros c. apply cap_loop_maximal.
Qed.

Lemma tally_add_step t c :
  let t' := CampaignFillEngine.tally_add t c in
  CampaignFillEngine.fresh_count t' + CampaignFillEngine.retouch_count t' =
    CampaignFillEngine.fresh_count t + CampaignFillEngine.retouch_count t + 1 ∧
  CampaignFillEngine.fresh_count t' =
    CampaignFillEngine.fresh_count t +
    (if decide (Contact.disposition_status c = DispositionStatus.FRESH) then 1 else 0) ∧
  Z.of_nat (size (CampaignFillEngine.companies_touched t')) <=
    Z.of_nat (size (CampaignFillEngine.companies_touched t)) + 1.
Proof.
  cbv zeta.
  assert (Hle : (size (CampaignFillEngine.companies_touched t
                       ∪ {[Contact.company_domain c]}) <=
                 size (CampaignFillEngine.companies_touched t) + 1)%nat).
  { rewrite size_union_alt.
    assert (size ({[Contact.company_domain c]}
                  ∖ CampaignFillEngine.companies_touched t)
            <= size ({[Contact.company_domain c]} : gset string))%nat
      by (apply subseteq_size, subseteq_difference_l; reflexivity).
    rewrite size_singleton in *. lia. }
  unfold CampaignFillEngine.tally_add. cbv zeta.
  destruct (decide (Contact.disposition_status c = DispositionStatus.FRESH));
    simpl; repeat split; lia.
Qed.

Lemma tally_counts l t :
  let t' := foldl CampaignFillEngine.tally_add t l in
  CampaignFillEngine.fresh_count t' + CampaignFillEngine.retouch_count t' =
    CampaignFillEngine.fresh_count t + CampaignFillEngine.retouch_count t
    + Z.of_nat (length l) ∧
  CampaignFillEngine.fresh_count t' =
    CampaignFillEngine.fresh_count t +
    Z.of_nat (length (filter (fun c => Contact.disposition_status c = DispositionStatus.FRESH)
                        l)) ∧
  Z.of_nat (size (CampaignFillEngine.companies_touched t')) <=
    Z.of_nat (size (CampaignFillEngine.companies_touched t)) + Z.of_nat (length l).
Proof.
  revert t. induction l as [|c l IH]; intros t; cbv zeta.
  - simpl. lia.
  - cbn [foldl]. specialize (IH (CampaignFillEngine.tally_add t c)). cbv zeta in IH.
    destruct IH as (Hsum & Hfresh & Hsize).
    destruct (tally_add_step t c) as (Hsum1 & Hfresh1 & Hsize1).
    rewrite Hsum, Hfresh, Hsum1, Hfresh1.
    rewrite filter_cons, length_cons.
    destruct (decide (Contact.disposition_status c = DispositionStatus.FRESH));
      [rewrite length_cons|]; lia.
Qed.

(** The record [fill] returns. *)
Lemma fill_result q settings request now s s' res :
  CampaignFillEngine.fill q settings request now s = (s', Ok res) ->
  ∃ fresh retouch,
    let volume := CampaignFillRequest.volume request in
    let fresh_target :=
      CampaignFillEngine.fresh_target_of volume
        (CampaignFillEngine.ratio_of settings request) in
    let selected :=
      CampaignFillEngine.select_contacts volume fresh_target
        (CampaignFillEngine.max_per_co_of settings request) fresh retouch in
    let t := foldl CampaignFillEngine.tally_add (CampaignFillEngine.mk_tally ∅ 0 0)
               selected in
    res =
    CampaignFillResult.mk
      (CampaignFillRequest.campaign_id request) (CampaignFillRequest.client_id request)
      volume (CampaignFillEngine.len selected)
      (CampaignFillEngine.fresh_count t) (CampaignFillEngine.retouch_count t)
      (Z.of_nat (size (CampaignFillEngine.companies_touched t)))
      selected
      ((if CampaignFillEngine.len fresh <? fresh_target
        then ["Insufficient fresh leads: requested " +:+ pretty fresh_target +:+
              ", found " +:+ pretty (CampaignFillEngine.len fresh)]
        else []) ++
       (if CampaignFillEngine.len selected <? volume
        then ["Volume shortfall: requested " +:+ pretty volume +:+
              ", assigned " +:+ pretty (CampaignFillEngine.len selected)]
        else [])).
Proof.
  unfold CampaignFillEngine.fill. cbv zeta.
  unfold mbind at 1, M_bind at 1, bind at 1.
  destruct (q _ _ _ _ ["fresh"] _ _) as [s1 [fresh|e]] eqn:Hq1; [|discriminate].
  unfold mbind at 1, M_bind at 1, bind at 1.
  destruct (q _ _ _ _ ["retouch_eligible"] _ _) as [s2 [retouch|e]] eqn:Hq2;
    [|discriminate].
  unfold mbind at 1, M_bind at 1, bind at 1.
  destruct (CampaignFillEngine.assign_loop _ _ _ _ _ _ _) as [s3 [t|e]] eqn:Hloop;
    [|discriminate].
  apply assign_loop_outcome in Hloop.
  unfold mret, M_ret, ret. intros [= <- <-].
  exists fresh, retouch. subst t. reflexivity.
Qed.

Lemma select_contacts_length volume fresh_target max_per_co fresh retouch :
  0 <= fresh_target <= volume ->
  CampaignFillEngine.len
    (CampaignFillEngine.select_contacts volume fresh_target max_per_co fresh retouch)
  <= volume.
Proof.
  intros Hrange. unfold CampaignFillEngine.select_contacts. cbv zeta.
  set (sf := CampaignFillEngine._apply_company_cap fresh max_per_co ∅).
  set (sr := CampaignFillEngine._apply_company_cap retouch max_per_co _).
  rewrite (py_slice_prefix sf fresh_target) by lia.
  set (head := take (Z.to_nat fresh_target) sf).
  assert (Hhead : CampaignFillEngine.len head <= fresh_target).
  { unfold CampaignFillEngine.len. subst head. rewrite length_take. lia. }
  rewrite (py_slice_prefix sr) by lia.
  set (middle := take (Z.to_nat (volume - CampaignFillEngine.len head)) sr).
  assert (Hmid : CampaignFillEngine.len middle <= volume - CampaignFillEngine.len head).
  { unfold CampaignFillEngine.len in *. subst middle. rewrite length_take. lia. }
  assert (Hall : CampaignFillEngine.len (head ++ middle) =
                 CampaignFillEngine.len head + CampaignFillEngine.len middle).
  { unfold CampaignFillEngine.len. rewrite length_app. lia. }
  destruct (Z.ltb_spec (CampaignFillEngine.len (head ++ middle)) volume) as [Hlt|Hge];
    [|lia].
  rewrite py_slice_segment by lia.
  unfold CampaignFillEngine.len in *. rewrite length_app, length_take. lia.
Qed.

(** X19.  The record a fill returns is consistent with its contact list:
    [total_assigned] is the length of the list, the fresh and the retouch
    count add up to it, the fresh count is the number of contacts selected in
    status [FRESH], and at most that many companies are touched.  For a
    non-negative volume and a ratio between 0 and 1 the fill never assigns more
    than the volume.  The warning "Volume shortfall" is issued exactly when
    fewer contacts than the volume were assigned, and a fill of volume 0 selects
    nothing and warns of nothing. *)
Theorem fill_result_is_consistent q settings request now s s' res :
  CampaignFillEngine.fill q settings request now s = (s', Ok res) ->
  let volume := CampaignFillRequest.volume request in
  let ratio := CampaignFillEngine.ratio_of settings request in
  let assigned := CampaignFillResult.total_assigned res in
  CampaignFillResult.total_requested res = volume ∧
  assigned = CampaignFillEngine.len (CampaignFillResult.contacts res) ∧
  CampaignFillResult.fresh_count res + CampaignFillResult.retouch_count res = assigned ∧
  CampaignFillResult.fresh_count res =
    CampaignFillEngine.len
      (filter (fun c => Contact.disposition_status c = DispositionStatus.FRESH)
         (CampaignFillResult.contacts res)) ∧
  0 <= CampaignFillResult.companies_touched res <= assigned ∧
  (0 <= volume -> (0 <= ratio)%Q -> (ratio <= 1)%Q -> assigned <= volume) ∧
  (("Volume shortfall: requested " +:+ pretty volume +:+ ", assigned " +:+ pretty assigned)
     ∈ CampaignFillResult.warnings res <-> assigned < volume) ∧
  (volume = 0 ->
   CampaignFillResult.contacts res = [] ∧ CampaignFillResult.warnings res = []).
Proof.
  intros Hrun. destruct (fill_result _ _ _ _ _ _ _ Hrun) as (fresh & retouch & Hres).
  cbv zeta in *. subst res.
  cbn [CampaignFillResult.total_requested CampaignFillResult.total_assigned
       CampaignFillResult.fresh_count CampaignFillResult.retouch_count
       CampaignFillResult.companies_touched CampaignFillResult.contacts
       CampaignFillResult.warnings].
  set (volume := CampaignFillRequest.volume request).
  set (F := CampaignFillEngine.fresh_target_of volume _).
  set (selected := CampaignFillEngine.select_contacts volume F _ fresh retouch).
  destruct (tally_counts selected (CampaignFillEngine.mk_tally ∅ 0 0))
    as (Hsum & Hfresh & Hsize).
  cbn [CampaignFillEngine.fresh_count CampaignFillEngine.retouch_count
       CampaignFillEngine.companies_touched] in Hsum, Hfresh, Hsize.
  rewrite size_empty in Hsize.
  split; [reflexivity|]. split; [reflexivity|].
  split; [unfold CampaignFillEngine.len; lia|].
  split; [unfold CampaignFillEngine.len; lia|].
  split; [unfold CampaignFillEngine.len; lia|].
  split.
  { intros Hv H0 H1. apply select_contacts_length.
    apply fresh_target_range; assumption. }
  split.
  { split.
    - intros Hin. apply elem_of_app in Hin as [Hin|Hin].
      + destruct (_ <? F); [|inversion Hin].
        apply list_elem_of_singleton in Hin. simpl in Hin. discriminate Hin.
      + destruct (Z.ltb_spec (CampaignFillEngine.len selected) volume) as [Hlt|Hge];
          [exact Hlt|inversion Hin].
    - intros Hlt. apply elem_of_app. right.
      replace (CampaignFillEngine.len selected <? volume) with true
        by (symmetry; apply Z.ltb_lt; exact Hlt).
      apply list_elem_of_here. }
  intros Hzero.
  assert (HF : F = 0).
  { subst F. rewrite Hzero. unfold CampaignFillEngine.fresh_target_of, py_int.
    simpl. apply Z.quot_0_l. discriminate. }
  assert (Hsel : selected = []).
  { subst selected. rewrite HF, Hzero. unfold CampaignFillEngine.select_contacts.
    cbv zeta. rewrite !py_slice_prefix by lia. simpl. reflexivity. }
  rewrite Hsel, HF, Hzero. split; [reflexivity|].
  unfold CampaignFillEngine.len. simpl.
  destruct (Z.ltb_spec (Z.of_nat (length fresh)) 0); [lia|reflexivity].
Qed.

Lemma fill_result_is_consistent_witness :
  let run := CampaignFillEngine.fill status_query Settings.default
               (fill_request 4 (Some (1 # 2)) None) 200 blend_store in
  ∃ res, snd run = Ok res ∧
    CampaignFillResult.total_assigned res = 4 ∧
    CampaignFillResult.fresh_count res + CampaignFillResult.retouch_count res = 4 ∧
    0 <= CampaignFillResult.companies_touched res <= 4.
Proof.
  cbv zeta.
  destruct (CampaignFillEngine.fill status_query Settings.default
              (fill_request 4 (Some (1 # 2)) None) 200 blend_store)
    as [s' [res|e]] eqn:Hrun; [|vm_compute in Hrun; discriminate Hrun].
  destruct (fill_result_is_consistent _ _ _ _ _ _ _ Hrun)
    as (_ & Hlen & Hsum & _ & Htouched & _).
  assert (Hfour : CampaignFillResult.total_assigned res = 4).
  { vm_compute in Hrun. injection Hrun as _ <-. reflexivity. }
  exists res. rewrite Hfour in *. repeat split; try assumption; lia.
Defined.

(** X20.  The writes of one assignment.  When [contact] is a row of the
    store from which [IN_SEQUENCE] is a legal target and its company row
    exists, [_assign_contact] returns; the contact is then in sequence, its
    sequence count is one more than the count of the row selected, the
    last-contacted column of the channel holds the instant of the call, one
    assignment row is appended and the company counts one more contact in
    sequence.  A company without an owner is claimed for the client of the
    request, with one [first_claim] log row; a company that has an owner keeps
    it, whoever it is, and nothing is logged. *)
Theorem assign_contact_claims_only_unowned settings contact request channel now s
    company :
  Database.get_contact (Contact.email contact) (Contact.client_id contact) s
    = (s, Ok (Some contact)) ->
  DispositionStatus.IN_SEQUENCE
    ∈ StateMachine.TRANSITIONS (Contact.disposition_status contact) ->
  Database.get_company (Contact.company_domain contact) s = (s, Ok (Some company)) ->
  ∃ s' row company',
    CampaignFillEngine._assign_contact settings contact request channel now s
      = (s', Ok tt) ∧
    Database.get_contact (Contact.email contact) (Contact.client_id contact) s'
      = (s', Ok (Some row)) ∧
    Contact.disposition_status row = DispositionStatus.IN_SEQUENCE ∧
    Contact.sequence_count row = Contact.sequence_count contact + 1 ∧
    match channel with
    | Channel.EMAIL => Contact.email_last_contacted row
    | Channel.LINKEDIN => Contact.linkedin_last_contacted row
    | Channel.PHONE => Contact.phone_last_contacted row
    end = Some now ∧
    Store.campaign_assignments s' =
      Store.campaign_assignments s ++
        [CampaignAssignment.mk (Contact.email contact) (Contact.client_id contact)
           (CampaignFillRequest.campaign_id request)
           (CampaignFillRequest.client_id request) (Channel.value channel) now] ∧
    Database.get_company (Contact.company_domain contact) s'
      = (s', Ok (Some company')) ∧
    Company.contacts_in_sequence company' = Company.contacts_in_sequence company + 1 ∧
    match Company.client_owner_id company with
    | None =>
        Company.client_owner_id company' = Some (CampaignFillRequest.client_id request) ∧
        Company.ownership_expires_at company' =
          Some (now + timedelta_days (Settings.ownership_duration_months settings * 30)) ∧
        Store.client_ownership s' =
          Store.client_ownership s ++
            [OwnershipChange.mk (Contact.company_domain contact) None
               (Some (CampaignFillRequest.client_id request)) "first_claim" now]
    | Some owner =>
        Company.client_owner_id company' = Some owner ∧
        Company.ownership_expires_at company' = Company.ownership_expires_at company ∧
        Store.client_ownership s' = Store.client_ownership s
    end.
Proof.
  intros Hget Hlegal Hco.
  apply get_contact_find in Hget. apply get_company_find in Hco.
  destruct (transition_tables settings (Contact.email contact) (Contact.client_id contact)
              DispositionStatus.IN_SEQUENCE
              (Some ("assigned_to_campaign:" +:+ CampaignFillRequest.campaign_id request))
              "campaign_fill" (Some (CampaignFillRequest.campaign_id request)) now s
              contact Hget (or_intror Hlegal))
    as (s1 & u & Hrun & Hu & Hc1 & Hco1); [discriminate|].
  destruct (transition_logs settings (Contact.email contact) (Contact.client_id contact)
              DispositionStatus.IN_SEQUENCE
              (Some ("assigned_to_campaign:" +:+ CampaignFillRequest.campaign_id request))
              "campaign_fill" (Some (CampaignFillRequest.campaign_id request)) now s
              contact Hget (or_intror Hlegal))
    as (s1' & Hrun' & _ & Hown1 & Hasg1).
  assert (s1' = s1) by congruence. subst s1'. clear Hrun'.
  rewrite (sequence_updates_entering _ _ _ _ _ Hco) in Hu. injection Hu as <-.
  rewrite decide_False in Hco1 by discriminate. simpl in Hco1.
  set (entered := [Company.contacts_in_sequence_ (Company.contacts_in_sequence company + 1);
                   Company.contacts_touched_ (Company.contacts_touched company + 1);
                   Company.company_status_ CompanyStatus.ACTIVE;
                   Company.last_contact_date_ now]) in *.
  set (touch := [Contact.last_contacted_ channel now;
                 Contact.sequence_count_ (Contact.sequence_count contact + 1)]).
  set (row1 := Database.contact_set
                 (StateMachine.transition_updates settings DispositionStatus.IN_SEQUENCE now)
                 now contact).
  assert (Hfind1 : List.find (Database.has_key (Contact.email contact)
                                (Contact.client_id contact)) (Store.contacts s1)
                   = Some row1).
  { rewrite Hc1, find_map_same by (intros x; apply has_key_contact_set).
    now rewrite Hget. }
  assert (Hcofind1 : List.find (Database.has_domain (Contact.company_domain contact))
                       (Store.companies s1)
                     = Some (Database.company_set entered now company)).
  { rewrite Hco1, company_find_after_update, Hco. reflexivity. }
  destruct (update_contact_fields_run (Contact.email contact) (Contact.client_id contact)
              touch now s1) as [r Hr]; [discriminate|].
  assert (Hown : Company.client_owner_id (Database.company_set entered now company)
                 = Company.client_owner_id company ∧
                 Company.ownership_expires_at (Database.company_set entered now company)
                 = Company.ownership_expires_at company ∧
                 Company.contacts_in_sequence (Database.company_set entered now company)
                 = Company.contacts_in_sequence company + 1)
    by (destruct company; repeat split; reflexivity).
  destruct Hown as (Hown & Hexp & Hseq).
  assert (Hrow : Contact.disposition_status (Database.contact_set touch now row1)
                 = DispositionStatus.IN_SEQUENCE ∧
                 Contact.sequence_count (Database.contact_set touch now row1)
                 = Contact.sequence_count contact + 1 ∧
                 match channel with
                 | Channel.EMAIL =>
                     Contact.email_last_contacted (Database.contact_set touch now row1)
                 | Channel.LINKEDIN =>
                     Contact.linkedin_last_contacted (Database.contact_set touch now row1)
                 | Channel.PHONE =>
                     Contact.phone_last_contacted (Database.contact_set touch now row1)
                 end = Some now)
    by (destruct contact, channel; repeat split; reflexivity).
  destruct Hrow as (Hst & Hsc & Hlast).
  unfold CampaignFillEngine._assign_contact.
  rewrite (bind_ok _ _ _ _ _ Hrun). fold touch.
  rewrite (bind_ok _ _ _ _ _ Hr).
  unfold mbind at 1, M_bind at 1, bind at 1, Database.insert_assignment at 1, exec at 1.
  unfold mbind at 1, M_bind at 1, bind at 1, Database.get_company at 1, query at 1.
  cbn [Store.companies Store.with_contacts Store.with_campaign_assignments].
  rewrite Hcofind1, Hown.
  destruct (Company.client_owner_id company) as [owner|] eqn:Howner.
  - eexists _, (Database.contact_set touch now row1),
      (Database.company_set entered now company).
    split; [reflexivity|].
    split.
    { apply get_contact_find.
      cbn [Store.contacts Store.with_contacts Store.with_campaign_assignments].
      rewrite find_map_same by (intros x; apply has_key_contact_set).
      now rewrite Hfind1. }
    split; [exact Hst|]. split; [exact Hsc|]. split; [exact Hlast|].
    split; [cbn; now rewrite Hasg1|].
    split; [apply get_company_find; cbn; exact Hcofind1|].
    split; [exact Hseq|].
    split; [now rewrite Hown|]. split; [exact Hexp|]. cbn. exact Hown1.
  - set (claim := Deconfliction.ownership_fields settings
                    (CampaignFillRequest.client_id request) now).
    match goal with |- context [Store.with_campaign_assignments ?l ?st] =>
      set (s3 := Store.with_campaign_assignments l st) in * end.
    destruct (update_company_fields_run (Contact.company_domain contact) claim now s3)
      as [r' Hr']; [discriminate|].
    unfold mbind at 1, M_bind at 1, bind at 1. rewrite Hr'. subst s3.
    destruct (ownership_fields_row settings (CampaignFillRequest.client_id request) now
                (Database.company_set entered now company))
      as (Ho & _ & He & Hs & _).
    eexists _, (Database.contact_set touch now row1),
      (Database.company_set claim now (Database.company_set entered now company)).
    split; [reflexivity|].
    split.
    { apply get_contact_find.
      cbn [Store.contacts Store.with_contacts Store.with_campaign_assignments
           Store.with_companies Store.with_client_ownership].
      rewrite find_map_same by (intros x; apply has_key_contact_set).
      now rewrite Hfind1. }
    split; [exact Hst|]. split; [exact Hsc|]. split; [exact Hlast|].
    split; [cbn; now rewrite Hasg1|].
    split.
    { apply get_company_find.
      cbn [Store.companies Store.with_contacts Store.with_campaign_assignments
           Store.with_companies Store.with_client_ownership].
      rewrite company_find_after_update, Hcofind1. reflexivity. }
    split; [fold claim in Hs; rewrite Hs; exact Hseq|].
    split; [exact Ho|]. split; [exact He|]. cbn. now rewrite Hown1.
Qed.

Lemma assign_contact_claims_only_unowned_witness :
  ∃ s' row company',
    CampaignFillEngine._assign_contact Settings.default
      (Database.inserted_row
         (Contact.mk "a@acme.com" "client_1" "acme.com" DispositionStatus.FRESH
            None None None None None false false false None 0 None) 100)
      (fill_request 1 None None) Channel.EMAIL 200 one_fresh_contact = (s', Ok tt) ∧
    Contact.disposition_status row = DispositionStatus.IN_SEQUENCE ∧
    Contact.sequence_count row = 1 ∧
    Company.client_owner_id company' = Some "client_1" ∧
    Store.client_ownership s' =
      [OwnershipChange.mk "acme.com" None (Some "client_1") "first_claim" 200].
Proof.
  edestruct (assign_contact_claims_only_unowned Settings.default
               (Database.inserted_row
                  (Contact.mk "a@acme.com" "client_1" "acme.com" DispositionStatus.FRESH
                     None None None None None false false false None 0 None) 100)
               (fill_request 1 None None) Channel.EMAIL 200 one_fresh_contact)
    as (s' & row & company' & Hrun & _ & Hst & Hsc & _ & _ & _ & _ & Hown).
  - reflexivity.
  - vm_compute. in_list.
  - reflexivity.
  - simpl in Hown. destruct Hown as (Ho & _ & Hlog).
    exists s', row, company'. repeat split; assumption.
Defined.

(** ** Bulk inserts and the write-back of external leads *)

Lemma bulk_create_loop_cons c rest now inserted s :
  Database.bulk_create_loop (c :: rest) now inserted s =
  let s0 := if existsb (Database.has_domain (Contact.company_domain c)) (Store.companies s)
            then s
            else Store.with_companies
                   (Store.companies s ++ [Company.default (Contact.company_domain c) now])
                   s in
  match List.find (Database.has_key (Contact.email c) (Contact.client_id c))
          (Store.contacts s0) with
  | Some _ => Database.bulk_create_loop rest now inserted s0
  | None =>
      Database.bulk_create_loop rest now (inserted + 1)
        (Store.with_companies
           (map (fun co =>
                   if Database.has_domain (Contact.company_domain c) co
                   then Company.assign co
                          (Company.contacts_total_ (Company.contacts_total co + 1))
                   else co) (Store.companies s0))
           (Store.with_contacts
              (Store.contacts s0 ++ [Database.inserted_row c now]) s0))
  end.
Proof.
  cbn [Database.bulk_create_loop].
  unfold Database._ensure_company, Database.get_contact, Database.bump_contacts_total.
  unfold mbind at 1, M_bind at 1, bind at 1, exec at 1.
  unfold mbind at 1, M_bind at 1, bind at 1, query at 1.
  cbv zeta. destruct (List.find _ _); reflexivity.
Qed.

Lemma ensured_company domain now s :
  let s0 := if existsb (Database.has_domain domain) (Store.companies s)
            then s
            else Store.with_companies
                   (Store.companies s ++ [Company.default domain now]) s in
  Store.contacts s0 = Store.contacts s ∧
  Store.disposition_history s0 = Store.disposition_history s ∧
  Store.client_ownership s0 = Store.client_ownership s ∧
  Store.campaign_assignments s0 = Store.campaign_assignments s ∧
  domain ∈ map Company.domain (Store.companies s0) ∧
  (∀ d, d ∈ map Company.domain (Store.companies s) ->
        d ∈ map Company.domain (Store.companies s0)).
Proof.
  cbv zeta. destruct (existsb _ _) eqn:Hex.
  - repeat split; auto.
    apply existsb_exists in Hex as (co & Hin & Hd).
    unfold Database.has_domain in Hd. apply bool_decide_eq_true_1 in Hd.
    rewrite <- Hd. apply (list_elem_of_fmap_2 Company.domain), list_elem_of_In, Hin.
  - repeat split; cbn [Store.companies Store.with_companies]; rewrite ?map_app.
    + apply elem_of_app. right. apply list_elem_of_here.
    + intros d Hd. apply elem_of_app. left. exact Hd.
Qed.

Lemma bumped_domains domain (l : list Company.t) :
  map Company.domain
    (map (fun co => if Database.has_domain domain co
                    then Company.assign co
                           (Company.contacts_total_ (Company.contacts_total co + 1))
                    else co) l) = map Company.domain l.
Proof.
  rewrite map_map. apply map_ext. intros co.
  destruct (Database.has_domain domain co); [apply company_assign_domain|reflexivity].
Qed.

(** The loop of [bulk_create_contacts]: it returns, counts the rows it
    appended, only adds keys and domains, and leaves every contact of its
    argument with a row of its key and a company of its domain. *)
Lemma bulk_create_loop_spec contacts now inserted s :
  ∃ s' n,
    Database.bulk_create_loop contacts now inserted s = (s', Ok n) ∧
    inserted <= n <= inserted + Z.of_nat (length contacts) ∧
    Z.of_nat (length (Store.contacts s')) =
      Z.of_nat (length (Store.contacts s)) + (n - inserted) ∧
    (∀ k, k ∈ map Contact.key (Store.contacts s) ->
          k ∈ map Contact.key (Store.contacts s')) ∧
    (∀ d, d ∈ map Company.domain (Store.companies s) ->
          d ∈ map Company.domain (Store.companies s')) ∧
    (∀ c, c ∈ contacts ->
          Contact.key c ∈ map Contact.key (Store.contacts s') ∧
          Contact.company_domain c ∈ map Company.domain (Store.companies s')) ∧
    Store.disposition_history s' = Store.disposition_history s ∧
    Store.client_ownership s' = Store.client_ownership s ∧
    Store.campaign_assignments s' = Store.campaign_assignments s.
Proof.
  revert inserted s. induction contacts as [|c rest IH]; intros inserted s.
  - exists s, inserted. split; [reflexivity|]. simpl.
    repeat split; auto; try lia;
      match goal with H : _ ∈ [] |- _ => inversion H end.
  - rewrite bulk_create_loop_cons. cbv zeta.
    destruct (ensured_company (Contact.company_domain c) now s)
      as (Hc0 & Hh0 & Ho0 & Ha0 & Hd0 & Hmono0).
    cbv zeta in Hc0, Hh0, Ho0, Ha0, Hd0, Hmono0.
    set (s0 := if existsb (Database.has_domain (Contact.company_domain c))
                    (Store.companies s)
               then s
               else Store.with_companies
                      (Store.companies s ++
                         [Company.default (Contact.company_domain c) now]) s) in *.
    destruct (List.find _ (Store.contacts s0)) as [r|] eqn:Hfind.
    + destruct (IH inserted s0)
        as (s' & n & Hrun & Hn & Hlen & Hkeys & Hdoms & Hall & Hh & Ho & Ha).
      exists s', n. split; [exact Hrun|].
      split; [rewrite length_cons; lia|].
      split; [rewrite Hlen, Hc0; lia|].
      split; [intros k Hk; apply Hkeys; now rewrite Hc0|].
      split; [intros d Hd; apply Hdoms, Hmono0, Hd|].
      split; [|repeat split; congruence].
      intros c' Hc'. apply elem_of_cons in Hc' as [->|Hc']; [|apply Hall, Hc'].
      split; [|apply Hdoms, Hd0].
      apply Hkeys. apply find_some in Hfind as [Hin Hk].
      apply has_key_spec in Hk. fold (Contact.key c) in Hk. rewrite <- Hk.
      apply (list_elem_of_fmap_2 Contact.key), list_elem_of_In, Hin.
    + match goal with |- context [Database.bulk_create_loop rest now (inserted + 1) ?st] =>
        set (s1 := st) end.
      destruct (IH (inserted + 1) s1)
        as (s' & n & Hrun & Hn & Hlen & Hkeys & Hdoms & Hall & Hh & Ho & Ha).
      assert (Hc1 : Store.contacts s1 =
                    Store.contacts s ++ [Database.inserted_row c now]).
      { subst s1. cbn [Store.contacts Store.with_companies Store.with_contacts].
        now rewrite Hc0. }
      assert (Hd1 : map Company.domain (Store.companies s1) =
                    map Company.domain (Store.companies s0)).
      { subst s1. cbn [Store.companies Store.with_companies Store.with_contacts].
        apply bumped_domains. }
      assert (Hlogs1 : Store.disposition_history s1 = Store.disposition_history s ∧
                       Store.client_ownership s1 = Store.client_ownership s ∧
                       Store.campaign_assignments s1 = Store.campaign_assignments s).
      { subst s1. cbn. auto. }
      destruct Hlogs1 as (Hh1 & Ho1 & Ha1).
      exists s', n. split; [exact Hrun|].
      split; [rewrite length_cons; lia|].
      split; [rewrite Hlen, Hc1, length_app; simpl; lia|].
      split.
      { intros k Hk. apply Hkeys. rewrite Hc1, map_app. apply elem_of_app. now left. }
      split; [intros d Hd; apply Hdoms; rewrite Hd1; apply Hmono0, Hd|].
      split; [|repeat split; congruence].
      intros c' Hc'. apply elem_of_cons in Hc' as [->|Hc']; [|apply Hall, Hc'].
      split.
      * apply Hkeys. rewrite Hc1, map_app. apply elem_of_app. right.
        apply list_elem_of_here.
      * apply Hdoms. rewrite Hd1. exact Hd0.
Qed.

(** When every contact has a row of its key and a company of its domain, the
    loop inserts nothing and leaves the store as it is. *)
Lemma bulk_create_loop_noop contacts now inserted s :
  (∀ c, c ∈ contacts ->
        Contact.key c ∈ map Contact.key (Store.contacts s) ∧
        Contact.company_domain c ∈ map Company.domain (Store.companies s)) ->
  Database.bulk_create_loop contacts now inserted s = (s, Ok inserted).
Proof.
  induction contacts as [|c rest IH]; intros Hall; [reflexivity|].
  rewrite bulk_create_loop_cons. cbv zeta.
  destruct (Hall c (list_elem_of_here _ _)) as [Hk Hd].
  assert (Hex : existsb (Database.has_domain (Contact.company_domain c))
                  (Store.companies s) = true).
  { apply list_elem_of_fmap in Hd as (co & Hco & Hin).
    apply existsb_exists. exists co. split; [apply list_elem_of_In, Hin|].
    unfold Database.has_domain. apply bool_decide_eq_true_2. congruence. }
  rewrite Hex.
  destruct (key_in_find _ _ _ Hk) as [r Hr]. rewrite Hr.
  apply IH. intros c' Hc'. apply Hall, list_elem_of_further, Hc'.
Qed.

Lemma map_leads_spec leads client_id now acc invalid :
  let out := WriteBack.map_leads leads client_id now acc invalid in
  Z.of_nat (length (fst out)) + snd out =
    Z.of_nat (length acc) + invalid + Z.of_nat (length leads) ∧
  invalid <= snd out.
Proof.
  revert acc invalid. induction leads as [|lead rest IH]; intros acc invalid; cbv zeta.
  - simpl. lia.
  - cbn [WriteBack.map_leads].
    destruct (WriteBack.external_lead_to_contact lead client_id now) as [c|].
    + specialize (IH (acc ++ [c]) invalid). cbv zeta in IH.
      rewrite length_app in IH. simpl in IH. rewrite length_cons. lia.
    + specialize (IH acc (invalid + 1)). cbv zeta in IH. rewrite length_cons. lia.
Qed.

(** The instant of the write-back only shows in [data_enriched_at]. *)
Lemma map_leads_instant leads client_id now now' acc acc' invalid :
  map Contact.key acc = map Contact.key acc' ->
  map Contact.company_domain acc = map Contact.company_domain acc' ->
  let out := WriteBack.map_leads leads client_id now acc invalid in
  let out' := WriteBack.map_leads leads client_id now' acc' invalid in
  map Contact.key (fst out) = map Contact.key (fst out') ∧
  map Contact.company_domain (fst out) = map Contact.company_domain (fst out') ∧
  snd out = snd out'.
Proof.
  revert acc acc' invalid. induction leads as [|lead rest IH];
    intros acc acc' invalid Hk Hd; cbv zeta.
  - simpl. auto.
  - cbn [WriteBack.map_leads]. unfold WriteBack.external_lead_to_contact.
    destruct (_ || _).
    + apply IH; assumption.
    + apply IH; rewrite !map_app; [rewrite Hk|rewrite Hd]; reflexivity.
Qed.

(** X21.  The accounting of a write-back.  [write_back_leads] always returns;
    every lead is counted once, as inserted, as a duplicate or as invalid, and
    the contact table grows by the number of leads inserted.  The other logs
    are not written. *)
Theorem write_back_accounting leads client_id now s :
  ∃ s' wb,
    WriteBack.write_back_leads leads client_id now s = (s', Ok wb) ∧
    WriteBackResult.total_processed wb = Z.of_nat (length leads) ∧
    WriteBackResult.new_inserted wb + WriteBackResult.duplicates_skipped wb +
      WriteBackResult.invalid_skipped wb = Z.of_nat (length leads) ∧
    0 <= WriteBackResult.new_inserted wb ∧
    0 <= WriteBackResult.duplicates_skipped wb ∧
    0 <= WriteBackResult.invalid_skipped wb ∧
    WriteBackResult.errors wb = [] ∧
    Z.of_nat (length (Store.contacts s')) =
      Z.of_nat (length (Store.contacts s)) + WriteBackResult.new_inserted wb ∧
    Store.disposition_history s' = Store.disposition_history s ∧
    Store.campaign_assignments s' = Store.campaign_assignments s.
Proof.
  unfold WriteBack.write_back_leads. cbv zeta.
  pose proof (map_leads_spec leads client_id now [] 0) as Hmap. cbv zeta in Hmap.
  destruct (WriteBack.map_leads leads client_id now [] 0) as [contacts invalid].
  simpl in Hmap. destruct Hmap as [Hsum Hinv].
  destruct contacts as [|c contacts].
  - exists s. eexists. split; [reflexivity|]. simpl in *. repeat split; lia.
  - destruct (bulk_create_loop_spec (c :: contacts) now 0 s)
      as (s' & n & Hrun & Hn & Hlen & _ & _ & _ & Hh & _ & Ha).
    exists s'. eexists. split.
    { unfold try_except, Database.bulk_create_contacts.
      rewrite (bind_ok _ _ _ _ _ Hrun). reflexivity. }
    cbn [WriteBackResult.total_processed WriteBackResult.new_inserted
         WriteBackResult.duplicates_skipped WriteBackResult.invalid_skipped
         WriteBackResult.errors].
    repeat split; try assumption; lia.
Qed.

(** X22.  The write-back is idempotent.  Writing the same leads back a second
    time, at whatever instant, inserts nothing and leaves the store exactly as
    the first write-back left it: the leads that were inserted the first time
    are now counted as duplicates. *)
Theorem write_back_is_idempotent leads client_id now now' s :
  ∃ s1 wb1 wb2,
    WriteBack.write_back_leads leads client_id now s = (s1, Ok wb1) ∧
    WriteBack.write_back_leads leads client_id now' s1 = (s1, Ok wb2) ∧
    WriteBackResult.new_inserted wb2 = 0 ∧
    WriteBackResult.duplicates_skipped wb2 =
      WriteBackResult.new_inserted wb1 + WriteBackResult.duplicates_skipped wb1 ∧
    WriteBackResult.invalid_skipped wb2 = WriteBackResult.invalid_skipped wb1.
Proof.
  unfold WriteBack.write_back_leads. cbv zeta.
  pose proof (map_leads_instant leads client_id now now' [] [] 0 eq_refl eq_refl)
    as Hsame. cbv zeta in Hsame.
  destruct (WriteBack.map_leads leads client_id now [] 0) as [contacts invalid].
  destruct (WriteBack.map_leads leads client_id now' [] 0) as [contacts' invalid'].
  simpl in Hsame. destruct Hsame as (Hkeys & Hdoms & <-).
  assert (Hlen : length contacts' = length contacts).
  { rewrite <- (length_map Contact.key contacts), Hkeys. symmetry. apply length_map. }
  destruct contacts as [|c contacts].
  - destruct contacts' as [|c' contacts']; [|discriminate Hlen].
    exists s. eexists _, _. repeat split.
  - destruct contacts' as [|c' contacts']; [discriminate Hlen|].
    destruct (bulk_create_loop_spec (c :: contacts) now 0 s)
      as (s1 & n & Hrun & Hn & _ & _ & _ & Hall & _).
    assert (Hnoop : Database.bulk_create_loop (c' :: contacts') now' 0 s1 = (s1, Ok 0)).
    { apply bulk_create_loop_noop. intros x Hx.
      apply list_elem_of_lookup in Hx as [i Hi].
      assert (Hki : map Contact.key (c :: contacts) !! i = Some (Contact.key x)).
      { rewrite Hkeys, list_lookup_fmap, Hi. reflexivity. }
      assert (Hdi : map Contact.company_domain (c :: contacts) !! i
                    = Some (Contact.company_domain x)).
      { rewrite Hdoms, list_lookup_fmap, Hi. reflexivity. }
      rewrite list_lookup_fmap in Hki. rewrite list_lookup_fmap in Hdi.
      destruct ((c :: contacts) !! i) as [y|] eqn:Hy; [|discriminate].
      simpl in Hki, Hdi.
      assert (Hk' : Contact.key y = Contact.key x) by congruence.
      assert (Hd' : Contact.company_domain y = Contact.company_domain x) by congruence.
      destruct (Hall y) as [Hk Hd]; [eapply list_elem_of_lookup_2; exact Hy|].
      rewrite <- Hk', <- Hd'. auto. }
    exists s1. eexists _, _. split.
    { unfold try_except, Database.bulk_create_contacts.
      rewrite (bind_ok _ _ _ _ _ Hrun). reflexivity. }
    split.
    { unfold try_except, Database.bulk_create_contacts.
      rewrite (bind_ok _ _ _ _ _ Hnoop). reflexivity. }
    cbn [WriteBackResult.new_inserted WriteBackResult.duplicates_skipped
         WriteBackResult.invalid_skipped].
    rewrite Hlen. repeat split; lia.
Qed.

(** ** The normal form of e-mail addresses and domains *)

Lemma lower_ascii_idem c : lower_ascii (lower_ascii c) = lower_ascii c.
Proof. destruct c as [[] [] [] [] [] [] [] []]; reflexivity. Qed.

Lemma is_space_lower c : is_space (lower_ascii c) = is_space c.
Proof. destruct c as [[] [] [] [] [] [] [] []]; reflexivity. Qed.

Lemma py_lower_idem s : py_lower (py_lower s) = py_lower s.
Proof. induction s as [|c s IH]; simpl; [reflexivity|]. now rewrite lower_ascii_idem, IH. Qed.

Lemma py_lower_lstrip s : py_lower (py_lstrip s) = py_lstrip (py_lower s).
Proof.
  induction s as [|c s IH]; simpl; [reflexivity|].
  rewrite is_space_lower. destruct (is_space c); [exact IH|reflexivity].
Qed.

Lemma list_ascii_app a b :
  list_ascii_of_string (a +:+ b) = list_ascii_of_string a ++ list_ascii_of_string b.
Proof. induction a as [|c a IH]; simpl; [reflexivity|]. now rewrite IH. Qed.

Lemma string_of_list_app l1 l2 :
  string_of_list_ascii (l1 ++ l2) = string_of_list_ascii l1 +:+ string_of_list_ascii l2.
Proof. induction l1 as [|c l1 IH]; simpl; [reflexivity|]. now rewrite IH. Qed.

Lemma string_reverse_involutive s : string_reverse (string_reverse s) = s.
Proof.
  unfold string_reverse.
  rewrite list_ascii_of_string_of_list_ascii, rev_involutive.
  apply string_of_list_ascii_of_string.
Qed.

Lemma string_reverse_app a b :
  string_reverse (a +:+ b) = string_reverse b +:+ string_reverse a.
Proof.
  unfold string_reverse. now rewrite list_ascii_app, rev_app_distr, string_of_list_app.
Qed.

Lemma py_lower_list s :
  list_ascii_of_string (py_lower s) = map lower_ascii (list_ascii_of_string s).
Proof. induction s as [|c s IH]; simpl; [reflexivity|]. now rewrite IH. Qed.

Lemma py_lower_of_list l :
  py_lower (string_of_list_ascii l) = string_of_list_ascii (map lower_ascii l).
Proof. induction l as [|c l IH]; simpl; [reflexivity|]. now rewrite IH. Qed.

Lemma py_lower_reverse s : py_lower (string_reverse s) = string_reverse (py_lower s).
Proof.
  unfold string_reverse. now rewrite py_lower_of_list, py_lower_list, map_rev.
Qed.

Lemma py_lower_strip s : py_lower (py_strip s) = py_strip (py_lower s).
Proof.
  unfold py_strip.
  now rewrite py_lower_reverse, py_lower_lstrip, py_lower_reverse, py_lower_lstrip.
Qed.

Lemma py_lstrip_head s :
  py_lstrip s = "" ∨ ∃ c r, py_lstrip s = String c r ∧ is_space c = false.
Proof.
  induction s as [|c s IH]; simpl; [auto|].
  destruct (is_space c) eqn:Hc; [exact IH|]. right. eauto.
Qed.

Lemma py_lstrip_suffix s : ∃ p, s = p +:+ py_lstrip s.
Proof.
  induction s as [|c s [p IH]]; simpl.
  - exists "". reflexivity.
  - destruct (is_space c).
    + exists (String c p). change (String c s = String c (p +:+ py_lstrip s)).
      f_equal. exact IH.
    + exists "". reflexivity.
Qed.

Lemma py_lstrip_idem s : py_lstrip (py_lstrip s) = py_lstrip s.
Proof.
  destruct (py_lstrip_head s) as [->|(c & r & -> & Hc)]; [reflexivity|].
  simpl. now rewrite Hc.
Qed.

Lemma py_strip_idem s : py_strip (py_strip s) = py_strip s.
Proof.
  unfold py_strip.
  set (a := py_lstrip s).
  set (b := py_lstrip (string_reverse a)).
  assert (Hfix : py_lstrip (string_reverse b) = string_reverse b).
  { destruct (py_lstrip_suffix (string_reverse a)) as [p Hp]. fold b in Hp.
    apply (f_equal string_reverse) in Hp.
    rewrite string_reverse_involutive, string_reverse_app in Hp.
    destruct (string_reverse b) as [|c r] eqn:Hb; [reflexivity|].
    simpl in Hp.
    destruct (py_lstrip_head s) as [Ha|(c' & r' & Ha & Hc')]; fold a in Ha;
      rewrite Ha in Hp; [discriminate|].
    injection Hp as -> _. simpl. now rewrite Hc'. }
  rewrite Hfix, string_reverse_involutive. subst b. now rewrite py_lstrip_idem.
Qed.

(** X23.  The mapping of an external lead.  A lead is rejected exactly when
    its e-mail address is empty or holds no "@".  A lead that is accepted
    becomes a [FRESH] contact of the client, enriched at the instant of the
    call, never suppressed, whose e-mail address and domain are in normal
    form: lower-casing them or stripping them again changes nothing. *)
Theorem external_lead_mapping lead client_id now :
  (WriteBack.external_lead_to_contact lead client_id now = None <->
   ExternalLead.email lead = "" ∨ py_contains "@" (ExternalLead.email lead) = false) ∧
  (∀ c, WriteBack.external_lead_to_contact lead client_id now = Some c ->
     Contact.email c = py_strip (py_lower (ExternalLead.email lead)) ∧
     Contact.client_id c = client_id ∧
     Contact.disposition_status c = DispositionStatus.FRESH ∧
     Contact.data_enriched_at c = Some now ∧
     Contact.email_suppressed c = false ∧
     Contact.sequence_count c = 0 ∧
     py_lower (Contact.email c) = Contact.email c ∧
     py_strip (Contact.email c) = Contact.email c ∧
     py_lower (Contact.company_domain c) = Contact.company_domain c ∧
     py_strip (Contact.company_domain c) = Contact.company_domain c).
Proof.
  unfold WriteBack.external_lead_to_contact. cbv zeta. split.
  - destruct (bool_decide (ExternalLead.email lead = "")) eqn:He.
    + simpl. apply bool_decide_eq_true_1 in He. split; auto.
    + apply bool_decide_eq_false_1 in He.
      destruct (py_contains "@" (ExternalLead.email lead)); simpl.
      * split; [discriminate|]. intros [?|?]; [contradiction|discriminate].
      * split; auto.
  - intros c. destruct (_ || _); [discriminate|]. intros [= <-].
    cbn [Contact.email Contact.client_id Contact.disposition_status
         Contact.data_enriched_at Contact.email_suppressed Contact.sequence_count
         Contact.company_domain].
    repeat split;
      first [ rewrite py_lower_strip, py_lower_idem; reflexivity
            | apply py_strip_idem ].
Qed.

(** ** The TAM pools and the burn rate *)

Lemma count_where_cons p c l :
  Database.count_where p (c :: l) =
  (if p c then 1 else 0) + Database.count_where p l.
Proof.
  unfold Database.count_where. simpl. destruct (p c); [rewrite length_cons|]; lia.
Qed.

Lemma count_where_range p l :
  0 <= Database.count_where p l <= Z.of_nat (length l).
Proof.
  induction l as [|c l IH]; [unfold Database.count_where; simpl; lia|].
  rewrite count_where_cons, length_cons. destruct (p c); lia.
Qed.

(** X24.  The TAM pools.  [get_tam_pools] reads the store without writing.
    Every pool is between 0 and [total_universe], which is the number of
    contact rows in scope.  The five pools [in_cooldown], [available_now],
    [permanent_suppress], [in_sequence] and [won_customer] are pairwise
    disjoint, so together they never hold more contacts than the universe. *)
Theorem tam_pools_are_disjoint client_id now s :
  ∃ pools,
    Database.get_tam_pools client_id now s = (s, Ok pools) ∧
    Database.total_universe pools =
      Z.of_nat (length (List.filter (Database.in_scope client_id) (Store.contacts s))) ∧
    0 <= Database.never_touched pools <= Database.total_universe pools ∧
    0 <= Database.in_cooldown pools ∧
    0 <= Database.available_now pools ∧
    0 <= Database.permanent_suppress pools ∧
    0 <= Database.in_sequence pools ∧
    0 <= Database.won_customer pools ∧
    Database.in_cooldown pools + Database.available_now pools +
      Database.permanent_suppress pools + Database.in_sequence pools +
      Database.won_customer pools <= Database.total_universe pools.
Proof.
  eexists. split; [reflexivity|].
  cbn [Database.total_universe Database.never_touched Database.in_cooldown
       Database.available_now Database.permanent_suppress Database.in_sequence
       Database.won_customer].
  set (rows := List.filter (Database.in_scope client_id) (Store.contacts s)).
  split; [reflexivity|].
  split; [apply count_where_range|].
  do 5 (split; [apply count_where_range|]).
  induction rows as [|c rows IH]; [unfold Database.count_where; simpl; lia|].
  rewrite !count_where_cons, length_cons.
  unfold Database.status_in at 1 3 5 7 9.
  destruct (Contact.disposition_status c); simpl;
    repeat match goal with
           | |- context [match ?x with Some _ => _ | None => _ end] => destruct x
           | |- context [if ?b then _ else _] => destruct b
           end; simpl; lia.
Qed.

Lemma list_filter_length_le {A} (p q : A -> bool) (l : list A) :
  (∀ x, p x = true -> q x = true) ->
  (length (List.filter p l) <= length (List.filter q l))%nat.
Proof.
  intros Himp. induction l as [|x l IH]; [reflexivity|].
  simpl. destruct (p x) eqn:Hp.
  - rewrite (Himp x Hp). simpl. lia.
  - destruct (q x); simpl; lia.
Qed.

(** X25.  The burn rate follows the history.  The burn rate is a
    non-negative whole number, and a client's burn rate never exceeds the
    global one.  A transition to [IN_SEQUENCE] that returns at instant [now]
    raises the global burn rate read at any instant of the following seven
    days by exactly one. *)
Theorem burn_rate_counts_sequence_entries settings email client_id reason triggered_by
    campaign_id now s :
  (∀ client instant, ∃ n m,
     Database.get_burn_rate client instant s = (s, Ok (inject_Z n)) ∧
     Database.get_burn_rate None instant s = (s, Ok (inject_Z m)) ∧
     0 <= n <= m) ∧
  (∀ s' instant,
     StateMachine.transition settings email client_id DispositionStatus.IN_SEQUENCE
       reason triggered_by campaign_id now s = (s', Ok tt) ->
     now <= instant < now + timedelta_days 7 ->
     ∃ n,
       Database.get_burn_rate None instant s = (s, Ok (inject_Z n)) ∧
       Database.get_burn_rate None instant s' = (s', Ok (inject_Z (n + 1)))).
Proof.
  split.
  - intros client instant. eexists _, _. split; [reflexivity|]. split; [reflexivity|].
    split; [lia|]. apply inj_le, list_filter_length_le.
    intros h Hh. apply andb_true_iff in Hh as [Hh _]. rewrite Hh. reflexivity.
  - intros s' instant Hrun Hwindow.
    destruct (transition_outcome _ _ _ _ _ _ _ _ _ _ Hrun) as (contact & Hfind & Hlegal).
    destruct (transition_logs settings email client_id DispositionStatus.IN_SEQUENCE
                reason triggered_by campaign_id now s contact Hfind Hlegal)
      as (s'' & Hrun' & Hhist & _).
    assert (s'' = s') by congruence. subst s''.
    eexists. split; [reflexivity|].
    unfold Database.get_burn_rate, query. rewrite Hhist.
    rewrite List.filter_app, length_app. cbn [List.filter DispositionHistory.new_status
      DispositionHistory.created_at DispositionHistory.contact_client_id
      Database.client_filter].
    rewrite bool_decide_eq_true_2 by reflexivity.
    replace (instant - timedelta_days 7 <? now) with true
      by (symmetry; apply Z.ltb_lt; lia).
    simpl. do 3 f_equal. lia.
Qed.

Lemma burn_rate_counts_sequence_entries_witness :
  ∃ n,
    Database.get_burn_rate None 5000 one_fresh_contact
      = (one_fresh_contact, Ok (inject_Z n)) ∧
    Database.get_burn_rate None 5000
      (fst (StateMachine.transition Settings.default "a@acme.com" "client_1"
              DispositionStatus.IN_SEQUENCE None "ui" None 200 one_fresh_contact))
      = (fst (StateMachine.transition Settings.default "a@acme.com" "client_1"
                DispositionStatus.IN_SEQUENCE None "ui" None 200 one_fresh_contact),
         Ok (inject_Z (n + 1))).
Proof.
  apply (proj2 (burn_rate_counts_sequence_entries Settings.default "a@acme.com"
                  "client_1" None "ui" None 200 one_fresh_contact)).
  - reflexivity.
  - vm_compute. split; [discriminate|reflexivity].
Defined.

(** ** The provider cascade and the waterfall result *)

(** The provider loop: what it keeps and how it accounts for the leads. *)
Lemma cascade_spec max_external_credits providers st s :
  ∃ st' extra,
    WaterfallEngine.cascade max_external_credits providers st s = (s, Ok st') ∧
    WaterfallEngine.all_external_leads st' =
      WaterfallEngine.all_external_leads st ++ extra ∧
    WaterfallEngine.deficit st' =
      WaterfallEngine.deficit st - Z.of_nat (length extra) ∧
    (let r := WaterfallEngine.partial st in
     let r' := WaterfallEngine.partial st' in
     WaterfallFillResult.total_requested r' = WaterfallFillResult.total_requested r ∧
     WaterfallFillResult.total_assigned r' = WaterfallFillResult.total_assigned r ∧
     WaterfallFillResult.internal_filled r' = WaterfallFillResult.internal_filled r ∧
     WaterfallFillResult.external_filled r' = WaterfallFillResult.external_filled r ∧
     WaterfallFillResult.contacts r' = WaterfallFillResult.contacts r ∧
     WaterfallFillResult.write_back_details r' = WaterfallFillResult.write_back_details r) ∧
    (WaterfallEngine.deficit st <= 0 ∨
     Qle_bool max_external_credits (WaterfallEngine.total_credits st) = true ->
     extra = []).
Proof.
  revert st. induction providers as [|p rest IH]; intros st.
  - exists st, []. split; [reflexivity|]. rewrite app_nil_r. simpl.
    repeat split; auto; lia.
  - cbn [WaterfallEngine.cascade].
    destruct (Z.leb_spec (WaterfallEngine.deficit st) 0) as [Hle|Hgt].
    { exists st, []. split; [reflexivity|]. rewrite app_nil_r. simpl.
      repeat split; auto; lia. }
    destruct (Qle_bool max_external_credits (WaterfallEngine.total_credits st)) eqn:Hcr.
    { eexists _, []. split; [reflexivity|]. cbn. rewrite app_nil_r.
      repeat split; auto; lia. }
    cbv zeta. unfold try_except, WaterfallEngine.call_provider, WaterfallEngine.catch_all.
    munfold.
    destruct (LeadProvider.search_leads p _) as [pr|e].
    + match goal with |- context [WaterfallEngine.cascade _ rest ?st1 s] =>
        destruct (IH st1) as (st' & extra & Hrun & Hleads & Hdef & Hkeep & _) end.
      cbn in Hleads, Hdef, Hkeep.
      exists st', (ProviderResult.leads pr ++ extra).
      split; [exact Hrun|]. split; [rewrite Hleads; now rewrite app_assoc|].
      split; [rewrite Hdef, length_app; lia|].
      split; [exact Hkeep|].
      intros [?|?]; [lia|discriminate].
    + match goal with |- context [WaterfallEngine.cascade _ rest ?st1 s] =>
        destruct (IH st1) as (st' & extra & Hrun & Hleads & Hdef & Hkeep & _) end.
      cbn in Hleads, Hdef, Hkeep.
      exists st', extra.
      split; [exact Hrun|]. split; [exact Hleads|]. split; [exact Hdef|].
      split; [exact Hkeep|].
      intros [?|?]; [lia|discriminate].
Qed.


(** The write-back and the second fill add what the second fill assigned. *)
Lemma write_back_and_refill_totals q settings request now leads result s s' result' :
  WaterfallEngine.write_back_and_refill q settings request now leads result s
    = (s', Ok result') ->
  WaterfallFillResult.external_filled result = 0 ->
  WaterfallFillResult.total_requested result' = WaterfallFillResult.total_requested result ∧
  WaterfallFillResult.internal_filled result' = WaterfallFillResult.internal_filled result ∧
  WaterfallFillResult.total_assigned result' =
    WaterfallFillResult.total_assigned result + WaterfallFillResult.external_filled result' ∧
  CampaignFillEngine.len (WaterfallFillResult.contacts result') =
    CampaignFillEngine.len (WaterfallFillResult.contacts result)
    + WaterfallFillResult.external_filled result'.
Proof.
  intros Hrun Hzero. unfold WaterfallEngine.write_back_and_refill in Hrun.
  destruct leads as [|lead leads].
  { munfold. injection Hrun as _ <-. rewrite Hzero. repeat split; lia. }
  destruct (write_back_leads_returns (lead :: leads)
              (WaterfallFillRequest.client_id request) now s) as (s1 & wb & Hwb).
  rewrite (bind_ok _ _ _ _ _ Hwb) in Hrun. cbv zeta in Hrun.
  destruct (0 <? WriteBackResult.new_inserted wb).
  2:{ munfold. injection Hrun as _ <-. cbn. rewrite Hzero. repeat split; lia. }
  destruct (0 <? _).
  2:{ munfold. injection Hrun as _ <-. cbn. rewrite Hzero. repeat split; lia. }
  unfold mbind at 1, M_bind at 1, bind at 1 in Hrun.
  destruct (WaterfallEngine.fill_engine_fill _ _ _ _ _) as [s2 [refill|e]] eqn:Hfill;
    [|discriminate].
  unfold WaterfallEngine.fill_engine_fill in Hfill.
  destruct (fill_result _ _ _ _ _ _ _ Hfill) as (fresh & retouch & Hres).
  cbv zeta in Hres.
  munfold. injection Hrun as _ <-. cbn.
  unfold CampaignFillEngine.len. rewrite length_app.
  assert (Hlen : CampaignFillResult.total_assigned refill =
                 Z.of_nat (length (CampaignFillResult.contacts refill)))
    by (rewrite Hres; reflexivity).
  repeat split; lia.
Qed.

Lemma final_shortfall_keeps request result :
  let result' := WaterfallEngine.final_shortfall request result in
  WaterfallFillResult.total_requested result' = WaterfallFillResult.total_requested result ∧
  WaterfallFillResult.total_assigned result' = WaterfallFillResult.total_assigned result ∧
  WaterfallFillResult.internal_filled result' = WaterfallFillResult.internal_filled result ∧
  WaterfallFillResult.external_filled result' = WaterfallFillResult.external_filled result ∧
  WaterfallFillResult.contacts result' = WaterfallFillResult.contacts result.
Proof.
  cbv zeta. unfold WaterfallEngine.final_shortfall.
  destruct (_ <? _); repeat split; reflexivity.
Qed.

(** X27.  The totals of a waterfall fill.  In the result [fill_campaign]
    returns, [total_requested] is the volume asked for, [total_assigned] is
    the sum of [internal_filled] and [external_filled] and the length of the
    contact list.  When external sources are disabled by the request, nothing
    is filled externally and no write-back is recorded. *)
Theorem waterfall_totals_add_up q settings providers request now s s' result :
  WaterfallEngine.fill_campaign q settings providers request now s = (s', Ok result) ->
  WaterfallFillResult.total_requested result = WaterfallFillRequest.volume request ∧
  WaterfallFillResult.total_assigned result =
    WaterfallFillResult.internal_filled result + WaterfallFillResult.external_filled result ∧
  WaterfallFillResult.total_assigned result =
    CampaignFillEngine.len (WaterfallFillResult.contacts result) ∧
  (WaterfallFillRequest.enable_external request = false ->
   WaterfallFillResult.external_filled result = 0 ∧
   WaterfallFillResult.write_back_details result = None).
Proof.
  unfold WaterfallEngine.fill_campaign. cbv zeta.
  unfold mbind at 1, M_bind at 1, bind at 1.
  destruct (WaterfallEngine.fill_engine_fill _ _ _ _ _) as [s1 [internal|e]] eqn:Hfill;
    [|discriminate].
  unfold WaterfallEngine.fill_engine_fill in Hfill.
  destruct (fill_result _ _ _ _ _ _ _ Hfill) as (fresh & retouch & Hres).
  cbv zeta in Hres.
  assert (Hlen : CampaignFillResult.total_assigned internal =
                 CampaignFillEngine.len (CampaignFillResult.contacts internal))
    by (rewrite Hres; reflexivity).
  clear Hres Hfill.
  destruct (_ <=? 0) eqn:Hdef; cbn [orb].
  { munfold. intros [= _ <-]. cbn. repeat split; lia. }
  destruct (WaterfallFillRequest.enable_external request) eqn:Hext; cbn [negb].
  2:{ munfold. intros [= _ <-]. cbn. repeat split; lia. }
  destruct (Settings.waterfall_enabled settings); cbn [negb].
  2:{ munfold. intros [= _ <-]. cbn. repeat split; try lia; discriminate. }
  match goal with |- context [WaterfallEngine.cascade ?m ?ps ?st] =>
    destruct (cascade_spec m ps st s1) as (st' & extra & Hcascade & _ & _ & Hkeep & _) end.
  cbv zeta in Hkeep. cbn in Hkeep.
  destruct Hkeep as (Hreq & Hassigned & Hinternal & Hexternal & Hcontacts & _).
  rewrite (bind_ok _ _ _ _ _ Hcascade).
  unfold mbind at 1, M_bind at 1, bind at 1.
  destruct (WaterfallEngine.write_back_and_refill _ _ _ _ _ _ _) as [s2 [result2|e]]
    eqn:Hrefill; [|discriminate].
  destruct (write_back_and_refill_totals _ _ _ _ _ _ _ _ _ Hrefill Hexternal)
    as (Hreq2 & Hint2 & Htot2 & Hlen2).
  munfold. intros [= _ <-].
  destruct (final_shortfall_keeps request result2) as (-> & -> & -> & -> & ->).
  rewrite Hcontacts in Hlen2.
  repeat split; try lia; try discriminate; congruence.
Qed.

Lemma waterfall_totals_add_up_witness :
  let run := WaterfallEngine.fill_campaign status_query Settings.default
               [clay_provider; failing_provider] waterfall_request 200
               one_fresh_contact in
  ∃ result,
    snd run = Ok result ∧
    WaterfallFillResult.total_requested result = 3 ∧
    WaterfallFillResult.total_assigned result =
      WaterfallFillResult.internal_filled result +
      WaterfallFillResult.external_filled result ∧
    WaterfallFillResult.total_assigned result =
      CampaignFillEngine.len (WaterfallFillResult.contacts result).
Proof.
  cbv zeta.
  destruct (WaterfallEngine.fill_campaign status_query Settings.default
              [clay_provider; failing_provider] waterfall_request 200
              one_fresh_contact) as [s' [result|e]] eqn:Hrun;
    [|vm_compute in Hrun; discriminate Hrun].
  destruct (waterfall_totals_add_up _ _ _ _ _ _ _ _ Hrun) as (Hreq & Hsum & Hlen & _).
  exists result. repeat split; assumption.
Defined.

(** ** The order of the providers *)

Lemma insert_by_perm {A} (key : A -> Z) x l : insert_by key x l ≡ₚ x :: l.
Proof.
  induction l as [|y l IH]; simpl; [reflexivity|].
  destruct (_ <? _); [reflexivity|]. rewrite IH. apply Permutation_swap.
Qed.

Lemma insert_by_sorted {A} (key : A -> Z) x l :
  StronglySorted (fun a b => key a <= key b) l ->
  StronglySorted (fun a b => key a <= key b) (insert_by key x l).
Proof.
  induction 1 as [|y l Hsorted IH Hall]; simpl.
  - repeat constructor.
  - destruct (Z.ltb_spec (key x) (key y)) as [Hlt|Hge].
    + constructor; [constructor; assumption|].
      constructor; [lia|].
      eapply Forall_impl; [exact Hall|]. simpl. intros z Hz. lia.
    + constructor; [exact IH|].
      rewrite insert_by_perm. constructor; [lia|exact Hall].
Qed.

Lemma sorted_by_spec {A} (key : A -> Z) l :
  sorted_by key l ≡ₚ l ∧ StronglySorted (fun a b => key a <= key b) (sorted_by key l).
Proof.
  unfold sorted_by.
  assert (Hgen : ∀ acc,
            StronglySorted (fun a b => key a <= key b) acc ->
            foldl (fun acc x => insert_by key x acc) acc l ≡ₚ acc ++ l ∧
            StronglySorted (fun a b => key a <= key b)
              (foldl (fun acc x => insert_by key x acc) acc l)).
  { induction l as [|x l IH]; intros acc Hacc; simpl.
    - rewrite app_nil_r. auto.
    - destruct (IH (insert_by key x acc) (insert_by_sorted key x acc Hacc)) as [Hp Hs].
      split; [|exact Hs].
      rewrite Hp, insert_by_perm. simpl. apply Permutation_middle. }
  destruct (Hgen [] (SSorted_nil _)) as [Hp Hs]. auto.
Qed.

(** X28.  The order in which providers are asked.  The engine keeps its
    providers sorted by priority.  Without an override, and with an empty
    override list, the active providers are the providers whose name occurs in
    the configured order, each as often as it was given, sorted by the position
    of the name in that order.  With a non-empty override they are the
    providers the override names, in priority order, whatever the configured
    order says. *)
Theorem active_providers_follow_the_order settings providers override :
  let self_providers := sorted_by LeadProvider.priority providers in
  let active := WaterfallEngine._get_active_providers settings self_providers override in
  let order_map :=
    WaterfallEngine.order_map_loop
      (py_split "," (Settings.waterfall_provider_order settings)) 0 ∅ in
  let position p := default 999 (order_map !! LeadProvider.provider_name p) in
  (self_providers ≡ₚ providers ∧
   StronglySorted (fun p q => LeadProvider.priority p <= LeadProvider.priority q)
     self_providers) ∧
  (override = None ∨ override = Some [] ->
   active ≡ₚ List.filter (fun p => bool_decide (is_Some (order_map
                                                           !! LeadProvider.provider_name p)))
               self_providers ∧
   StronglySorted (fun p q => position p <= position q) active) ∧
  (∀ names, override = Some names -> names ≠ [] ->
   active = List.filter (fun p => bool_decide (LeadProvider.provider_name p ∈ names))
              self_providers).
Proof.
  cbv zeta. split; [apply sorted_by_spec|]. split.
  - intros Hov. unfold WaterfallEngine._get_active_providers.
    destruct Hov as [->| ->]; cbv zeta; apply sorted_by_spec.
  - intros names -> Hne. unfold WaterfallEngine._get_active_providers.
    destruct names as [|n ns]; [congruence|reflexivity].
Qed.

Lemma active_providers_follow_the_order_witness :
  map LeadProvider.provider_name
    (WaterfallEngine._get_active_providers Settings.default
       (sorted_by LeadProvider.priority [clay_provider; failing_provider]) None)
  ≡ₚ ["ai_ark"; "clay"] ∧
  map LeadProvider.provider_name
    (WaterfallEngine._get_active_providers Settings.default
       (sorted_by LeadProvider.priority [clay_provider; failing_provider])
       (Some ["clay"]))
  = ["clay"].
Proof.
  destruct (active_providers_follow_the_order Settings.default
              [clay_provider; failing_provider] None) as (_ & Hdefault & _).
  destruct (Hdefault (or_introl eq_refl)) as [Hperm _].
  destruct (active_providers_follow_the_order Settings.default
              [clay_provider; failing_provider] (Some ["clay"])) as (_ & _ & Hover).
  split.
  - rewrite Hperm. vm_compute. reflexivity.
  - rewrite (Hover ["clay"] eq_refl) by discriminate. vm_compute. reflexivity.
Defined.

(** ** The path of the SQLite file *)

Lemma substring_all s : String.substring 0 (String.length s) s = s.
Proof. induction s as [|c s IH]; simpl; [reflexivity|]. now rewrite IH. Qed.

(** X29.  The URL and the path.  When SQLite is selected, [_resolve_path]
    gives back the configured [sqlite_path], whatever it is: it undoes the
    prefix that [database_url] adds.  Otherwise it returns the PostgreSQL URL
    as it is. *)
Theorem resolve_path_undoes_database_url settings :
  (ConnectionSettings.use_sqlite settings = true ->
   _resolve_path settings = ConnectionSettings.sqlite_path settings) ∧
  (ConnectionSettings.use_sqlite settings = false ->
   _resolve_path settings = ConnectionSettings.database_url settings).
Proof.
  unfold _resolve_path, ConnectionSettings.database_url, py_startswith, py_slice_from.
  split; intros ->; cbv zeta.
  - change (String.prefix "sqlite:///"
              ("sqlite:///" +:+ ConnectionSettings.sqlite_path settings))
      with (String.prefix "" (ConnectionSettings.sqlite_path settings)).
    destruct (ConnectionSettings.sqlite_path settings) as [|c p] eqn:Hp.
    + reflexivity.
    + cbn [String.prefix].
      change (String.substring (String.length "sqlite:///")
                (String.length ("sqlite:///" +:+ String c p)
                 - String.length "sqlite:///")
                ("sqlite:///" +:+ String c p))
        with (String.substring 0 (String.length (String c p)) (String c p)).
      apply substring_all.
  - reflexivity.
Qed.

Lemma resolve_path_undoes_database_url_witness :
  _resolve_path
    (ConnectionSettings.mk "localhost" 5432 "postgres" "postgres" "" true "data/leads.db")
  = "data/leads.db" ∧
  _resolve_path ConnectionSettings.default
  = "postgresql://postgres:@localhost:5432/postgres".
Proof.
  split.
  - apply (proj1 (resolve_path_undoes_database_url
                    (ConnectionSettings.mk "localhost" 5432 "postgres" "postgres" ""
                       true "data/leads.db"))).
    reflexivity.
  - rewrite (proj2 (resolve_path_undoes_database_url ConnectionSettings.default))
      by reflexivity.
    vm_compute. reflexivity.
Defined.

(** ** The integrity of the tables *)

Lemma preserves_same {A} (P : Store.t -> Prop) (m : M A) :
  (∀ s, fst (m s) = s) -> preserves P m.
Proof. intros Hm s Hs. now rewrite Hm. Qed.

Lemma preserves_ret {A} (P : Store.t -> Prop) (a : A) : preserves P (mret a).
Proof. apply preserves_same. reflexivity. Qed.

Lemma preserves_raise {A} (P : Store.t -> Prop) e : preserves P (raise (A := A) e).
Proof. apply preserves_same. reflexivity. Qed.

Lemma preserves_query {A} (P : Store.t -> Prop) (f : Store.t -> A) :
  preserves P (query f).
Proof. apply preserves_same. reflexivity. Qed.

Lemma preserves_bind {A B} (P : Store.t -> Prop) (m : M A) (k : A -> M B) :
  preserves P m -> (∀ a, preserves P (k a)) -> preserves P (m ≫= k).
Proof.
  intros Hm Hk s Hs. specialize (Hm s Hs). munfold.
  destruct (m s) as [s1 [a|e]]; [apply Hk; exact Hm|exact Hm].
Qed.

Lemma preserves_try_except {A} (P : Store.t -> Prop) (m : M A) h :
  preserves P m -> (∀ e k, h e = Some k -> preserves P k) ->
  preserves P (try_except m h).
Proof.
  intros Hm Hh s Hs. specialize (Hm s Hs). unfold try_except.
  destruct (m s) as [s1 [a|e]]; [exact Hm|].
  destruct (h e) as [k|] eqn:He; [apply (Hh e k He); exact Hm|exact Hm].
Qed.

Lemma domain_count_map domain (g : Contact.t -> Contact.t) l :
  (∀ r, Contact.company_domain (g r) = Contact.company_domain r) ->
  domain_count domain (map g l) = domain_count domain l.
Proof.
  intros Hg. induction l as [|c l IH]; [reflexivity|].
  simpl map. rewrite !domain_count_cons, IH, Hg. reflexivity.
Qed.

(** Row-wise updates that keep keys, domains and contact totals, and leave
    no counter negative, keep the tables consistent. *)
Lemma consistent_rewrite s s' g h :
  tables_consistent s ->
  Store.contacts s' = map g (Store.contacts s) ->
  (∀ r, Contact.key (g r) = Contact.key r ∧
        Contact.company_domain (g r) = Contact.company_domain r) ->
  Store.companies s' = map h (Store.companies s) ->
  (∀ co, co ∈ Store.companies s ->
         Company.domain (h co) = Company.domain co ∧
         Company.contacts_total (h co) = Company.contacts_total co ∧
         0 <= Company.contacts_in_sequence (h co)) ->
  tables_consistent s'.
Proof.
  intros (Hkeys & Hdoms & Hcover & Hcount) Hc Hg Hco Hh.
  assert (Hmapd : map Company.domain (map h (Store.companies s)) =
                  map Company.domain (Store.companies s)).
  { rewrite map_map. apply map_ext_in. intros co Hin.
    apply Hh, list_elem_of_In, Hin. }
  unfold tables_consistent, contacts_key_unique, companies_cover_contacts.
  rewrite Hc, Hco. repeat split.
  - rewrite map_map. erewrite map_ext; [exact Hkeys|]. intros r. apply Hg.
  - now rewrite Hmapd.
  - intros c' Hc'. apply list_elem_of_fmap in Hc' as (c & -> & Hin).
    destruct (Hcover c Hin) as (co & Hcoin & Hd).
    exists (h co). split; [apply list_elem_of_fmap; eauto|].
    destruct (Hh co Hcoin) as (-> & _). destruct (Hg c) as [_ ->]. exact Hd.
  - apply list_elem_of_fmap in H as (co0 & -> & Hin).
    destruct (Hh co0 Hin) as (-> & -> & _).
    rewrite domain_count_map by (intros r; apply Hg). apply Hcount, Hin.
  - apply list_elem_of_fmap in H as (co0 & -> & Hin). apply Hh, Hin.
Qed.

Lemma consistent_same_tables s s' :
  Store.contacts s' = Store.contacts s ->
  Store.companies s' = Store.companies s ->
  tables_consistent s -> tables_consistent s'.
Proof.
  intros Hc Hco Hs.
  apply (consistent_rewrite s s' (fun r => r) (fun co => co) Hs).
  - now rewrite map_id.
  - auto.
  - now rewrite map_id.
  - intros co Hin. destruct Hs as (_ & _ & _ & Hcount). split; [reflexivity|].
    split; [reflexivity|]. apply Hcount, Hin.
Qed.

Lemma preserves_update_contact_fields email client_id fields now :
  preserves tables_consistent
    (Database.update_contact_fields email client_id fields now).
Proof.
  intros s Hs. destruct fields as [|f fields]; [exact Hs|].
  destruct (update_contact_fields_run email client_id (f :: fields) now s) as [r Hr];
    [discriminate|].
  rewrite Hr. cbn [fst].
  eapply (consistent_rewrite s _ _ (fun co => co) Hs).
  - reflexivity.
  - intros r0. cbn beta. destruct (Database.has_key email client_id r0); [|auto].
    split; [apply contact_set_key|apply contact_set_domain].
  - cbn. now rewrite map_id.
  - intros co Hin. destruct Hs as (_ & _ & _ & Hcount). split; [reflexivity|].
    split; [reflexivity|]. apply Hcount, Hin.
Qed.

(** An update of company columns other than the two counters. *)
Lemma preserves_update_company_fields domain fields now :
  Forall (fun f => match f with
                   | Company.contacts_total_ _ | Company.contacts_in_sequence_ _ => False
                   | _ => True
                   end) fields ->
  preserves tables_consistent (Database.update_company_fields domain fields now).
Proof.
  intros Hfields s Hs. destruct fields as [|f fields]; [exact Hs|].
  destruct (update_company_fields_run domain (f :: fields) now s) as [r Hr];
    [discriminate|].
  rewrite Hr. cbn [fst].
  eapply (consistent_rewrite s _ (fun r => r) _ Hs).
  - cbn. now rewrite map_id.
  - auto.
  - reflexivity.
  - intros co Hin. destruct Hs as (_ & _ & _ & Hcount).
    destruct (Hcount co Hin) as [_ Hpos]. cbn beta.
    destruct (Database.has_domain domain co); [|auto].
    split; [apply company_set_domain|]. split.
    + apply company_set_keeps; [intros c v; destruct c; reflexivity|].
      eapply Forall_impl; [exact Hfields|].
      intros f0 Hf c; destruct f0; try contradiction; destruct c; reflexivity.
    + erewrite (company_set_keeps Company.contacts_in_sequence);
        [exact Hpos|intros c v; destruct c; reflexivity|].
      eapply Forall_impl; [exact Hfields|].
      intros f0 Hf c; destruct f0; try contradiction; destruct c; reflexivity.
Qed.

Lemma preserves_logs (f : Store.t -> Store.t) :
  (∀ s, Store.contacts (f s) = Store.contacts s ∧
        Store.companies (f s) = Store.companies s) ->
  preserves tables_consistent (exec f).
Proof.
  intros Hf s Hs. cbn. destruct (Hf s). now apply (consistent_same_tables s).
Qed.

Lemma preserves_insert_history e c p n r t cid now :
  preserves tables_consistent (Database.insert_history e c p n r t cid now).
Proof. apply preserves_logs. intros s. split; reflexivity. Qed.

Lemma preserves_insert_ownership_change d p n r now :
  preserves tables_consistent (Database.insert_ownership_change d p n r now).
Proof. apply preserves_logs. intros s. split; reflexivity. Qed.

Lemma preserves_insert_assignment e c cid cl ch now :
  preserves tables_consistent (Database.insert_assignment e c cid cl ch now).
Proof. apply preserves_logs. intros s. split; reflexivity. Qed.

Lemma preserves_update_company_state domain old_status new_status now :
  preserves tables_consistent
    (StateMachine._update_company_state domain old_status new_status now).
Proof.
  intros s Hs.
  destruct (update_company_state_counter domain old_status new_status now s)
    as (h & Hrun & Hh).
  destruct (sequence_updates_run domain old_status new_status now s s eq_refl)
    as (u & Hu & _ & Hseq).
  pose proof (update_company_state_apply domain old_status new_status now s u Hu) as Hrun'.
  rewrite Hrun in Hrun' |- *. cbn [fst].
  set (fs := (u ++ _) ++ _) in Hrun'.
  assert (Htotal : ∀ co, co ∈ Store.companies s ->
            Company.contacts_total (h co) = Company.contacts_total co).
  { intros co Hin. destruct fs as [|f fs'] eqn:Hfs.
    - injection Hrun' as Hrun'.
      assert (Hmap : map h (Store.companies s) = map (fun co => co) (Store.companies s)).
      { rewrite map_id. apply (f_equal Store.companies) in Hrun'. exact Hrun'. }
      apply list_elem_of_In in Hin.
      now rewrite (proj1 map_ext_in_iff Hmap co Hin).
    - injection Hrun' as Hrun'.
      apply list_elem_of_In in Hin.
      rewrite (proj1 map_ext_in_iff Hrun' co Hin).
      destruct (Database.has_domain domain co); [|reflexivity].
      rewrite <- Hfs.
      apply company_set_keeps; [intros c v; destruct c; reflexivity|].
      subst fs. repeat apply Forall_app_2.
      + eapply Forall_impl; [exact Hseq|].
        intros f0 Hf c; destruct f0; try contradiction; destruct c; reflexivity.
      + destruct (decide (new_status = DispositionStatus.WON_CUSTOMER));
          repeat (apply List.Forall_cons; [intros c0; destruct c0; reflexivity|]);
          apply List.Forall_nil.
      + destruct (decide (new_status = DispositionStatus.REPLIED_HARD_NO));
          repeat (apply List.Forall_cons; [intros c0; destruct c0; reflexivity|]);
          apply List.Forall_nil. }
  eapply (consistent_rewrite s _ (fun r => r) h Hs).
  - cbn. now rewrite map_id.
  - auto.
  - reflexivity.
  - intros co Hin. destruct (Hh co) as [Hd Hc].
    split; [exact Hd|]. split; [apply Htotal, Hin|].
    destruct Hs as (_ & _ & _ & Hcount).
    destruct (Hcount co Hin) as [_ Hpos]. rewrite Hc.
    destruct (List.find _ (Store.companies s)) as [first|] eqn:Hfirst; [|exact Hpos].
    apply find_some in Hfirst as [Hfin _]. apply list_elem_of_In in Hfin.
    destruct (Hcount first Hfin) as [_ Hfpos].
    destruct (negb _); [exact Hpos|].
    destruct (decide (new_status = DispositionStatus.IN_SEQUENCE)); [lia|].
    destruct (decide (old_status = DispositionStatus.IN_SEQUENCE)); [|exact Hpos].
    unfold py_max.
    destruct (Z.ltb_spec 0 (Company.contacts_in_sequence first - 1)); lia.
Qed.

Lemma preserves_suppress_loop l now :
  preserves tables_consistent (StateMachine.suppress_loop l now).
Proof.
  induction l as [|c l IH]; cbn [StateMachine.suppress_loop]; [apply preserves_ret|].
  apply preserves_bind; [|intros _; exact IH].
  destruct (Contact.email_suppressed c); [apply preserves_ret|].
  apply preserves_bind; [apply preserves_update_contact_fields|].
  intros _. apply preserves_ret.
Qed.

Lemma preserves_transition settings email client_id new_status reason triggered_by
    campaign_id now :
  preserves tables_consistent
    (StateMachine.transition settings email client_id new_status reason triggered_by
       campaign_id now).
Proof.
  unfold StateMachine.transition.
  apply preserves_bind; [apply preserves_query|].
  intros [contact|]; [|apply preserves_raise].
  cbv zeta. apply preserves_bind.
  { unfold StateMachine._validate_transition.
    repeat case_decide; first [apply preserves_ret | apply preserves_raise]. }
  intros _. apply preserves_bind; [apply preserves_update_contact_fields|].
  intros _. apply preserves_bind; [apply preserves_insert_history|].
  intros _. apply preserves_bind; [apply preserves_update_company_state|].
  intros _. case_decide; [|apply preserves_ret].
  unfold StateMachine._suppress_company.
  apply preserves_bind; [apply preserves_query|].
  intros l. apply preserves_suppress_loop.
Qed.

Lemma preserves_sweep_loop settings target reason now l count :
  preserves tables_consistent
    (StateMachine.sweep_loop settings target reason now l count).
Proof.
  revert count. induction l as [|c l IH]; intros count; cbn [StateMachine.sweep_loop];
    [apply preserves_ret|].
  apply preserves_bind; [|intros n; apply IH].
  apply preserves_try_except.
  - apply preserves_bind; [apply preserves_transition|]. intros _. apply preserves_ret.
  - intros e k He. destruct e; try discriminate He. injection He as <-.
    apply preserves_ret.
Qed.

(** The company row for a new domain, and the row of a new contact. *)
Lemma consistent_ensure_company domain now s :
  tables_consistent s ->
  tables_consistent
    (if existsb (Database.has_domain domain) (Store.companies s) then s
     else Store.with_companies (Store.companies s ++ [Company.default domain now]) s).
Proof.
  intros Hs. destruct (existsb _ _) eqn:Hex; [exact Hs|].
  destruct Hs as (Hkeys & Hdoms & Hcover & Hcount).
  assert (Hfresh : domain ∉ map Company.domain (Store.companies s)).
  { intros Hin. apply list_elem_of_fmap in Hin as (co & Hd & Hin).
    apply not_true_iff_false in Hex. apply Hex, existsb_exists.
    exists co. split; [apply list_elem_of_In, Hin|].
    unfold Database.has_domain. apply bool_decide_eq_true_2. congruence. }
  unfold tables_consistent, contacts_key_unique, companies_cover_contacts.
  cbn [Store.contacts Store.companies Store.with_companies].
  split; [exact Hkeys|]. split.
  { rewrite map_app. apply NoDup_app. split; [exact Hdoms|]. split.
    - intros d Hd Hd'. simpl in Hd'. apply list_elem_of_singleton in Hd'. congruence.
    - simpl. apply NoDup_singleton. }
  split.
  { intros c Hc. destruct (Hcover c Hc) as (co & Hin & Hd).
    exists co. split; [apply elem_of_app; now left|exact Hd]. }
  intros co Hin. apply elem_of_app in Hin as [Hin|Hin]; [apply Hcount, Hin|].
  apply list_elem_of_singleton in Hin. subst co. simpl. split; [|lia].
  unfold domain_count.
  rewrite (filter_none (fun c => Contact.company_domain c = domain)); [reflexivity|].
  intros c Hc Hd. destruct (Hcover c Hc) as (co & Hin & Hd').
  apply Hfresh. rewrite <- Hd, <- Hd'.
  apply (list_elem_of_fmap_2 Company.domain), Hin.
Qed.

Lemma consistent_insert contact now s :
  tables_consistent s ->
  Contact.key contact ∉ map Contact.key (Store.contacts s) ->
  Contact.company_domain contact ∈ map Company.domain (Store.companies s) ->
  tables_consistent
    (Store.with_companies
       (map (fun co =>
               if Database.has_domain (Contact.company_domain contact) co
               then Company.assign co
                      (Company.contacts_total_ (Company.contacts_total co + 1))
               else co) (Store.companies s))
       (Store.with_contacts (Store.contacts s ++ [Database.inserted_row contact now]) s)).
Proof.
  intros (Hkeys & Hdoms & Hcover & Hcount) Hfresh Hdom.
  unfold tables_consistent, contacts_key_unique, companies_cover_contacts.
  cbn [Store.contacts Store.companies Store.with_companies Store.with_contacts].
  rewrite bumped_domains.
  split.
  { rewrite map_app. apply NoDup_app. split; [exact Hkeys|]. split.
    - intros k Hk Hk'. simpl in Hk'. apply list_elem_of_singleton in Hk'.
      subst k. exact (Hfresh Hk).
    - simpl. apply NoDup_singleton. }
  split; [exact Hdoms|].
  split.
  { intros c Hc.
    assert (Hd : Contact.company_domain c ∈ map Company.domain (Store.companies s)).
    { apply elem_of_app in Hc as [Hc|Hc].
      - destruct (Hcover c Hc) as (co & Hin & Hd). rewrite <- Hd.
        apply (list_elem_of_fmap_2 Company.domain), Hin.
      - apply list_elem_of_singleton in Hc. subst c. exact Hdom. }
    rewrite <- (bumped_domains (Contact.company_domain contact)) in Hd.
    apply list_elem_of_fmap in Hd as (co & Hd & Hin). eauto. }
  intros co' Hin. apply list_elem_of_fmap in Hin as (co & -> & Hin).
  destruct (Hcount co Hin) as [Htotal Hpos].
  rewrite domain_count_app, domain_count_cons, domain_count_nil.
  change (Contact.company_domain (Database.inserted_row contact now))
    with (Contact.company_domain contact).
  unfold Database.has_domain.
  destruct (decide (Company.domain co = Contact.company_domain contact)) as [Heq|Hne].
  - rewrite bool_decide_eq_true_2 by exact Heq.
    rewrite company_assign_domain.
    rewrite decide_True by congruence.
    destruct co; simpl in *. split; lia.
  - rewrite bool_decide_eq_false_2 by exact Hne.
    rewrite decide_False by congruence. split; [lia|exact Hpos].
Qed.

Lemma preserves_create_contact contact now :
  preserves tables_consistent (Database.create_contact contact now).
Proof.
  intros s Hs. rewrite create_contact_store. cbv zeta.
  pose proof (consistent_ensure_company (Contact.company_domain contact) now s Hs) as Hs0.
  destruct (ensured_company (Contact.company_domain contact) now s)
    as (Hc0 & _ & _ & _ & Hd0 & _).
  cbv zeta in Hc0, Hd0.
  set (s0 := if existsb (Database.has_domain (Contact.company_domain contact))
                  (Store.companies s)
             then s
             else Store.with_companies
                    (Store.companies s ++
                       [Company.default (Contact.company_domain contact) now]) s) in *.
  destruct (List.find _ (Store.contacts s)) as [r|] eqn:Hfind; [exact Hs0|].
  rewrite <- Hc0. apply consistent_insert; [exact Hs0| |exact Hd0].
  rewrite Hc0. apply find_none_key. exact Hfind.
Qed.

Lemma preserves_bulk_create_loop contacts now inserted :
  preserves tables_consistent (Database.bulk_create_loop contacts now inserted).
Proof.
  revert inserted. induction contacts as [|c rest IH]; intros inserted s Hs;
    [exact Hs|].
  rewrite bulk_create_loop_cons. cbv zeta.
  pose proof (consistent_ensure_company (Contact.company_domain c) now s Hs) as Hs0.
  destruct (ensured_company (Contact.company_domain c) now s)
    as (Hc0 & _ & _ & _ & Hd0 & _).
  cbv zeta in Hc0, Hd0.
  set (s0 := if existsb (Database.has_domain (Contact.company_domain c))
                  (Store.companies s)
             then s
             else Store.with_companies
                    (Store.companies s ++
                       [Company.default (Contact.company_domain c) now]) s) in *.
  destruct (List.find _ (Store.contacts s0)) as [r|] eqn:Hfind; [apply IH, Hs0|].
  apply IH. apply consistent_insert; [exact Hs0| |exact Hd0].
  apply find_none_key. exact Hfind.
Qed.

Lemma preserves_bulk_create_contacts contacts now :
  preserves tables_consistent (Database.bulk_create_contacts contacts now).
Proof.
  destruct contacts as [|c contacts]; [apply preserves_ret|].
  apply preserves_bulk_create_loop.
Qed.

Lemma preserves_write_back_leads leads client_id now :
  preserves tables_consistent (WriteBack.write_back_leads leads client_id now).
Proof.
  unfold WriteBack.write_back_leads. cbv zeta.
  destruct (WriteBack.map_leads leads client_id now [] 0) as [contacts invalid].
  destruct contacts as [|c contacts]; [apply preserves_ret|].
  apply preserves_try_except.
  - apply preserves_bind; [apply preserves_bulk_create_contacts|].
    intros n. apply preserves_ret.
  - intros e k [= <-]. apply preserves_ret.
Qed.

Lemma ownership_fields_neutral settings client_id now :
  Forall (fun f => match f with
                   | Company.contacts_total_ _ | Company.contacts_in_sequence_ _ => False
                   | _ => True
                   end) (Deconfliction.ownership_fields settings client_id now).
Proof. repeat (apply List.Forall_cons; [exact I|]). apply List.Forall_nil. Qed.

Lemma cleared_ownership_neutral :
  Forall (fun f => match f with
                   | Company.contacts_total_ _ | Company.contacts_in_sequence_ _ => False
                   | _ => True
                   end) Deconfliction.cleared_ownership.
Proof. repeat (apply List.Forall_cons; [exact I|]). apply List.Forall_nil. Qed.

Lemma preserves_claim_ownership settings domain client_id now :
  preserves tables_consistent
    (Deconfliction.claim_ownership settings domain client_id now).
Proof.
  unfold Deconfliction.claim_ownership.
  apply preserves_bind; [apply preserves_query|].
  intros [company|]; [|apply preserves_ret].
  destruct (match Company.client_owner_id company with
            | Some owner => bool_decide (owner ≠ client_id)
            | None => false
            end); [apply preserves_ret|].
  apply preserves_bind;
    [apply preserves_update_company_fields, ownership_fields_neutral|].
  intros _. apply preserves_bind; [apply preserves_insert_ownership_change|].
  intros _. apply preserves_ret.
Qed.

Lemma preserves_release_ownership domain now :
  preserves tables_consistent (Deconfliction.release_ownership domain now).
Proof.
  unfold Deconfliction.release_ownership.
  apply preserves_bind; [apply preserves_query|].
  intros [company|]; [|apply preserves_ret].
  destruct (Company.client_owner_id company); [|apply preserves_ret].
  apply preserves_bind;
    [apply preserves_update_company_fields, cleared_ownership_neutral|].
  intros _. apply preserves_bind; [apply preserves_insert_ownership_change|].
  intros _. apply preserves_ret.
Qed.

Lemma preserves_transfer_ownership settings domain new_client_id now :
  preserves tables_consistent
    (Deconfliction.transfer_ownership settings domain new_client_id now).
Proof.
  unfold Deconfliction.transfer_ownership.
  apply preserves_bind; [apply preserves_query|].
  intros [company|]; [|apply preserves_ret].
  apply preserves_bind;
    [apply preserves_update_company_fields, ownership_fields_neutral|].
  intros _. apply preserves_bind; [apply preserves_insert_ownership_change|].
  intros _. apply preserves_ret.
Qed.

Lemma preserves_release_loop l now count :
  preserves tables_consistent (Deconfliction.release_loop l now count).
Proof.
  revert count. induction l as [|c l IH]; intros count;
    cbn [Deconfliction.release_loop]; [apply preserves_ret|].
  apply preserves_bind;
    [apply preserves_update_company_fields, cleared_ownership_neutral|].
  intros _. apply preserves_bind; [apply preserves_insert_ownership_change|].
  intros _. apply IH.
Qed.

Lemma preserves_assign_contact settings contact request channel now :
  preserves tables_consistent
    (CampaignFillEngine._assign_contact settings contact request channel now).
Proof.
  unfold CampaignFillEngine._assign_contact.
  apply preserves_bind; [apply preserves_transition|].
  intros _. apply preserves_bind; [apply preserves_update_contact_fields|].
  intros _. apply preserves_bind; [apply preserves_insert_assignment|].
  intros _. apply preserves_bind; [apply preserves_query|].
  intros [co|]; [|apply preserves_ret].
  destruct (Company.client_owner_id co); [apply preserves_ret|].
  apply preserves_bind;
    [apply preserves_update_company_fields, ownership_fields_neutral|].
  intros _. apply preserves_insert_ownership_change.
Qed.

Lemma preserves_assign_loop settings request channel now l t :
  preserves tables_consistent
    (CampaignFillEngine.assign_loop settings request channel now l t).
Proof.
  revert t. induction l as [|c l IH]; intros t;
    cbn [CampaignFillEngine.assign_loop]; [apply preserves_ret|].
  apply preserves_bind; [apply preserves_assign_contact|]. intros _. apply IH.
Qed.

Lemma preserves_fill q settings request now :
  read_only q ->
  preserves tables_consistent (CampaignFillEngine.fill q settings request now).
Proof.
  intros Hq. unfold CampaignFillEngine.fill. cbv zeta.
  apply preserves_bind; [apply preserves_same; intros s; apply Hq|].
  intros fresh. apply preserves_bind; [apply preserves_same; intros s; apply Hq|].
  intros retouch. apply preserves_bind; [apply preserves_assign_loop|].
  intros t. apply preserves_ret.
Qed.

Lemma preserves_fill_campaign q settings providers request now :
  read_only q ->
  preserves tables_consistent
    (WaterfallEngine.fill_campaign q settings providers request now).
Proof.
  intros Hq. unfold WaterfallEngine.fill_campaign. cbv zeta.
  apply preserves_bind; [apply preserves_fill, Hq|].
  intros internal. destruct (_ || _); [apply preserves_ret|].
  destruct (negb _); [apply preserves_ret|].
  apply preserves_bind.
  { apply preserves_same. intros s.
    match goal with |- context [WaterfallEngine.cascade ?m ?ps ?st] =>
      destruct (cascade_returns m ps st s) as (st' & Hrun & _) end.
    now rewrite Hrun. }
  intros st. apply preserves_bind; [|intros r; apply preserves_ret].
  unfold WaterfallEngine.write_back_and_refill.
  destruct (WaterfallEngine.all_external_leads st) as [|lead leads];
    [apply preserves_ret|].
  apply preserves_bind; [apply preserves_write_back_leads|].
  intros wb. cbv zeta. destruct (0 <? _); [|apply preserves_ret].
  destruct (0 <? _); [|apply preserves_ret].
  apply preserves_bind; [apply preserves_fill, Hq|].
  intros refill. apply preserves_ret.
Qed.

(** X30.  The integrity of the tables.  Start from the empty store and run,
    in any order, at any instants and with any arguments: [create_contact],
    [bulk_create_contacts], [update_contact_fields] on the columns the package
    sets, [transition], the two sweeps of the state machine, the claim, the
    release, the transfer and the sweep of the deconfliction, the write-back,
    and the two fill engines with a query that only reads.  Whether the calls
    return or raise, the store they leave is consistent: no two contact rows
    share a key, no two company rows share a domain, every contact has the
    company row of its domain, [contacts_total] of every company is the number
    of contact rows of its domain, and [contacts_in_sequence] is never
    negative. *)
Theorem operations_keep_tables_consistent settings s :
  operated settings s -> tables_consistent s.
Proof.
  induction 1 as [ | contact now s _ IH | contacts now s _ IH
                 | email client_id fields now s _ IH
                 | email client_id new_status reason triggered_by campaign_id now s _ IH
                 | now s _ IH | months now s _ IH | domain client_id now s _ IH
                 | domain now s _ IH | domain new_client_id now s _ IH | now s _ IH
                 | leads client_id now s _ IH | q request now s Hq _ IH
                 | q providers request now s Hq _ IH ].
  - unfold tables_consistent, contacts_key_unique, companies_cover_contacts. simpl.
    split; [apply NoDup_nil_2|]. split; [apply NoDup_nil_2|].
    split; intros x Hx; inversion Hx.
  - now apply preserves_create_contact.
  - now apply preserves_bulk_create_contacts.
  - now apply preserves_update_contact_fields.
  - now apply preserves_transition.
  - revert IH. apply (preserves_bind tables_consistent); [apply preserves_query|].
    intros l. apply preserves_sweep_loop.
  - revert IH. unfold StateMachine.process_stale_data. cbv zeta.
    apply (preserves_bind tables_consistent); [apply preserves_query|].
    intros l. apply preserves_sweep_loop.
  - now apply preserves_claim_ownership.
  - now apply preserves_release_ownership.
  - now apply preserves_transfer_ownership.
  - revert IH. apply (preserves_bind tables_consistent); [apply preserves_query|].
    intros l. apply preserves_release_loop.
  - now apply preserves_write_back_leads.
  - now apply preserves_fill.
  - now apply preserves_fill_campaign.
Qed.

Lemma operations_keep_tables_consistent_witness :
  operated Settings.default acme_store ∧ tables_consistent acme_store.
Proof.
  assert (Hop : operated Settings.default acme_store).
  { unfold acme_store. cbv zeta.
    apply operated_transition, operated_create_contact, operated_create_contact,
      operated_create_contact, operated_empty. }
  split; [exact Hop|].
  apply (operations_keep_tables_consistent Settings.default). exact Hop.
Defined.
